(** * Node server of the secret CSI driver (internal/csi/node.go)

    A shallow embedding of the node half of the driver: request
    validation, the publish and unpublish pipelines, the tmpfs mount, the
    content writer and the reconciliation of the expiration annotation.

    The Go methods of [NodeServer] are embedded as programs over the calls
    they make to their collaborators (the operating system, the mounter,
    the cluster client, the secret backend).  A program is a finite tree
    of calls; it is run against a model of the node and of the cluster
    that answers each call.  Logging and the context argument are left
    out, and a request is never the nil pointer. *)

From Stdlib Require Import ZArith Ascii String DecimalString DecimalPos.
From stdpp Require Import base option list gmap strings fin_maps.

Local Open Scope string_scope.
Local Open Scope Z_scope.

(** ** Errors *)

(** google.golang.org/grpc/codes: the codes that node.go uses, and
    [NotFound], which it never uses. *)
Module codes.
Inductive Code : Set :=
| InvalidArgument
| NotFound
| Internal
| Unimplemented.

#[global] Instance Code_eq_dec : EqDecision Code.
Proof. solve_decision. Defined.
End codes.

(** The reason carried by an error of the cluster API. *)
Inductive StatusReason : Set :=
| StatusReasonNotFound
| StatusReasonConflict
| StatusReasonUnknown.

(** strconv.ErrSyntax and strconv.ErrRange. *)
Inductive NumErr : Set :=
| ErrSyntax
| ErrRange.

(** A Go [error] value, by its dynamic type:
    a gRPC status (status.Error), an error of the cluster API, an error
    of the operating system or of the mounter, a *strconv.NumError, the
    result of errors.New. *)
Inductive error : Type :=
| StatusError (code : codes.Code) (msg : string)
| APIStatusError (reason : StatusReason) (msg : string)
| SysError (msg : string)
| NumError (Func Num : string) (Err : NumErr)
| errorString (msg : string).

#[export] Instance StatusReason_eq_dec : EqDecision StatusReason.
Proof. solve_decision. Defined.
#[export] Instance NumErr_eq_dec : EqDecision NumErr.
Proof. solve_decision. Defined.
#[export] Instance error_eq_dec : EqDecision error.
Proof. solve_decision. Defined.

(** The double quote, as a one-character string. *)
Definition dquote : string := String (ascii_of_nat 34) EmptyString.

Definition NumErr_text (e : NumErr) : string :=
  match e with
  | ErrSyntax => "invalid syntax"
  | ErrRange => "value out of range"
  end.

(** The method [Error()].  For a gRPC status it is the rendering
    "rpc error: code = ... desc = ...".  The text of a NumError quotes the
    number with strconv.Quote, which is rendered here without escapes. *)
Definition code_text (c : codes.Code) : string :=
  match c with
  | codes.InvalidArgument => "InvalidArgument"
  | codes.NotFound => "NotFound"
  | codes.Internal => "Internal"
  | codes.Unimplemented => "Unimplemented"
  end.

Definition Error (e : error) : string :=
  match e with
  | StatusError c m => "rpc error: code = " ++ code_text c ++ " desc = " ++ m
  | APIStatusError _ m => m
  | SysError m => m
  | NumError f n e => "strconv." ++ f ++ ": parsing " ++ dquote ++ n ++ dquote ++ ": " ++ NumErr_text e
  | errorString m => m
  end.

(** A Go result pair (value, error) of which only one side is used. *)
Inductive result (A : Type) : Type :=
| Ok (a : A)
| Err (e : error).
Arguments Ok {A} a.
Arguments Err {A} e.

Module status.
(** status.Error(code, msg) *)
Definition Error (c : codes.Code) (msg : string) : error := StatusError c msg.

(** status.Code(err): the code of a status error. *)
Definition Code (e : error) : option codes.Code :=
  match e with
  | StatusError c _ => Some c
  | _ => None
  end.
End status.

(** ** strconv *)

Module strconv.

Definition maxUint64 : Z := 2 ^ 64 - 1.

(** lower(c) = c | ('x' - 'X') *)
Definition lower (c : Z) : Z := Z.lor c 32.

(** The value of a byte as a digit, for the bases up to 36; [None] is
    the default branch of the switch (a syntax error). *)
Definition digit_val (c : Z) : option Z :=
  if (48 <=? c) && (c <=? 57) then Some (c - 48)
  else if (97 <=? lower c) && (lower c <=? 122) then Some (lower c - 97 + 10)
  else None.

(** The loop of ParseUint over the bytes of the string, on uint64 with
    its wrap-around, for a base between 2 and 36. *)
Fixpoint ParseUint_loop (base cutoff maxVal : Z) (s : string) (n : Z)
  : Z * option NumErr :=
  match s with
  | EmptyString => (n, None)
  | String a s' =>
      match digit_val (Z.of_N (N_of_ascii a)) with
      | None => (0, Some ErrSyntax)
      | Some d =>
          if base <=? d then (0, Some ErrSyntax)
          else if cutoff <=? n then (maxVal, Some ErrRange)
          else
            let n' := (n * base) mod 2 ^ 64 in
            let n1 := (n' + d) mod 2 ^ 64 in
            if (n1 <? n') || (maxVal <? n1) then (maxVal, Some ErrRange)
            else ParseUint_loop base cutoff maxVal s' n1
      end
  end.

(** ParseUint(s, 10, 64) *)
Definition ParseUint10 (s : string) : Z * option NumErr :=
  if decide (s = EmptyString) then (0, Some ErrSyntax)
  else ParseUint_loop 10 (maxUint64 / 10 + 1) maxUint64 s 0.

(** ParseInt(s, 10, 64) *)
Definition ParseInt10 (s : string) : Z * option error :=
  match s with
  | EmptyString => (0, Some (NumError "ParseInt" s ErrSyntax))
  | String a s' =>
      let s0 := s in
      let '(neg, s) :=
        if decide (a = "+"%char) then (false, s')
        else if decide (a = "-"%char) then (true, s')
        else (false, s) in
      match ParseUint10 s with
      | (_, Some ErrSyntax) => (0, Some (NumError "ParseInt" s0 ErrSyntax))
      | (un, _) =>
          let cutoff := 2 ^ 63 in
          if negb neg && (cutoff <=? un) then
            (cutoff - 1, Some (NumError "ParseInt" s0 ErrRange))
          else if neg && (cutoff <? un) then
            (- cutoff, Some (NumError "ParseInt" s0 ErrRange))
          else
            (if neg then - un else un, None)
      end
  end.

(** FormatInt(i, 10): the decimal digits, with a minus sign before a
    negative number. *)
Definition FormatInt10 (i : Z) : string :=
  NilZero.string_of_int (Z.to_int i).

(** The number that the digits [d] denote after the digits of [n]. *)
Fixpoint decimal_value (d : Decimal.uint) (n : Z) : Z :=
  match d with
  | Decimal.Nil => n
  | Decimal.D0 d => decimal_value d (10 * n)
  | Decimal.D1 d => decimal_value d (10 * n + 1)
  | Decimal.D2 d => decimal_value d (10 * n + 2)
  | Decimal.D3 d => decimal_value d (10 * n + 3)
  | Decimal.D4 d => decimal_value d (10 * n + 4)
  | Decimal.D5 d => decimal_value d (10 * n + 5)
  | Decimal.D6 d => decimal_value d (10 * n + 6)
  | Decimal.D7 d => decimal_value d (10 * n + 7)
  | Decimal.D8 d => decimal_value d (10 * n + 8)
  | Decimal.D9 d => decimal_value d (10 * n + 9)
  end.

End strconv.


(** ** path/filepath, on a Unix node *)

Module filepath.

(** strings.Split(s, sep) for a one-byte separator. *)
Fixpoint split (sep : ascii) (s : string) : list string :=
  match s with
  | EmptyString => [EmptyString]
  | String c s' =>
      if decide (c = sep) then EmptyString :: split sep s'
      else match split sep s' with
           | x :: xs => String c x :: xs
           | [] => [String c EmptyString]
           end
  end.

(** The elements that Clean keeps, last one first in [out]: an empty
    element and "." are dropped, ".." removes the element before it
    when there is one to remove, is dropped at the root, and is kept at
    the head of a path that is not rooted. *)
Fixpoint clean_elems (rooted : bool) (elems out : list string) : list string :=
  match elems with
  | [] => reverse out
  | e :: elems' =>
      if decide (e = EmptyString) then clean_elems rooted elems' out
      else if decide (e = ".") then clean_elems rooted elems' out
      else if decide (e = "..") then
        match out with
        | top :: out' =>
            if decide (top = "..") then clean_elems rooted elems' (e :: out)
            else clean_elems rooted elems' out'
        | [] =>
            if rooted then clean_elems rooted elems' out
            else clean_elems rooted elems' (e :: out)
        end
      else clean_elems rooted elems' (e :: out)
  end.

(** An element that Clean keeps as a name. *)
Definition real (e : string) : Prop :=
  e ≠ EmptyString ∧ e ≠ "." ∧ e ≠ "..".

Definition is_rooted (path : string) : bool :=
  match path with
  | String c _ => bool_decide (c = "/"%char)
  | EmptyString => false
  end.

(** Clean(path): the shortest path equivalent to [path] by lexical
    processing alone. *)
Definition Clean (path : string) : string :=
  let rooted := is_rooted path in
  let out := (if rooted then "/" else EmptyString)
               ++ String.concat "/" (clean_elems rooted (split "/" path) []) in
  if decide (out = EmptyString) then "." else out.

(** Join(elem...): the elements from the first one that is not empty
    are joined with the separator and the result is cleaned. *)
Fixpoint Join (elem : list string) : string :=
  match elem with
  | [] => EmptyString
  | e :: rest =>
      if decide (e = EmptyString) then Join rest
      else Clean (String.concat "/" elem)
  end.

End filepath.


(** ** Data *)

(** A Go map[string]string; [None] is the nil map. *)
Abbreviation gomap := (option (gmap string string)).

(** len(m) *)
Definition len (m : gomap) : nat :=
  match m with
  | None => 0%nat
  | Some m => size m
  end.

(** v, found := m[k] *)
Definition index (m : gomap) (k : string) : option string :=
  match m with
  | None => None
  | Some m => m !! k
  end.

Module corev1.
(** The part of a Pod that the node server reads and writes. *)
Record Pod : Type := {
  Name : string;
  Namespace : string;
  Annotations : gomap
}.

Definition DeepCopy (pod : Pod) : Pod := pod.

Definition with_Annotations (pod : Pod) (a : gomap) : Pod :=
  {| Name := Name pod; Namespace := Namespace pod; Annotations := a |}.

#[global] Instance Pod_eq_dec : EqDecision Pod.
Proof. solve_decision. Defined.
End corev1.

Module secretsv1alpha1.
(** api/v1alpha1.SecretClass, of which the node server only passes the
    object on to the backend. *)
Record SecretClass : Type := {
  Name : string;
  Spec : string
}.

#[global] Instance SecretClass_eq_dec : EqDecision SecretClass.
Proof. solve_decision. Defined.
End secretsv1alpha1.

Module volume.
(** pkg/volume.VolumeSelector: the fields that the node server reads. *)
Record VolumeSelector : Type := {
  Class : string;
  Pod : string;
  PodNamespace : string
}.

#[global] Instance VolumeSelector_eq_dec : EqDecision VolumeSelector.
Proof. solve_decision. Defined.
End volume.

Module client.
Record ObjectKey : Type := {
  Namespace : string;
  Name : string
}.

#[global] Instance ObjectKey_eq_dec : EqDecision ObjectKey.
Proof. solve_decision. Defined.
End client.

(** What the backend returns: the files by name, and the expiration time
    (a *int64, [None] for nil; the values of an int64 are the integers
    from -2^63 to 2^63 - 1, which are compared and printed but not
    computed with).  A nil map and an empty map are iterated alike and
    are not told apart. *)
Record SecretContent : Type := {
  Data : gmap string string;
  ExpiresTime : option Z
}.

Module csi.
Inductive VolumeCapability : Set :=
| VolumeCapability_Mount
| VolumeCapability_Block.

Module NodePublishVolumeRequest.
Record t : Type := {
  GetVolumeId : string;
  GetTargetPath : string;
  GetVolumeCapability : option VolumeCapability;
  GetVolumeContext : gomap
}.
End NodePublishVolumeRequest.

Module NodeUnpublishVolumeRequest.
Record t : Type := {
  GetVolumeId : string;
  GetTargetPath : string
}.
End NodeUnpublishVolumeRequest.

Inductive NodePublishVolumeResponse : Set := mkNodePublishVolumeResponse.
Inductive NodeUnpublishVolumeResponse : Set := mkNodeUnpublishVolumeResponse.
Inductive NodeGetVolumeStatsResponse : Set := .
Inductive NodeExpandVolumeResponse : Set := .

Module NodeStageVolumeRequest.
Record t : Type := {
  GetVolumeId : string;
  GetStagingTargetPath : string;
  GetVolumeCapability : option VolumeCapability
}.
End NodeStageVolumeRequest.

Module NodeUnstageVolumeRequest.
Record t : Type := {
  GetVolumeId : string;
  GetStagingTargetPath : string
}.
End NodeUnstageVolumeRequest.

Inductive NodeStageVolumeResponse : Set := mkNodeStageVolumeResponse.
Inductive NodeUnstageVolumeResponse : Set := mkNodeUnstageVolumeResponse.

(** The kinds of NodeServiceCapability_RPC. *)
Inductive NodeServiceCapability_RPC_Type : Set :=
| NodeServiceCapability_RPC_UNKNOWN
| NodeServiceCapability_RPC_STAGE_UNSTAGE_VOLUME
| NodeServiceCapability_RPC_GET_VOLUME_STATS
| NodeServiceCapability_RPC_EXPAND_VOLUME
| NodeServiceCapability_RPC_VOLUME_CONDITION
| NodeServiceCapability_RPC_SINGLE_NODE_MULTI_WRITER
| NodeServiceCapability_RPC_VOLUME_MOUNT_GROUP.

Record NodeServiceCapability_RPC : Set := {
  RPC_Type : NodeServiceCapability_RPC_Type
}.

Inductive NodeServiceCapability_Type : Set :=
| NodeServiceCapability_Rpc (Rpc : NodeServiceCapability_RPC).

Record NodeServiceCapability : Set := {
  Type' : NodeServiceCapability_Type
}.

Record NodeGetCapabilitiesResponse : Set := {
  Capabilities : list NodeServiceCapability
}.

(** The field of the response that the node server sets. *)
Record NodeGetInfoResponse : Set := {
  NodeId : string
}.
End csi.

(** File modes, written in octal in the source. *)
Definition mode_0750 : N := (7 * 64 + 5 * 8 + 0)%N.
Definition mode_0644 : N := (6 * 64 + 4 * 8 + 4)%N.

(** ** Calls to the collaborators *)

Inductive Call : Type :=
| PathExists (path : string)
    (* mount.PathExists(path) *)
| MkdirAll (path : string) (perm : N)
    (* os.MkdirAll(path, perm) *)
| Mount (source target fstype : string) (options : list string)
    (* n.mounter.Mount(source, target, fstype, options) *)
| Unmount (target : string)
    (* n.mounter.Unmount(target) *)
| RemoveAll (path : string)
    (* os.RemoveAll(path) *)
| WriteFile (name data : string) (perm : N)
    (* os.WriteFile(name, data, perm) *)
| GetSecretClass (key : client.ObjectKey)
    (* n.client.Get(ctx, key, secretClass) *)
| GetPod (key : client.ObjectKey)
    (* n.client.Get(ctx, key, pod) *)
| Patch (obj base : corev1.Pod)
    (* n.client.Patch(ctx, obj, client.MergeFrom(base)) *)
| GetSecretData (pod : corev1.Pod) (sel : volume.VolumeSelector)
                (class : secretsv1alpha1.SecretClass)
    (* secretbackend.NewBackend(n.client, podInfo, sel, class).GetSecretData(ctx) *)
| MapRange (m : gmap string string).
    (* the order in which "for k, v := range m" visits m *)

#[export] Instance Call_eq_dec : EqDecision Call.
Proof. solve_decision. Defined.

(** What a call returns. *)
Definition resp (c : Call) : Type :=
  match c with
  | PathExists _ => bool * option error
  | MkdirAll _ _ | Mount _ _ _ _ | Unmount _ | RemoveAll _
  | WriteFile _ _ _ | Patch _ _ => option error
  | GetSecretClass _ => result secretsv1alpha1.SecretClass
  | GetPod _ => result corev1.Pod
  | GetSecretData _ _ _ => result SecretContent
  | MapRange _ => list (string * string)
  end.

(** ** Programs *)

Inductive Prog (R : Type) : Type :=
| Ret (r : R)
| Vis (c : Call) (k : resp c → Prog R).
Arguments Ret {R} r.
Arguments Vis {R} c k.

Fixpoint bind {A B : Type} (p : Prog A) (f : A → Prog B) : Prog B :=
  match p with
  | Ret a => f a
  | Vis c k => Vis c (λ r, bind (k r) f)
  end.

#[export] Instance Prog_ret : MRet Prog := @Ret.
#[export] Instance Prog_bind : MBind Prog := λ A B f p, bind p f.

Definition call (c : Call) : Prog (resp c) := Vis c Ret.

(** ** The node server *)

Section NodeServer.

(** pkg/volume: the annotation key of the expiration time, and the
    parser of the volume context.  Both are declared outside
    internal/csi and are taken as given. *)
Context (SecretZncdataExpirationTime : string).
Context (NewVolumeSelectorFromMap : gomap → result volume.VolumeSelector).

Import csi.

Definition validateNodePublishVolumeRequest
    (request : NodePublishVolumeRequest.t) : option error :=
  if decide (NodePublishVolumeRequest.GetVolumeId request = EmptyString) then
    Some (status.Error codes.InvalidArgument "volume ID missing in request")
  else if decide (NodePublishVolumeRequest.GetTargetPath request = EmptyString) then
    Some (status.Error codes.InvalidArgument "Target path missing in request")
  else if decide (NodePublishVolumeRequest.GetVolumeCapability request = None) then
    Some (status.Error codes.InvalidArgument "Volume capability missing in request")
  else if bool_decide (NodePublishVolumeRequest.GetVolumeContext request = None)
          || bool_decide (len (NodePublishVolumeRequest.GetVolumeContext request) = 0%nat) then
    Some (status.Error codes.InvalidArgument "Volume context missing in request")
  else None.

(** mount: the target path must not exist; it is created and a tmpfs is
    mounted on it. *)
Definition mount (targetPath : string) : Prog (option error) :=
  '(exist_, err) ← call (PathExists targetPath);
  match err with
  | Some err => mret (Some (status.Error codes.Internal (Error err)))
  | None =>
      if exist_ : bool then
        let err := errorString "target path already exists" in
        mret (Some (status.Error codes.Internal (Error err)))
      else
        err ← call (MkdirAll targetPath mode_0750);
        match err with
        | Some err => mret (Some (status.Error codes.Internal (Error err)))
        | None =>
            let opts := ["noexec"; "nosuid"; "nodev"] in
            err ← call (Mount "tmpfs" targetPath "tmpfs" opts);
            match err with
            | Some err => mret (Some (status.Error codes.Internal (Error err)))
            | None => mret None
            end
        end
  end.

(** The body of the loop of writeData, over the entries in the order of
    the iteration. *)
Fixpoint writeData_range (targetPath : string) (entries : list (string * string))
  : Prog (option error) :=
  match entries with
  | [] => mret None
  | (name, content) :: entries' =>
      let fileName := filepath.Join [targetPath; name] in
      err ← call (WriteFile fileName content mode_0644);
      match err with
      | Some err => mret (Some err)
      | None => writeData_range targetPath entries'
      end
  end.

Definition writeData (targetPath : string) (data : gmap string string)
  : Prog (option error) :=
  entries ← call (MapRange data);
  writeData_range targetPath entries.

(** pod.Annotations[key] = value, on a map that is not nil. *)
Definition set_annotation (pod : corev1.Pod) (key value : string) : corev1.Pod :=
  corev1.with_Annotations pod
    (Some (<[key := value]> (default ∅ (corev1.Annotations pod)))).

(** updatePod: the pod is the caller's copy; what leaves the function is
    the error and the patch sent to the cluster. *)
Definition updatePod (pod : corev1.Pod) (expiresTime : option Z)
  : Prog (option error) :=
  let pod :=
    if decide (corev1.Annotations pod = None)
    then corev1.with_Annotations pod (Some ∅) else pod in
  let patch_base := corev1.DeepCopy pod in
  match expiresTime with
  | None => mret None
  | Some expiresTime =>
      let found := index (corev1.Annotations pod) SecretZncdataExpirationTime in
      match found with
      | Some existExpiresTimeStr =>
          if decide (existExpiresTimeStr ≠ EmptyString) then
            match strconv.ParseInt10 existExpiresTimeStr with
            | (_, Some err) => mret (Some err)
            | (existExpiresTime, None) =>
                if existExpiresTime <? expiresTime then mret None
                else
                  let pod := set_annotation pod SecretZncdataExpirationTime
                               (strconv.FormatInt10 expiresTime) in
                  call (Patch pod patch_base)
            end
          else
            let pod := set_annotation pod SecretZncdataExpirationTime
                         (strconv.FormatInt10 expiresTime) in
            call (Patch pod patch_base)
      | None =>
          let pod := set_annotation pod SecretZncdataExpirationTime
                       (strconv.FormatInt10 expiresTime) in
          call (Patch pod patch_base)
      end
  end.

Definition NodePublishVolume (request : NodePublishVolumeRequest.t)
  : Prog (result NodePublishVolumeResponse) :=
  match validateNodePublishVolumeRequest request with
  | Some err => mret (Err err)
  | None =>
  let targetPath := NodePublishVolumeRequest.GetTargetPath request in
  if decide (targetPath = EmptyString) then
    mret (Err (status.Error codes.InvalidArgument "Target path missing in request"))
  else
  match NewVolumeSelectorFromMap (NodePublishVolumeRequest.GetVolumeContext request) with
  | Err err => mret (Err (status.Error codes.InvalidArgument (Error err)))
  | Ok volumeSelector =>
  if decide (volume.Class volumeSelector = EmptyString) then
    mret (Err (status.Error codes.InvalidArgument "Secret class name missing in request"))
  else
  r ← call (GetSecretClass {| client.Namespace := EmptyString;
                              client.Name := volume.Class volumeSelector |});
  match r with
  | Err err => mret (Err (status.Error codes.Internal (Error err)))
  | Ok secretClass =>
  r ← call (GetPod {| client.Namespace := volume.PodNamespace volumeSelector;
                      client.Name := volume.Pod volumeSelector |});
  match r with
  | Err err => mret (Err (status.Error codes.Internal (Error err)))
  | Ok pod =>
  r ← call (GetSecretData pod volumeSelector secretClass);
  match r with
  | Err err => mret (Err (status.Error codes.Internal (Error err)))
  | Ok secretContent =>
  err ← mount targetPath;
  match err with
  | Some err => mret (Err err)
  | None =>
  err ← writeData targetPath (Data secretContent);
  match err with
  | Some err => mret (Err (status.Error codes.Internal (Error err)))
  | None =>
  err ← updatePod (corev1.DeepCopy pod) (ExpiresTime secretContent);
  match err with
  | Some err => mret (Err (status.Error codes.Internal (Error err)))
  | None => mret (Ok mkNodePublishVolumeResponse)
  end end end end end end end end.

Definition NodeUnpublishVolume (request : NodeUnpublishVolumeRequest.t)
  : Prog (result NodeUnpublishVolumeResponse) :=
  if decide (NodeUnpublishVolumeRequest.GetVolumeId request = EmptyString) then
    mret (Err (status.Error codes.InvalidArgument "Volume ID missing in request"))
  else if decide (NodeUnpublishVolumeRequest.GetTargetPath request = EmptyString) then
    mret (Err (status.Error codes.InvalidArgument "Target path missing in request"))
  else
    let targetPath := NodeUnpublishVolumeRequest.GetTargetPath request in
    _ ← call (Unmount targetPath);
    err ← call (RemoveAll targetPath);
    match err with
    | Some err => mret (Err (status.Error codes.Internal (Error err)))
    | None => mret (Ok mkNodeUnpublishVolumeResponse)
    end.

Definition NodeGetVolumeStats : Prog (result NodeGetVolumeStatsResponse) :=
  mret (Err (status.Error codes.Unimplemented EmptyString)).

Definition NodeExpandVolume : Prog (result NodeExpandVolumeResponse) :=
  mret (Err (status.Error codes.Unimplemented EmptyString)).

(** len(s) == 0, on a string *)
Definition is_empty (s : string) : bool := bool_decide (String.length s = 0%nat).

Definition NodeStageVolume (request : NodeStageVolumeRequest.t)
  : Prog (result NodeStageVolumeResponse) :=
  if is_empty (NodeStageVolumeRequest.GetVolumeId request) then
    mret (Err (status.Error codes.InvalidArgument "Volume ID missing in request"))
  else if is_empty (NodeStageVolumeRequest.GetStagingTargetPath request) then
    mret (Err (status.Error codes.InvalidArgument "Staging target path missing in request"))
  else if decide (NodeStageVolumeRequest.GetVolumeCapability request = None) then
    mret (Err (status.Error codes.InvalidArgument "Volume capability missing in request"))
  else mret (Ok mkNodeStageVolumeResponse).

Definition NodeUnstageVolume (request : NodeUnstageVolumeRequest.t)
  : Prog (result NodeUnstageVolumeResponse) :=
  if is_empty (NodeUnstageVolumeRequest.GetVolumeId request) then
    mret (Err (status.Error codes.InvalidArgument "Volume ID missing in request"))
  else if is_empty (NodeUnstageVolumeRequest.GetStagingTargetPath request) then
    mret (Err (status.Error codes.InvalidArgument "Staging target path missing in request"))
  else mret (Ok mkNodeUnstageVolumeResponse).

(** NodeGetCapabilities: the capabilities are appended one by one in a
    loop over the kinds that the driver announces. *)
Definition NodeGetCapabilities : Prog (result NodeGetCapabilitiesResponse) :=
  let newCapabilities cap :=
    {| Type' := NodeServiceCapability_Rpc {| RPC_Type := cap |} |} in
  let capabilities :=
    foldl (λ capabilities capability,
             (capabilities ++ [newCapabilities capability])%list)
          [] [NodeServiceCapability_RPC_STAGE_UNSTAGE_VOLUME] in
  let resp := {| Capabilities := capabilities |} in
  mret (Ok resp).

End NodeServer.

(** The NodeServer struct.  The mounter and the client are the handles
    through which the calls above are made; the node server keeps them
    as it gets them. *)
Record NodeServer (M C : Type) : Type := {
  mounter : M;
  nodeID : string;
  client : C
}.
Arguments mounter {M C} n.
Arguments nodeID {M C} n.
Arguments client {M C} n.

Definition NewNodeServer {M C : Type} (nodeId : string) (mounter : M) (client : C)
  : NodeServer M C :=
  {| nodeID := nodeId; mounter := mounter; client := client |}.

Definition NodeGetInfo {M C : Type} (n : NodeServer M C)
  : Prog (result csi.NodeGetInfoResponse) :=
  mret (Ok {| csi.NodeId := nodeID n |}).

Arguments mount : simpl never.
Arguments writeData : simpl never.
Arguments updatePod : simpl never.
Arguments NodePublishVolume : simpl never.
Arguments NodeUnpublishVolume : simpl never.

(** ** The node and the cluster

    The model that answers the calls.  A path is resolved lexically to the
    list of its elements from the root (there are no symbolic links, and a
    relative path is taken from the root).  What lies under a mounted path
    belongs to the mounted file system and goes away with it.  Every call
    other than [MapRange] can also fail for a reason outside the model
    (an I/O error, a lost connection, a conflict): [faults] gives, for each
    instant of [clock], the calls that fail and their error.  A call that
    fails leaves the node and the cluster as they are.  A directory on
    which a file system is mounted cannot be removed, nor can the root.
    The backend answers from [backend]; what it does on its own to the
    cluster is not in the model, and it does not touch the node.  The
    iteration over a map visits it in the order [range_order], which the
    Go runtime leaves open. *)

Inductive node : Type :=
| Dir (perm : N)
| File (data : string) (perm : N).

#[export] Instance node_eq_dec : EqDecision node.
Proof. solve_decision. Defined.

(** An entry of the mount table (mount.MountPoint). *)
Record MountPoint : Type := {
  Device : string;
  Path : list string;
  Type_ : string;
  Opts : list string
}.

#[export] Instance MountPoint_eq_dec : EqDecision MountPoint.
Proof. solve_decision. Defined.

Record World : Type := {
  fs : gmap (list string) node;
  mounts : list MountPoint;
  classes : gmap string secretsv1alpha1.SecretClass;
  pods : gmap (string * string) corev1.Pod;
  backend : corev1.Pod → volume.VolumeSelector → secretsv1alpha1.SecretClass
            → result SecretContent;
  range_order : gmap string string → list (string * string);
  faults : nat → Call → option error;
  clock : nat;
  log : list Call
}.

Definition resolve (path : string) : list string :=
  filepath.clean_elems true (filepath.split "/" path) [].

Definition parent (p : list string) : list string := take (length p - 1) p.

Definition is_dir (f : gmap (list string) node) (p : list string) : bool :=
  match p with
  | [] => true
  | _ => match f !! p with
         | Some (Dir _) => true
         | _ => false
         end
  end.

Definition path_exists (f : gmap (list string) node) (p : list string) : bool :=
  match p with
  | [] => true
  | _ => bool_decide (is_Some (f !! p))
  end.

(** mkdir -p: the directories from [done] down along [todo]; [None] when
    an element on the way is a file. *)
Fixpoint mkdir_all (f : gmap (list string) node) (done todo : list string) (perm : N)
  : option (gmap (list string) node) :=
  match todo with
  | [] => Some f
  | x :: todo' =>
      let d := (done ++ [x])%list in
      match f !! d with
      | Some (File _ _) => None
      | Some (Dir _) => mkdir_all f d todo' perm
      | None => mkdir_all (<[d := Dir perm]> f) d todo' perm
      end
  end.

(** rm -r: [p] and what lies under it. *)
Definition remove_all (f : gmap (list string) node) (p : list string)
  : gmap (list string) node :=
  filter (λ kv, ¬ p `prefix_of` kv.1) f.

(** What lies strictly under [p]. *)
Definition remove_under (f : gmap (list string) node) (p : list string)
  : gmap (list string) node :=
  filter (λ kv, ¬ (p `prefix_of` kv.1 ∧ kv.1 ≠ p)) f.

Definition mounted_at (ms : list MountPoint) (p : list string) : bool :=
  bool_decide (Exists (λ m, Path m = p) ms).

Definition mounted_under (ms : list MountPoint) (p : list string) : bool :=
  bool_decide (Exists (λ m, p `prefix_of` Path m) ms).

(** The most recent mount on [p] is taken off the table. *)
Fixpoint unmount_first (ms : list MountPoint) (p : list string) : list MountPoint :=
  match ms with
  | [] => []
  | m :: ms' => if decide (Path m = p) then ms' else m :: unmount_first ms' p
  end.

(** The JSON merge patch that client.MergeFrom(base) computes for [obj],
    on the annotations: a changed or added key carries its value, a
    removed key carries null. *)
Definition diff_annotations (base obj : gmap string string) : gmap string (option string) :=
  merge (λ b o, match o with
                | Some v => if decide (b = Some v) then None else Some (Some v)
                | None => match b with
                          | Some _ => Some None
                          | None => None
                          end
                end) base obj.

Definition apply_annotations (patch : gmap string (option string)) (cur : gmap string string)
  : gmap string string :=
  merge (λ p c, match p with
                | Some (Some v) => Some v
                | Some None => None
                | None => c
                end) patch cur.

Definition patch_pod (obj base cur : corev1.Pod) : corev1.Pod :=
  let d := diff_annotations (default ∅ (corev1.Annotations base))
                            (default ∅ (corev1.Annotations obj)) in
  if decide (d = ∅) then cur
  else corev1.with_Annotations cur
         (Some (apply_annotations d (default ∅ (corev1.Annotations cur)))).

Definition set_fs (w : World) (f : gmap (list string) node) : World :=
  {| fs := f; mounts := mounts w; classes := classes w; pods := pods w;
     backend := backend w; range_order := range_order w; faults := faults w;
     clock := clock w; log := log w |}.

Definition set_mounts (w : World) (ms : list MountPoint) : World :=
  {| fs := fs w; mounts := ms; classes := classes w; pods := pods w;
     backend := backend w; range_order := range_order w; faults := faults w;
     clock := clock w; log := log w |}.

Definition set_pods (w : World) (ps : gmap (string * string) corev1.Pod) : World :=
  {| fs := fs w; mounts := mounts w; classes := classes w; pods := ps;
     backend := backend w; range_order := range_order w; faults := faults w;
     clock := clock w; log := log w |}.

(** A call is recorded and the clock advances. *)
Definition tick (c : Call) (w : World) : World :=
  {| fs := fs w; mounts := mounts w; classes := classes w; pods := pods w;
     backend := backend w; range_order := range_order w; faults := faults w;
     clock := S (clock w); log := (log w ++ [c])%list |}.

Definition not_found (what name : string) : error :=
  APIStatusError StatusReasonNotFound (what ++ " " ++ dquote ++ name ++ dquote ++ " not found").

(** The answer of the model to a call that is not made to fail. *)
Definition answer (c : Call) (w : World) : resp c * World :=
  match c return resp c * World with
  | PathExists path => ((path_exists (fs w) (resolve path), None), w)
  | MkdirAll path perm =>
      match mkdir_all (fs w) [] (resolve path) perm with
      | Some f => (None, set_fs w f)
      | None => (Some (SysError ("mkdir " ++ path ++ ": not a directory")), w)
      end
  | Mount source target fstype options =>
      if is_dir (fs w) (resolve target) then
        (None, set_mounts w ({| Device := source; Path := resolve target;
                                Type_ := fstype; Opts := options |} :: mounts w))
      else (Some (SysError ("mount " ++ target ++ ": no such directory")), w)
  | Unmount target =>
      if mounted_at (mounts w) (resolve target) then
        (None, set_mounts (set_fs w (remove_under (fs w) (resolve target)))
                          (unmount_first (mounts w) (resolve target)))
      else (Some (SysError ("umount " ++ target ++ ": not mounted")), w)
  | RemoveAll path =>
      if bool_decide (resolve path = []) || mounted_under (mounts w) (resolve path) then
        (Some (SysError ("unlinkat " ++ path ++ ": device or resource busy")), w)
      else (None, set_fs w (remove_all (fs w) (resolve path)))
  | WriteFile name data perm =>
      let p := resolve name in
      if negb (is_dir (fs w) (parent p)) then
        (Some (SysError ("open " ++ name ++ ": no such file or directory")), w)
      else
        match p, fs w !! p with
        | [], _ | _, Some (Dir _) =>
            (Some (SysError ("open " ++ name ++ ": is a directory")), w)
        | _, Some (File _ perm') => (None, set_fs w (<[p := File data perm']> (fs w)))
        | _, None => (None, set_fs w (<[p := File data perm]> (fs w)))
        end
  | GetSecretClass key =>
      match classes w !! client.Name key with
      | Some class => (Ok class, w)
      | None => (Err (not_found "secretclasses.secrets.zncdata.dev" (client.Name key)), w)
      end
  | GetPod key =>
      match pods w !! (client.Namespace key, client.Name key) with
      | Some pod => (Ok pod, w)
      | None => (Err (not_found "pods" (client.Name key)), w)
      end
  | Patch obj base =>
      let k := (corev1.Namespace obj, corev1.Name obj) in
      match pods w !! k with
      | Some cur => (None, set_pods w (<[k := patch_pod obj base cur]> (pods w)))
      | None => (Some (not_found "pods" (corev1.Name obj)), w)
      end
  | GetSecretData pod sel class => (backend w pod sel class, w)
  | MapRange m => (range_order w m, w)
  end.

(** The answer of a call that is made to fail with [e]; the iteration
    over a map cannot fail. *)
Definition refuse (c : Call) (e : error) : option (resp c) :=
  match c return option (resp c) with
  | PathExists _ => Some (false, Some e)
  | MkdirAll _ _ | Mount _ _ _ _ | Unmount _ | RemoveAll _
  | WriteFile _ _ _ | Patch _ _ => Some (Some e)
  | GetSecretClass _ => Some (Err e)
  | GetPod _ => Some (Err e)
  | GetSecretData _ _ _ => Some (Err e)
  | MapRange _ => None
  end.

Definition handle (c : Call) (w : World) : resp c * World :=
  match faults w (clock w) c with
  | Some e =>
      match refuse c e with
      | Some r => (r, tick c w)
      | None => answer c (tick c w)
      end
  | None => answer c (tick c w)
  end.

(** Running a program. *)
Fixpoint exec {R : Type} (p : Prog R) (w : World) : R * World :=
  match p with
  | Ret r => (r, w)
  | Vis c k => let '(a, w') := handle c w in exec (k a) w'
  end.

(** ** Executions as traces

    An execution of a program, whatever answers it: the calls it made
    with the answer to each, and its result. *)

Definition Event : Type := { c : Call & resp c }.

Definition ev (c : Call) (a : resp c) : Event := existT c a.

Fixpoint runs {R : Type} (p : Prog R) (t : list Event) (r : R) : Prop :=
  match p with
  | Ret r' => t = [] ∧ r = r'
  | Vis c k => ∃ a t', t = ev c a :: t' ∧ runs (k a) t' r
  end.

Definition calls (t : list Event) : list Call := map (λ e : Event, projT1 e) t.

(** The trace is one that the model produces from [w], ending in [w']. *)
Fixpoint history (w : World) (t : list Event) (w' : World) : Prop :=
  match t with
  | [] => w' = w
  | e :: t' => (handle (projT1 e) w).1 = projT2 e
               ∧ history (handle (projT1 e) w).2 t' w'
  end.

(** The calls that change the file system or the mount table, those that
    change the mount table, and those that write to the cluster. *)
Definition node_write (c : Call) : bool :=
  match c with
  | MkdirAll _ _ | Mount _ _ _ _ | Unmount _ | RemoveAll _ | WriteFile _ _ _ => true
  | _ => false
  end.

Definition mount_write (c : Call) : bool :=
  match c with
  | Mount _ _ _ _ | Unmount _ => true
  | _ => false
  end.

Definition cluster_write (c : Call) : bool :=
  match c with
  | Patch _ _ => true
  | _ => false
  end.

(** The call was answered without an error. *)
Definition no_error {A : Type} (a : result A) : bool :=
  match a with
  | Ok _ => true
  | Err _ => false
  end.

Definition succeeded (e : Event) : bool :=
  match projT1 e as c return resp c → bool with
  | PathExists _ => λ a, bool_decide (a.2 = None)
  | MkdirAll _ _ | Mount _ _ _ _ | Unmount _ | RemoveAll _
  | WriteFile _ _ _ | Patch _ _ => λ a, bool_decide (a = None)
  | GetSecretClass _ => no_error
  | GetPod _ => no_error
  | GetSecretData _ _ _ => no_error
  | MapRange _ => λ _, true
  end (projT2 e).

(** The trace of the execution of a program by the model. *)
Fixpoint trace_in {R : Type} (p : Prog R) (w : World) : list Event :=
  match p with
  | Ret _ => []
  | Vis c k => let '(a, w') := handle c w in ev c a :: trace_in (k a) w'
  end.

(** The answers that matter to the pipeline of a publish. *)
Definition class_answer (e : Event) : option (result secretsv1alpha1.SecretClass) :=
  match projT1 e as c return resp c → option (result secretsv1alpha1.SecretClass) with
  | GetSecretClass _ => λ a, Some a
  | _ => λ _, None
  end (projT2 e).

Definition pod_answer (e : Event) : option (result corev1.Pod) :=
  match projT1 e as c return resp c → option (result corev1.Pod) with
  | GetPod _ => λ a, Some a
  | _ => λ _, None
  end (projT2 e).

Definition data_answer (e : Event) : option (result SecretContent) :=
  match projT1 e as c return resp c → option (result SecretContent) with
  | GetSecretData _ _ _ => λ a, Some a
  | _ => λ _, None
  end (projT2 e).

Definition exists_answer (e : Event) : option (bool * option error) :=
  match projT1 e as c return resp c → option (bool * option error) with
  | PathExists _ => λ a, Some a
  | _ => λ _, None
  end (projT2 e).

(** ** Sample data

    The annotation key and a parser of the volume context in the manner
    of pkg/volume, for the examples: the class comes from the annotation
    of the volume claim, the pod from the keys that the kubelet adds. *)

Definition sample_key : string := "secrets.zncdata.dev/expirationTime".

Definition sample_selector (m : gomap) : result volume.VolumeSelector :=
  Ok {| volume.Class := default EmptyString (index m "secrets.zncdata.dev/class");
        volume.Pod := default EmptyString (index m "csi.storage.k8s.io/pod.name");
        volume.PodNamespace :=
          default EmptyString (index m "csi.storage.k8s.io/pod.namespace") |}.

Definition sample_context : gmap string string :=
  {[ "secrets.zncdata.dev/class" := "tls";
     "csi.storage.k8s.io/pod.name" := "web";
     "csi.storage.k8s.io/pod.namespace" := "default" ]}.

Definition sample_target : string := "/var/lib/kubelet/pods/1/mount".

Definition sample_request : csi.NodePublishVolumeRequest.t :=
  {| csi.NodePublishVolumeRequest.GetVolumeId := "v1";
     csi.NodePublishVolumeRequest.GetTargetPath := sample_target;
     csi.NodePublishVolumeRequest.GetVolumeCapability := Some csi.VolumeCapability_Mount;
     csi.NodePublishVolumeRequest.GetVolumeContext := Some sample_context |}.

Definition sample_unpublish : csi.NodeUnpublishVolumeRequest.t :=
  {| csi.NodeUnpublishVolumeRequest.GetVolumeId := "v1";
     csi.NodeUnpublishVolumeRequest.GetTargetPath := sample_target |}.

Definition sample_pod (annotations : gomap) : corev1.Pod :=
  {| corev1.Name := "web"; corev1.Namespace := "default";
     corev1.Annotations := annotations |}.

Definition sample_class : secretsv1alpha1.SecretClass :=
  {| secretsv1alpha1.Name := "tls"; secretsv1alpha1.Spec := "autoTls" |}.

Definition sample_content (expires : option Z) : SecretContent :=
  {| Data := {[ "a" := "x"; "b" := "y" ]}; ExpiresTime := expires |}.

(** A node with /var and nothing mounted, a cluster with the class and
    the pod, a backend that returns the two files, no failure. *)
Definition sample_world (annotations : gomap) (expires : option Z) : World :=
  {| fs := {[ ["var"] := Dir mode_0750 ]};
     mounts := [];
     classes := {[ "tls" := sample_class ]};
     pods := {[ ("default", "web") := sample_pod annotations ]};
     backend := λ _ _ _, Ok (sample_content expires);
     range_order := map_to_list;
     faults := λ _ _, None;
     clock := 0;
     log := [] |}.

(** The sample world with a directory already at the target path. *)
Definition occupied_world : World :=
  set_fs (sample_world None (Some 900))
         {[ ["var"] := Dir mode_0750; resolve sample_target := Dir mode_0750 ]}.

(** The sample world with no secret class in the cluster. *)
Definition classless_world : World :=
  {| fs := {[ ["var"] := Dir mode_0750 ]};
     mounts := [];
     classes := ∅;
     pods := {[ ("default", "web") := sample_pod None ]};
     backend := λ _ _ _, Ok (sample_content None);
     range_order := map_to_list;
     faults := λ _ _, None;
     clock := 0;
     log := [] |}.

(** The sample world with a backend that names a file outside of the
    volume. *)
Definition escaping_world : World :=
  {| fs := {[ ["var"] := Dir mode_0750 ]};
     mounts := [];
     classes := {[ "tls" := sample_class ]};
     pods := {[ ("default", "web") := sample_pod None ]};
     backend := λ _ _ _, Ok {| Data := {[ "../escape" := "body" ]};
                                ExpiresTime := None |};
     range_order := map_to_list;
     faults := λ _ _, None;
     clock := 0;
     log := [] |}.

(** A request whose volume context names no secret class. *)
Definition classless_request : csi.NodePublishVolumeRequest.t :=
  {| csi.NodePublishVolumeRequest.GetVolumeId := "v1";
     csi.NodePublishVolumeRequest.GetTargetPath := sample_target;
     csi.NodePublishVolumeRequest.GetVolumeCapability := Some csi.VolumeCapability_Mount;
     csi.NodePublishVolumeRequest.GetVolumeContext :=
       Some {[ "csi.storage.k8s.io/pod.name" := "web";
               "csi.storage.k8s.io/pod.namespace" := "default" ]} |}.

(** The sample world with a mounter that fails. *)
Definition broken_mounter_world : World :=
  {| fs := {[ ["var"] := Dir mode_0750 ]};
     mounts := [];
     classes := {[ "tls" := sample_class ]};
     pods := {[ ("default", "web") := sample_pod None ]};
     backend := λ _ _ _, Ok (sample_content None);
     range_order := map_to_list;
     faults := λ _ c, match c with
                      | Mount _ _ _ _ => Some (SysError "mount failed: exit status 32")
                      | _ => None
                      end;
     clock := 0;
     log := [] |}.

(** The sample world with a cluster that refuses the patch. *)
Definition broken_client_world : World :=
  {| fs := {[ ["var"] := Dir mode_0750 ]};
     mounts := [];
     classes := {[ "tls" := sample_class ]};
     pods := {[ ("default", "web") := sample_pod None ]};
     backend := λ _ _ _, Ok (sample_content (Some 900));
     range_order := map_to_list;
     faults := λ _ c, match c with
                      | Patch _ _ =>
                          Some (APIStatusError StatusReasonConflict
                                  "the object has been modified")
                      | _ => None
                      end;
     clock := 0;
     log := [] |}.


(** The answer to the first call of a kind in a trace. *)
Definition first_answer {A : Type} (f : Event → option A) (t : list Event) : option A :=
  head (omap f t).

(** ** The executions of each function, by exit point *)

Definition hardening : list string := ["noexec"; "nosuid"; "nodev"].

Definition internal (e : error) : error := status.Error codes.Internal (Error e).

(** The executions of mount. *)
Inductive mount_run (targetPath : string) : list Event → option error → Prop :=
| mount_stat_failed (b : bool) (e : error) :
    mount_run targetPath [ev (PathExists targetPath) (b, Some e)] (Some (internal e))
| mount_target_exists :
    mount_run targetPath [ev (PathExists targetPath) (true, None)]
      (Some (internal (errorString "target path already exists")))
| mount_mkdir_failed (e : error) :
    mount_run targetPath
      [ev (PathExists targetPath) (false, None);
       ev (MkdirAll targetPath mode_0750) (Some e)]
      (Some (internal e))
| mount_mount_failed (e : error) :
    mount_run targetPath
      [ev (PathExists targetPath) (false, None);
       ev (MkdirAll targetPath mode_0750) None;
       ev (Mount "tmpfs" targetPath "tmpfs" hardening) (Some e)]
      (Some (internal e))
| mount_done :
    mount_run targetPath
      [ev (PathExists targetPath) (false, None);
       ev (MkdirAll targetPath mode_0750) None;
       ev (Mount "tmpfs" targetPath "tmpfs" hardening) None]
      None.

(** The write of one entry of the data, and its event. *)
Definition write_of (targetPath : string) (entry : string * string) : Call :=
  WriteFile (filepath.Join [targetPath; entry.1]) entry.2 mode_0644.

Definition written (targetPath : string) (entry : string * string) : Event :=
  ev (write_of targetPath entry) None.

(** The executions of the loop of writeData: every entry written, or the
    entries before the first write that failed. *)
Inductive write_run (targetPath : string) (entries : list (string * string))
  : list Event → option error → Prop :=
| write_all :
    write_run targetPath entries (map (written targetPath) entries) None
| write_failed (before after : list (string * string)) (entry : string * string)
               (e : error) :
    entries = (before ++ entry :: after)%list →
    write_run targetPath entries
      (map (written targetPath) before ++ [ev (write_of targetPath entry) (Some e)])%list
      (Some e).

(** Where the model puts the file of an entry. *)
Definition target_of (targetPath : string) (entry : string * string) : list string :=
  resolve (filepath.Join [targetPath; entry.1]).

(** No other entry of the list is written to the same place with another
    content. *)
Definition settled (targetPath : string) (entries : list (string * string))
    (entry : string * string) : Prop :=
  ∀ entry', entry' ∈ entries →
            target_of targetPath entry' = target_of targetPath entry →
            entry'.2 = entry.2.

(** The pod as updatePod holds it after the nil check, and the pod that it
    sends. *)
Definition with_map (pod : corev1.Pod) : corev1.Pod :=
  if decide (corev1.Annotations pod = None)
  then corev1.with_Annotations pod (Some ∅) else pod.

Definition with_expiry (key : string) (pod : corev1.Pod) (expiresTime : Z) : corev1.Pod :=
  corev1.with_Annotations (with_map pod)
    (Some (<[key := strconv.FormatInt10 expiresTime]>
             (default ∅ (corev1.Annotations (with_map pod))))).

(** The executions of updatePod: nothing is sent, or one patch. *)
Inductive update_run (key : string) (pod : corev1.Pod) (expiresTime : option Z)
  : list Event → option error → Prop :=
| update_skipped (err : option error) :
    update_run key pod expiresTime [] err
| update_patched (new : Z) (err : option error) :
    expiresTime = Some new →
    update_run key pod expiresTime
      [ev (Patch (with_expiry key pod new) (with_map pod)) err] err.

(** What the model does with that patch when the cluster holds the pod
    that was read: the call fails exactly when it is made to fail; when it
    succeeds the annotation of the pod in the cluster is the decimal
    string of the new time; when it fails the cluster is unchanged. *)
Definition records_expiry (key : string) (pod : corev1.Pod) (new : Z) (w : World) : Prop :=
  let c := Patch (with_expiry key pod new) (with_map pod) in
  let k := (corev1.Namespace pod, corev1.Name pod) in
  let '(err, w') := exec (updatePod key pod (Some new)) w in
  log w' = (log w ++ [c])%list
  ∧ err = faults w (clock w) c
  ∧ match err with
    | None =>
        ∃ cur, pods w' !! k = Some cur
               ∧ index (corev1.Annotations cur) key = Some (strconv.FormatInt10 new)
    | Some _ => pods w' = pods w
    end.

(** The keys under which NodePublishVolume reads the class and the pod. *)
Definition class_key (vs : volume.VolumeSelector) : client.ObjectKey :=
  {| client.Namespace := EmptyString; client.Name := volume.Class vs |}.

Definition pod_key (vs : volume.VolumeSelector) : client.ObjectKey :=
  {| client.Namespace := volume.PodNamespace vs; client.Name := volume.Pod vs |}.

(** The request passed the validation and its context gave a selector
    with a class. *)
Definition selected (sel : gomap → result volume.VolumeSelector)
    (req : csi.NodePublishVolumeRequest.t) (vs : volume.VolumeSelector) : Prop :=
  validateNodePublishVolumeRequest req = None
  ∧ csi.NodePublishVolumeRequest.GetTargetPath req ≠ EmptyString
  ∧ sel (csi.NodePublishVolumeRequest.GetVolumeContext req) = Ok vs
  ∧ volume.Class vs ≠ EmptyString.

(** The three reads that precede the mount, all answered. *)
Definition resolved (vs : volume.VolumeSelector) (class : secretsv1alpha1.SecretClass)
    (pod : corev1.Pod) (content : SecretContent) : list Event :=
  [ev (GetSecretClass (class_key vs)) (Ok class);
   ev (GetPod (pod_key vs)) (Ok pod);
   ev (GetSecretData pod vs class) (Ok content)].

(** The executions of NodePublishVolume, one constructor for each return
    statement (the first stands for the four rejections). *)
Inductive publish_run (key : string) (sel : gomap → result volume.VolumeSelector)
    (req : csi.NodePublishVolumeRequest.t)
  : list Event → result csi.NodePublishVolumeResponse → Prop :=
| publish_rejected (msg : string) :
    (∀ vs, ¬ selected sel req vs) →
    publish_run key sel req [] (Err (status.Error codes.InvalidArgument msg))
| publish_class_failed vs e :
    selected sel req vs →
    publish_run key sel req
      [ev (GetSecretClass (class_key vs)) (Err e)] (Err (internal e))
| publish_pod_failed vs class e :
    selected sel req vs →
    publish_run key sel req
      [ev (GetSecretClass (class_key vs)) (Ok class);
       ev (GetPod (pod_key vs)) (Err e)] (Err (internal e))
| publish_backend_failed vs class pod e :
    selected sel req vs →
    publish_run key sel req
      [ev (GetSecretClass (class_key vs)) (Ok class);
       ev (GetPod (pod_key vs)) (Ok pod);
       ev (GetSecretData pod vs class) (Err e)] (Err (internal e))
| publish_mount_failed vs class pod content tm e :
    selected sel req vs →
    mount_run (csi.NodePublishVolumeRequest.GetTargetPath req) tm (Some e) →
    publish_run key sel req (resolved vs class pod content ++ tm)%list (Err e)
| publish_write_failed vs class pod content tm entries tw e :
    selected sel req vs →
    mount_run (csi.NodePublishVolumeRequest.GetTargetPath req) tm None →
    write_run (csi.NodePublishVolumeRequest.GetTargetPath req) entries tw (Some e) →
    publish_run key sel req
      (resolved vs class pod content ++ tm
         ++ ev (MapRange (Data content)) entries :: tw)%list
      (Err (internal e))
| publish_update_failed vs class pod content tm entries tw tu e :
    selected sel req vs →
    mount_run (csi.NodePublishVolumeRequest.GetTargetPath req) tm None →
    write_run (csi.NodePublishVolumeRequest.GetTargetPath req) entries tw None →
    runs (updatePod key (corev1.DeepCopy pod) (ExpiresTime content)) tu (Some e) →
    publish_run key sel req
      (resolved vs class pod content ++ tm
         ++ ev (MapRange (Data content)) entries :: tw ++ tu)%list
      (Err (internal e))
| publish_done vs class pod content tm entries tw tu :
    selected sel req vs →
    mount_run (csi.NodePublishVolumeRequest.GetTargetPath req) tm None →
    write_run (csi.NodePublishVolumeRequest.GetTargetPath req) entries tw None →
    runs (updatePod key (corev1.DeepCopy pod) (ExpiresTime content)) tu None →
    publish_run key sel req
      (resolved vs class pod content ++ tm
         ++ ev (MapRange (Data content)) entries :: tw ++ tu)%list
      (Ok csi.mkNodePublishVolumeResponse).

(** ** Names, removals and reconciliations

    A plain file name: one element, other than "." and "..". *)
Definition plain (name : string) : Prop :=
  filepath.real name ∧ filepath.split "/" name = [name].

(** The calls that take something away from the node. *)
Definition removal (c : Call) : bool :=
  match c with
  | Unmount _ | RemoveAll _ => true
  | _ => false
  end.

(** The expiration time that the cluster records for a pod, when its
    annotation holds one. *)
Definition recorded_expiry (key : string) (w : World) (k : string * string) : option Z :=
  pod ← pods w !! k;
  s ← index (corev1.Annotations pod) key;
  match strconv.ParseInt10 s with
  | (v, None) => Some v
  | (_, Some _) => None
  end.

(** The entry of the mount table that a publish adds. *)
Definition tmpfs_at (targetPath : string) : MountPoint :=
  {| Device := "tmpfs"; Path := resolve targetPath; Type_ := "tmpfs";
     Opts := ["noexec"; "nosuid"; "nodev"] |}.

(** ** The library functions on sample inputs *)

Example ParseInt10_1000 : strconv.ParseInt10 "1000" = (1000, None).
Proof. reflexivity. Qed.
Example ParseInt10_plus : strconv.ParseInt10 "+007" = (7, None).
Proof. reflexivity. Qed.
Example ParseInt10_min :
  strconv.ParseInt10 "-9223372036854775808" = (-9223372036854775808, None).
Proof. vm_compute. reflexivity. Qed.
Example ParseInt10_max1 :
  strconv.ParseInt10 "9223372036854775808"
  = (9223372036854775807, Some (NumError "ParseInt" "9223372036854775808" ErrRange)).
Proof. vm_compute. reflexivity. Qed.
Example ParseInt10_huge :
  snd (strconv.ParseInt10 "99999999999999999999999")
  = Some (NumError "ParseInt" "99999999999999999999999" ErrRange).
Proof. vm_compute. reflexivity. Qed.
Example ParseInt10_bad : strconv.ParseInt10 "12a"
  = (0, Some (NumError "ParseInt" "12a" ErrSyntax)).
Proof. reflexivity. Qed.
Example ParseInt10_sign_only : strconv.ParseInt10 "-"
  = (0, Some (NumError "ParseInt" "-" ErrSyntax)).
Proof. reflexivity. Qed.
Example FormatInt10_neg : strconv.FormatInt10 (-42) = "-42".
Proof. reflexivity. Qed.
Example FormatInt10_zero : strconv.FormatInt10 0 = "0".
Proof. reflexivity. Qed.
Example Clean_dots : filepath.Clean "/a/./b//../c/" = "/a/c".
Proof. reflexivity. Qed.
Example Clean_rel_up : filepath.Clean "a/../../b" = "../b".
Proof. reflexivity. Qed.
Example Clean_root_up : filepath.Clean "/../a" = "/a".
Proof. reflexivity. Qed.
Example Clean_empty : filepath.Clean EmptyString = ".".
Proof. reflexivity. Qed.
Example Join_plain : filepath.Join ["/var/lib/pods/v"; "tls.crt"] = "/var/lib/pods/v/tls.crt".
Proof. reflexivity. Qed.
Example Join_up : filepath.Join ["/t"; "../escape"] = "/escape".
Proof. reflexivity. Qed.
Example Join_empty_head : filepath.Join [EmptyString; "a"] = "a".
Proof. reflexivity. Qed.

(** ** What FormatInt writes, ParseInt reads *)

Module strconv_facts.
Import strconv.

Lemma decimal_value_ge (d : Decimal.uint) (n : Z) :
  0 ≤ n → n ≤ decimal_value d n.
Proof.
  revert n. induction d as [| d IH | d IH | d IH | d IH | d IH | d IH | d IH | d IH
                            | d IH | d IH]; intros n Hn; simpl; [lia | ..];
    (etrans; [| apply IH]; lia).
Qed.

Lemma ParseUint_loop_digits (d : Decimal.uint) (n : Z) :
  0 ≤ n → decimal_value d n ≤ maxUint64 →
  ParseUint_loop 10 (maxUint64 / 10 + 1) maxUint64 (NilEmpty.string_of_uint d) n
  = (decimal_value d n, None).
Proof.
  change (maxUint64 / 10 + 1) with 1844674407370955162.
  change maxUint64 with 18446744073709551615.
  revert n. induction d as [| d IH | d IH | d IH | d IH | d IH | d IH | d IH | d IH
                            | d IH | d IH]; intros n Hn Hmax; [done | ..];
    cbn [NilEmpty.string_of_uint ParseUint_loop decimal_value] in Hmax |- *;
    match goal with
    | |- context [digit_val ?c] =>
        let v := eval vm_compute in (digit_val c) in
        change (digit_val c) with v; cbv iota beta
    end;
    match goal with
    | H : decimal_value d ?m ≤ _ |- _ =>
        pose proof (decimal_value_ge d m ltac:(lia)) as Hge
    end;
    rewrite (proj2 (Z.leb_gt _ _)) by lia;
    rewrite (proj2 (Z.leb_gt 1844674407370955162 n)) by lia;
    change (2 ^ 64) with 18446744073709551616;
    rewrite (Z.mod_small (n * 10)) by lia;
    rewrite Z.mod_small by lia;
    rewrite (proj2 (Z.ltb_ge _ _)) by lia;
    rewrite (proj2 (Z.ltb_ge _ _)) by lia;
    cbn [orb];
    match goal with
    | |- ParseUint_loop _ _ _ _ ?m = (decimal_value d ?m', None) =>
        replace m with m' by lia
    end;
    apply IH; lia.
Qed.

Lemma decimal_value_acc (d : Decimal.uint) (acc : positive) :
  decimal_value d (Z.pos acc) = Z.pos (Pos.of_uint_acc d acc).
Proof.
  revert acc. induction d as [| d IH | d IH | d IH | d IH | d IH | d IH | d IH | d IH
                              | d IH | d IH]; intros acc; simpl; [done | ..];
    rewrite <- IH; f_equal; lia.
Qed.

Lemma decimal_value_of_uint (d : Decimal.uint) :
  decimal_value d 0 = Z.of_N (Pos.of_uint d).
Proof.
  induction d as [| d IH | d IH | d IH | d IH | d IH | d IH | d IH | d IH
                  | d IH | d IH]; simpl; [done | done | ..];
    apply (decimal_value_acc d).
Qed.

Lemma decimal_value_to_uint (p : positive) :
  decimal_value (Pos.to_uint p) 0 = Z.pos p.
Proof. by rewrite decimal_value_of_uint, Unsigned.of_to. Qed.

(** The digits of a positive number: a string that is not empty and
    starts with a digit. *)
Lemma digits_head (p : positive) :
  ∃ a s, NilEmpty.string_of_uint (Pos.to_uint p) = String a s
         ∧ a ≠ "+"%char ∧ a ≠ "-"%char.
Proof.
  pose proof (Unsigned.to_uint_nonnil p) as Hnil.
  destruct (Pos.to_uint p); [done | ..]; simpl; eexists _, _; done.
Qed.

Lemma ParseUint10_digits (p : positive) :
  Z.pos p ≤ maxUint64 →
  ParseUint10 (NilEmpty.string_of_uint (Pos.to_uint p)) = (Z.pos p, None).
Proof.
  intros Hp. unfold ParseUint10.
  destruct (digits_head p) as (a & s & Hs & _).
  rewrite decide_False by (by rewrite Hs).
  rewrite ParseUint_loop_digits; rewrite ?decimal_value_to_uint; done.
Qed.

Lemma ParseInt10_unsigned (s : string) (a : ascii) (s' : string) (un : Z) :
  s = String a s' → a ≠ "+"%char → a ≠ "-"%char →
  ParseUint10 s = (un, None) → un < 2 ^ 63 →
  ParseInt10 s = (un, None).
Proof.
  intros -> Hplus Hminus Hu Hlt. unfold ParseInt10.
  rewrite !decide_False by done. rewrite Hu. simpl negb. simpl andb.
  by rewrite (proj2 (Z.leb_gt _ _)) by lia.
Qed.

Lemma ParseInt10_negative (s : string) (un : Z) :
  ParseUint10 s = (un, None) → un ≤ 2 ^ 63 →
  ParseInt10 (String "-" s) = (- un, None).
Proof.
  intros Hu Hle. unfold ParseInt10.
  rewrite decide_False by done. rewrite decide_True by done.
  rewrite Hu. simpl negb. simpl andb.
  by rewrite (proj2 (Z.ltb_ge _ _)) by lia.
Qed.

(** The annotation that updatePod writes is one that it reads back. *)
Lemma ParseInt10_FormatInt10 (i : Z) :
  - 2 ^ 63 ≤ i < 2 ^ 63 → ParseInt10 (FormatInt10 i) = (i, None).
Proof.
  intros Hi. unfold FormatInt10.
  assert (∀ p, NilZero.string_of_uint (Pos.to_uint p)
               = NilEmpty.string_of_uint (Pos.to_uint p)) as Hnz.
  { intros p. pose proof (Unsigned.to_uint_nonnil p) as Hnil.
    by destruct (Pos.to_uint p). }
  assert (2 ^ 63 ≤ maxUint64) as Hmax by done.
  destruct i as [| p | p]; [done | |]; simpl Z.to_int;
    unfold NilZero.string_of_int; rewrite Hnz.
  - destruct (digits_head p) as (a & s & Hs & Hplus & Hminus).
    eapply ParseInt10_unsigned; try done; [| lia].
    apply ParseUint10_digits. lia.
  - change (Z.neg p) with (- Z.pos p).
    apply ParseInt10_negative; [| lia].
    apply ParseUint10_digits. lia.
Qed.

End strconv_facts.

(** ** Basic facts about programs, traces and the model *)

Lemma exec_bind {A B : Type} (p : Prog A) (f : A → Prog B) (w : World) :
  exec (bind p f) w = exec (f (exec p w).1) (exec p w).2.
Proof.
  revert w. induction p as [a | c k IH]; intros w; simpl; [done |].
  destruct (handle c w) as [a w']. apply IH.
Qed.

Lemma exec_mbind {A B : Type} (p : Prog A) (f : A → Prog B) (w : World) :
  exec (p ≫= f) w = exec (f (exec p w).1) (exec p w).2.
Proof. apply exec_bind. Qed.

Lemma exec_call (c : Call) (w : World) : exec (call c) w = handle c w.
Proof. unfold call; simpl. by destruct (handle c w). Qed.

Lemma runs_bind {A B : Type} (p : Prog A) (f : A → Prog B) (t : list Event) (r : B) :
  runs (bind p f) t r ↔ ∃ t1 t2 a, t = (t1 ++ t2)%list ∧ runs p t1 a ∧ runs (f a) t2 r.
Proof.
  revert t. induction p as [a | c k IH]; intros t; simpl.
  - split.
    + intros H. by exists [], t, a.
    + intros (t1 & t2 & a' & -> & [-> ->] & H). done.
  - split.
    + intros (a & t' & -> & H). apply IH in H as (t1 & t2 & b & -> & H1 & H2).
      exists (ev c a :: t1), t2, b. split; [done |]. split; [| done].
      by exists a, t1.
    + intros (t1 & t2 & b & -> & (a & t' & -> & H1) & H2).
      exists a, (t' ++ t2)%list. split; [done |]. apply IH. by exists t', t2, b.
Qed.

Lemma runs_mbind {A B : Type} (p : Prog A) (f : A → Prog B) (t : list Event) (r : B) :
  runs (p ≫= f) t r ↔ ∃ t1 t2 a, t = (t1 ++ t2)%list ∧ runs p t1 a ∧ runs (f a) t2 r.
Proof. apply runs_bind. Qed.

Lemma runs_call (c : Call) (t : list Event) (a : resp c) :
  runs (call c) t a ↔ t = [ev c a].
Proof.
  unfold call; simpl. split.
  - by intros (a' & t' & -> & -> & ->).
  - intros ->. by exists a, [].
Qed.

Lemma ev_inj (c : Call) (a b : resp c) : ev c a = ev c b → a = b.
Proof.
  intros H. apply (Eqdep_dec.inj_pair2_eq_dec _ (λ x y, decide (x = y)) _ _ _ _ H).
Qed.

Lemma ev_cons_inj (c : Call) (a b : resp c) (t t' : list Event) :
  ev c a :: t = ev c b :: t' → a = b ∧ t = t'.
Proof. intros [= H ->]. split; [by apply ev_inj | done]. Qed.

(** A program has one result for each trace. *)
Lemma runs_functional {R : Type} (p : Prog R) (t : list Event) (r r' : R) :
  runs p t r → runs p t r' → r = r'.
Proof.
  revert t. induction p as [a | c k IH]; intros t; simpl.
  - by intros [_ ->] [_ ->].
  - intros (a & t1 & -> & H1) (a' & t2 & Heq & H2).
    injection Heq as Heq1 ->.
    assert (a' = a) as ->; [| by eapply IH].
    symmetry. apply (Eqdep_dec.inj_pair2_eq_dec); [| exact Heq1].
    intros x y. destruct (decide (x = y)); [by left | by right].
Qed.

Lemma exec_runs {R : Type} (p : Prog R) (w : World) :
  ∃ t, runs p t (exec p w).1 ∧ history w t (exec p w).2.
Proof.
  revert w. induction p as [a | c k IH]; intros w; simpl.
  - by exists [].
  - destruct (handle c w) as [a w'] eqn:Hh.
    destruct (IH a w') as (t & Hr & Hw).
    exists (ev c a :: t). split.
    + by exists a, t.
    + simpl. rewrite Hh. done.
Qed.

Lemma exec_trace_in {R : Type} (p : Prog R) (w : World) :
  runs p (trace_in p w) (exec p w).1 ∧ history w (trace_in p w) (exec p w).2.
Proof.
  revert w. induction p as [a | c k IH]; intros w; simpl; [done |].
  destruct (handle c w) as [a w'] eqn:Hh.
  destruct (IH a w') as [Hr Hw]. split.
  - by exists a, (trace_in (k a) w').
  - simpl. by rewrite Hh.
Qed.

Lemma handle_log (c : Call) (w : World) :
  log (handle c w).2 = (log w ++ [c])%list ∧ clock (handle c w).2 = S (clock w).
Proof.
  assert (∀ w0, log (answer c w0).2 = log w0 ∧ clock (answer c w0).2 = clock w0) as Ha.
  { intros w0. destruct c; simpl; repeat case_match; done. }
  unfold handle. destruct (faults w (clock w) c) as [e |].
  - destruct (refuse c e); simpl; [done |]. destruct (Ha (tick c w)) as [-> ->]. done.
  - destruct (Ha (tick c w)) as [-> ->]. done.
Qed.

Lemma history_log (t : list Event) (w w' : World) :
  history w t w' →
  log w' = (log w ++ calls t)%list ∧ clock w' = (clock w + length t)%nat.
Proof.
  revert w. induction t as [| e t IH]; intros w; simpl.
  - intros ->. rewrite app_nil_r. split; [done | lia].
  - intros [_ H]. apply IH in H as [-> ->].
    destruct (handle_log (projT1 e) w) as [-> ->].
    rewrite <- app_assoc. split; [done | lia].
Qed.

(** A call that does not write to the node leaves the file system and the
    mount table alone; one that does not write to the cluster leaves the
    pods alone; no call changes the classes. *)
Lemma handle_node_frame (c : Call) (w : World) :
  node_write c = false →
  fs (handle c w).2 = fs w ∧ mounts (handle c w).2 = mounts w.
Proof.
  intros Hc. unfold handle.
  destruct (faults w (clock w) c) as [e |]; [destruct (refuse c e) |];
    destruct c; simpl in *; try done; repeat case_match; done.
Qed.

Lemma handle_cluster_frame (c : Call) (w : World) :
  cluster_write c = false → pods (handle c w).2 = pods w.
Proof.
  intros Hc. unfold handle.
  destruct (faults w (clock w) c) as [e |]; [destruct (refuse c e) |];
    destruct c; simpl in *; try done; repeat case_match; done.
Qed.

Lemma history_node_frame (t : list Event) (w w' : World) :
  history w t w' →
  Forall (λ c, node_write c = false) (calls t) →
  fs w' = fs w ∧ mounts w' = mounts w.
Proof.
  revert w. induction t as [| e t IH]; intros w; simpl.
  - by intros ->.
  - intros [_ H] Hall. apply Forall_cons in Hall as [Hc Hall].
    destruct (IH _ H Hall) as [-> ->]. by apply handle_node_frame.
Qed.

Lemma history_cluster_frame (t : list Event) (w w' : World) :
  history w t w' →
  Forall (λ c, cluster_write c = false) (calls t) →
  pods w' = pods w.
Proof.
  revert w. induction t as [| e t IH]; intros w; simpl.
  - by intros ->.
  - intros [_ H] Hall. apply Forall_cons in Hall as [Hc Hall].
    rewrite (IH _ H Hall). by apply handle_cluster_frame.
Qed.

(** The calls of a trace succeeded, call by call. *)
Ltac split_trace H :=
  repeat first [rewrite forallb_app in H | progress simpl in H
               | rewrite andb_true_iff in H];
  destruct_and?.

(** ** Executions of mount, writeData and updatePod *)

Lemma runs_mount (targetPath : string) (t : list Event) (r : option error) :
  runs (mount targetPath) t r → mount_run targetPath t r.
Proof.
  unfold mount. simpl. intros ([b [e |]] & t1 & -> & H); simpl in H.
  - destruct H as [-> ->]. constructor.
  - destruct b; simpl in H.
    + destruct H as [-> ->]. constructor.
    + destruct H as ([e |] & t2 & -> & H); simpl in H.
      * destruct H as [-> ->]. constructor.
      * destruct H as ([e |] & t3 & -> & [-> ->]); constructor.
Qed.

Lemma runs_writeData_range (targetPath : string) (entries : list (string * string))
    (t : list Event) (r : option error) :
  runs (writeData_range targetPath entries) t r → write_run targetPath entries t r.
Proof.
  revert t. induction entries as [| [name content] rest IH]; intros t; simpl.
  - intros [-> ->]. apply write_all.
  - intros ([e |] & t1 & -> & H); simpl in H.
    + destruct H as [-> ->].
      apply (write_failed targetPath _ [] rest (name, content) e). done.
    + apply IH in H. destruct H as [| before after entry e Heq].
      * apply (write_all targetPath ((name, content) :: rest)).
      * apply (write_failed targetPath _ ((name, content) :: before) after entry e).
        by rewrite Heq.
Qed.

Lemma runs_writeData (targetPath : string) (data : gmap string string)
    (t : list Event) (r : option error) :
  runs (writeData targetPath data) t r →
  ∃ entries t', t = ev (MapRange data) entries :: t'
                ∧ write_run targetPath entries t' r.
Proof.
  unfold writeData. simpl. intros (entries & t' & -> & H).
  exists entries, t'. split; [done |]. by apply runs_writeData_range.
Qed.

Lemma runs_writeData_range_intro (targetPath : string) (data : gmap string string)
    (entries : list (string * string)) (t : list Event) (r : option error) :
  runs (writeData_range targetPath entries) t r →
  runs (writeData targetPath data) (ev (MapRange data) entries :: t) r.
Proof. intros H. unfold writeData. simpl. by exists entries, t. Qed.

Lemma runs_updatePod (key : string) (pod : corev1.Pod) (expiresTime : option Z)
    (t : list Event) (r : option error) :
  runs (updatePod key pod expiresTime) t r → update_run key pod expiresTime t r.
Proof.
  unfold updatePod. fold (with_map pod).
  destruct expiresTime as [new |]; simpl.
  - assert (∀ t r, runs (call (Patch (set_annotation (with_map pod) key
                                        (strconv.FormatInt10 new)) (with_map pod))) t r
                   → update_run key pod (Some new) t r) as Hpatch.
    { intros t0 r0 Ht%runs_call. subst t0. by apply update_patched. }
    destruct (index (corev1.Annotations (with_map pod)) key) as [s |]; [| apply Hpatch].
    destruct (decide (s ≠ EmptyString)); [| apply Hpatch].
    destruct (strconv.ParseInt10 s) as [old [e |]].
    + simpl. intros [-> ->]. constructor.
    + destruct (old <? new).
      * simpl. intros [-> ->]. constructor.
      * apply Hpatch.
  - intros [-> ->]. constructor.
Qed.

(** ** Executions of NodePublishVolume *)

Lemma validate_invalid_argument (req : csi.NodePublishVolumeRequest.t) (e : error) :
  validateNodePublishVolumeRequest req = Some e →
  ∃ msg, e = status.Error codes.InvalidArgument msg.
Proof.
  unfold validateNodePublishVolumeRequest.
  repeat case_match; intros [= <-]; eauto.
Qed.

Lemma runs_NodePublishVolume (key : string) (sel : gomap → result volume.VolumeSelector)
    (req : csi.NodePublishVolumeRequest.t) (t : list Event)
    (r : result csi.NodePublishVolumeResponse) :
  runs (NodePublishVolume key sel req) t r → publish_run key sel req t r.
Proof.
  unfold NodePublishVolume.
  destruct (validateNodePublishVolumeRequest req) as [e |] eqn:Hv.
  { destruct (validate_invalid_argument _ _ Hv) as [msg ->].
    simpl. intros [-> ->]. constructor. intros vs (Hv' & _). congruence. }
  destruct (decide (csi.NodePublishVolumeRequest.GetTargetPath req = EmptyString))
    as [Htp | Htp].
  { simpl. intros [-> ->]. constructor. intros vs (_ & Htp' & _). contradiction. }
  destruct (sel (csi.NodePublishVolumeRequest.GetVolumeContext req)) as [vs | e] eqn:Hs.
  2: { simpl. intros [-> ->]. constructor. intros vs (_ & _ & Hs' & _). congruence. }
  destruct (decide (volume.Class vs = EmptyString)) as [Hc | Hc].
  { simpl. intros [-> ->]. constructor. intros vs' (_ & _ & Hs' & Hc').
    congruence. }
  assert (selected sel req vs) as Hsel by done.
  fold (class_key vs) (pod_key vs).
  intros H. apply runs_mbind in H as (t1 & t' & [class | e] & -> & ->%runs_call & H).
  2: { simpl in H. destruct H as [-> ->]. by apply publish_class_failed. }
  apply runs_mbind in H as (t1 & t2 & [pod | e] & -> & ->%runs_call & H).
  2: { simpl in H. destruct H as [-> ->]. by apply publish_pod_failed. }
  apply runs_mbind in H as (t1 & t3 & [content | e] & -> & ->%runs_call & H).
  2: { simpl in H. destruct H as [-> ->]. by apply publish_backend_failed. }
  apply runs_mbind in H as (tm & t4 & [e |] & -> & Hm%runs_mount & H).
  { simpl in H. destruct H as [-> ->]. rewrite app_nil_r.
    by apply (publish_mount_failed key sel req vs class pod content). }
  apply runs_mbind in H as (tw & tu & [e |] & -> & Hw%runs_writeData & H);
    destruct Hw as (entries & tw' & -> & Hw).
  { simpl in H. destruct H as [-> ->]. rewrite app_nil_r.
    by apply (publish_write_failed key sel req vs class pod content). }
  apply runs_mbind in H as (tu' & t5 & [e |] & -> & Hu & H);
    simpl in H; destruct H as [-> ->]; rewrite app_nil_r.
  - by apply (publish_update_failed key sel req vs class pod content).
  - by apply (publish_done key sel req vs class pod content).
Qed.

(** ** Request validation *)

Lemma validate_incomplete (req : csi.NodePublishVolumeRequest.t) :
  csi.NodePublishVolumeRequest.GetVolumeId req = EmptyString
  ∨ csi.NodePublishVolumeRequest.GetTargetPath req = EmptyString
  ∨ csi.NodePublishVolumeRequest.GetVolumeCapability req = None
  ∨ csi.NodePublishVolumeRequest.GetVolumeContext req = None
  ∨ len (csi.NodePublishVolumeRequest.GetVolumeContext req) = 0%nat →
  ∃ msg, validateNodePublishVolumeRequest req
         = Some (status.Error codes.InvalidArgument msg).
Proof.
  unfold validateNodePublishVolumeRequest. intros H.
  destruct (decide (csi.NodePublishVolumeRequest.GetVolumeId req = EmptyString));
    [eauto |].
  destruct (decide (csi.NodePublishVolumeRequest.GetTargetPath req = EmptyString));
    [eauto |].
  destruct (decide (csi.NodePublishVolumeRequest.GetVolumeCapability req = None));
    [eauto |].
  destruct H as [H | [H | [H | [H | H]]]]; try done.
  - rewrite (bool_decide_eq_true_2 _ H). simpl. eauto.
  - rewrite (bool_decide_eq_true_2 _ H), orb_true_r. eauto.
Qed.

(** C3: a publish request without a volume id, a target path, a volume
    capability or a non-empty volume context is rejected with
    InvalidArgument before any call is made: the program is a bare return,
    its only execution has the empty trace, and the node and the cluster
    are exactly as they were (nothing mounted, no file written, no pod
    patched, nothing even read). *)
Theorem NodePublishVolume_rejects_incomplete
    (key : string) (sel : gomap → result volume.VolumeSelector)
    (req : csi.NodePublishVolumeRequest.t) :
  csi.NodePublishVolumeRequest.GetVolumeId req = EmptyString
  ∨ csi.NodePublishVolumeRequest.GetTargetPath req = EmptyString
  ∨ csi.NodePublishVolumeRequest.GetVolumeCapability req = None
  ∨ csi.NodePublishVolumeRequest.GetVolumeContext req = None
  ∨ len (csi.NodePublishVolumeRequest.GetVolumeContext req) = 0%nat →
  ∃ msg,
    let rejected := Err (status.Error codes.InvalidArgument msg) in
    NodePublishVolume key sel req = Ret rejected
    ∧ (∀ t r, runs (NodePublishVolume key sel req) t r → t = [] ∧ r = rejected)
    ∧ (∀ w, exec (NodePublishVolume key sel req) w = (rejected, w)).
Proof.
  intros H. apply validate_incomplete in H as [msg Hv]. exists msg.
  assert (NodePublishVolume key sel req
          = Ret (Err (status.Error codes.InvalidArgument msg))) as Heq.
  { unfold NodePublishVolume. by rewrite Hv. }
  simpl. rewrite Heq. simpl. done.
Qed.

Lemma NodePublishVolume_rejects_incomplete_witness :
  ∃ msg,
    let req := {| csi.NodePublishVolumeRequest.GetVolumeId := "v1";
                  csi.NodePublishVolumeRequest.GetTargetPath := sample_target;
                  csi.NodePublishVolumeRequest.GetVolumeCapability :=
                    Some csi.VolumeCapability_Mount;
                  csi.NodePublishVolumeRequest.GetVolumeContext := Some ∅ |} in
    let rejected := Err (status.Error codes.InvalidArgument msg) in
    NodePublishVolume sample_key sample_selector req = Ret rejected
    ∧ (∀ t r, runs (NodePublishVolume sample_key sample_selector req) t r
              → t = [] ∧ r = rejected)
    ∧ (∀ w, exec (NodePublishVolume sample_key sample_selector req) w = (rejected, w)).
Proof.
  apply (NodePublishVolume_rejects_incomplete sample_key sample_selector
           {| csi.NodePublishVolumeRequest.GetVolumeId := "v1";
              csi.NodePublishVolumeRequest.GetTargetPath := sample_target;
              csi.NodePublishVolumeRequest.GetVolumeCapability :=
                Some csi.VolumeCapability_Mount;
              csi.NodePublishVolumeRequest.GetVolumeContext := Some ∅ |}).
  right. right. right. right. reflexivity.
Defined.

(** ** Reconciliation of the expiration time *)

Lemma with_map_index (pod : corev1.Pod) (k : string) :
  index (corev1.Annotations (with_map pod)) k = index (corev1.Annotations pod) k.
Proof.
  unfold with_map. case_decide as H; [| done]. simpl. by rewrite H.
Qed.

Lemma with_map_default (pod : corev1.Pod) :
  default ∅ (corev1.Annotations (with_map pod)) = default ∅ (corev1.Annotations pod).
Proof.
  unfold with_map. case_decide as H; [| done]. simpl. by rewrite H.
Qed.

Lemma index_default (m : gomap) (k : string) : index m k = default ∅ m !! k.
Proof. by destruct m. Qed.

Lemma with_expiry_index (key : string) (pod : corev1.Pod) (new : Z) (k : string) :
  index (corev1.Annotations (with_expiry key pod new)) k
  = if decide (k = key) then Some (strconv.FormatInt10 new)
    else index (corev1.Annotations pod) k.
Proof.
  unfold with_expiry. simpl. rewrite with_map_default. case_decide as Hk.
  - subst k. apply lookup_insert_eq.
  - rewrite lookup_insert_ne by done. symmetry. apply index_default.
Qed.

(** The four ways through updatePod when an expiration time is given. *)
Lemma updatePod_later (key : string) (pod : corev1.Pod) (new old : Z) (s : string) :
  index (corev1.Annotations pod) key = Some s → s ≠ EmptyString →
  strconv.ParseInt10 s = (old, None) → old < new →
  updatePod key pod (Some new) = Ret None.
Proof.
  intros Hi Hs Hp Hlt. unfold updatePod. fold (with_map pod).
  rewrite with_map_index, Hi. rewrite decide_True by done. rewrite Hp.
  by rewrite (proj2 (Z.ltb_lt _ _) Hlt).
Qed.

Lemma updatePod_sooner (key : string) (pod : corev1.Pod) (new old : Z) (s : string) :
  index (corev1.Annotations pod) key = Some s → s ≠ EmptyString →
  strconv.ParseInt10 s = (old, None) → new ≤ old →
  updatePod key pod (Some new) = call (Patch (with_expiry key pod new) (with_map pod)).
Proof.
  intros Hi Hs Hp Hle. unfold updatePod. fold (with_map pod).
  rewrite with_map_index, Hi. rewrite decide_True by done. rewrite Hp.
  by rewrite (proj2 (Z.ltb_ge _ _) Hle).
Qed.

Lemma updatePod_fresh (key : string) (pod : corev1.Pod) (new : Z) :
  index (corev1.Annotations pod) key = None
  ∨ index (corev1.Annotations pod) key = Some EmptyString →
  updatePod key pod (Some new) = call (Patch (with_expiry key pod new) (with_map pod)).
Proof.
  intros Hi. unfold updatePod. fold (with_map pod). rewrite with_map_index.
  destruct Hi as [-> | ->]; [done |]. by rewrite decide_False by (by intros H).
Qed.

Lemma updatePod_corrupted (key : string) (pod : corev1.Pod) (new v : Z) (s : string)
    (e : error) :
  index (corev1.Annotations pod) key = Some s → s ≠ EmptyString →
  strconv.ParseInt10 s = (v, Some e) →
  updatePod key pod (Some new) = Ret (Some e).
Proof.
  intros Hi Hs Hp. unfold updatePod. fold (with_map pod).
  rewrite with_map_index, Hi. rewrite decide_True by done. by rewrite Hp.
Qed.

(** The patch that carries the expiration time, applied to the pod that
    was read: the key holds the new value, the other keys are as before. *)
Lemma patch_pod_expiry (key : string) (pod : corev1.Pod) (new : Z) (k : string) :
  index (corev1.Annotations (patch_pod (with_expiry key pod new) (with_map pod) pod)) k
  = if decide (k = key) then Some (strconv.FormatInt10 new)
    else index (corev1.Annotations pod) k.
Proof.
  unfold patch_pod.
  set (d := diff_annotations _ _).
  assert (d !! k = if decide (k = key)
                   then (if decide (index (corev1.Annotations pod) key
                                    = Some (strconv.FormatInt10 new))
                         then None else Some (Some (strconv.FormatInt10 new)))
                   else None) as Hd.
  { unfold d, diff_annotations. rewrite lookup_merge.
    rewrite <- !index_default, with_map_index, with_expiry_index.
    case_decide as Hk; simpl.
    - subst k. destruct (index (corev1.Annotations pod) key); simpl; done.
    - destruct (index (corev1.Annotations pod) k); simpl; [| done].
      by rewrite decide_True. }
  destruct (decide (d = ∅)) as [He | He].
  - rewrite He, lookup_empty in Hd.
    destruct (decide (k = key)) as [-> | Hk]; [| done].
    by destruct (decide (index (corev1.Annotations pod) key
                         = Some (strconv.FormatInt10 new))).
  - simpl. unfold apply_annotations. rewrite lookup_merge, Hd.
    rewrite <- index_default.
    destruct (decide (k = key)) as [-> | Hk].
    + destruct (decide (index (corev1.Annotations pod) key
                        = Some (strconv.FormatInt10 new))) as [Hi | Hi]; simpl.
      * by rewrite Hi.
      * by destruct (index (corev1.Annotations pod) key).
    + by destruct (index (corev1.Annotations pod) k).
Qed.

Lemma updatePod_records_expiry (key : string) (pod : corev1.Pod) (new : Z) (w : World) :
  pods w !! (corev1.Namespace pod, corev1.Name pod) = Some pod →
  updatePod key pod (Some new) = call (Patch (with_expiry key pod new) (with_map pod)) →
  records_expiry key pod new w.
Proof.
  intros Hw Hu. unfold records_expiry.
  set (c := Patch _ _).
  assert (exec (updatePod key pod (Some new)) w = handle c w) as ->.
  { rewrite Hu. exact (exec_call c w). }
  destruct (handle c w) as [err w'] eqn:Hh.
  split; [by rewrite <- (proj1 (handle_log c w)), Hh |].
  revert Hh. unfold handle.
  assert (corev1.Namespace (with_map pod) = corev1.Namespace pod
          ∧ corev1.Name (with_map pod) = corev1.Name pod) as [Hns Hn].
  { unfold with_map. by case_decide. }
  destruct (faults w (clock w) c) as [e |]; simpl.
  - intros [= <- <-]. done.
  - rewrite Hns, Hn, Hw. intros [= <- <-]. split; [done |]. simpl.
    eexists. split; [apply lookup_insert_eq |].
    rewrite patch_pod_expiry. by rewrite decide_True.
Qed.

(** An annotation that an earlier reconciliation wrote is read back as the
    time that was written, so the comparison is with that time. *)
Lemma updatePod_on_written_annotation (key : string) (pod : corev1.Pod) (new old : Z) :
  - 2 ^ 63 ≤ old < 2 ^ 63 →
  index (corev1.Annotations pod) key = Some (strconv.FormatInt10 old) →
  updatePod key pod (Some new)
  = if old <? new then Ret None
    else call (Patch (with_expiry key pod new) (with_map pod)).
Proof.
  intros Hold Hi.
  pose proof (strconv_facts.ParseInt10_FormatInt10 old Hold) as Hp.
  assert (strconv.FormatInt10 old ≠ EmptyString) as Hne.
  { intros He. rewrite He in Hp. discriminate. }
  destruct (old <? new) eqn:Hlt.
  - apply Z.ltb_lt in Hlt. by eapply updatePod_later.
  - apply Z.ltb_ge in Hlt. by eapply updatePod_sooner.
Qed.

(** C1: with an expiration time E1 given and an annotation that parses
    to E0, updatePod returns without a call when E1 > E0 (the node and the
    cluster are exactly as before), and sends the pod with the annotation
    set to the decimal string of E1 when E1 <= E0; with no annotation, or
    an empty one, it sends the pod with the annotation set to the decimal
    string of E1.  When the cluster holds the pod that was read, a patch
    that succeeds leaves the decimal string of E1 under the key in the
    cluster, and the patch fails only when the client fails. *)
Theorem updatePod_keeps_soonest_expiry (key : string) (pod : corev1.Pod) (new : Z) :
  let sent := Patch (with_expiry key pod new) (with_map pod) in
  let held w := pods w !! (corev1.Namespace pod, corev1.Name pod) = Some pod in
  (∀ s old,
     index (corev1.Annotations pod) key = Some s → s ≠ EmptyString →
     strconv.ParseInt10 s = (old, None) →
     (new > old →
        updatePod key pod (Some new) = Ret None
        ∧ ∀ w, exec (updatePod key pod (Some new)) w = (None, w))
     ∧ (new ≤ old →
        updatePod key pod (Some new) = call sent
        ∧ ∀ w, held w → records_expiry key pod new w))
  ∧ (index (corev1.Annotations pod) key = None
     ∨ index (corev1.Annotations pod) key = Some EmptyString →
     updatePod key pod (Some new) = call sent
     ∧ ∀ w, held w → records_expiry key pod new w)
  ∧ index (corev1.Annotations (with_expiry key pod new)) key
    = Some (strconv.FormatInt10 new).
Proof.
  cbv beta zeta. split; [| split].
  - intros s old Hi Hs Hp. split.
    + intros Hgt. assert (old < new) as Hlt by lia.
      rewrite (updatePod_later key pod new old s Hi Hs Hp Hlt). done.
    + intros Hle. pose proof (updatePod_sooner key pod new old s Hi Hs Hp Hle) as Hu.
      split; [done |]. intros w Hw. by apply updatePod_records_expiry.
  - intros Hi. pose proof (updatePod_fresh key pod new Hi) as Hu.
    split; [done |]. intros w Hw. by apply updatePod_records_expiry.
  - rewrite with_expiry_index. by rewrite decide_True.
Qed.

Lemma updatePod_keeps_soonest_expiry_witness :
  let prior := Some ({[ sample_key := "1000" ]} : gmap string string) in
  updatePod sample_key (sample_pod prior) (Some 1500) = Ret None
  ∧ records_expiry sample_key (sample_pod prior) 900 (sample_world prior (Some 900))
  ∧ records_expiry sample_key (sample_pod None) 500 (sample_world None (Some 500)).
Proof.
  cbv beta zeta. split; [| split].
  - destruct (updatePod_keeps_soonest_expiry sample_key
                (sample_pod (Some {[ sample_key := "1000" ]})) 1500) as [H _].
    destruct (H "1000" 1000) as [Hlater _]; [reflexivity | discriminate | reflexivity |].
    apply Hlater. reflexivity.
  - destruct (updatePod_keeps_soonest_expiry sample_key
                (sample_pod (Some {[ sample_key := "1000" ]})) 900) as [H _].
    destruct (H "1000" 1000) as [_ Hsooner]; [reflexivity | discriminate | reflexivity |].
    apply Hsooner; [discriminate | reflexivity].
  - destruct (updatePod_keeps_soonest_expiry sample_key (sample_pod None) 500)
      as (_ & H & _).
    apply H; [left; reflexivity | reflexivity].
Defined.

(** C7: with no expiration time, updatePod returns nil without a call:
    the program is a bare return, so nothing is written to the cluster,
    the pods of the cluster are as they were, and a pod that had no
    expiration annotation still has none. *)
Theorem updatePod_nil_expiry_no_write (key : string) (pod : corev1.Pod) :
  updatePod key pod None = Ret None
  ∧ (∀ t r, runs (updatePod key pod None) t r → t = [] ∧ r = None)
  ∧ (∀ w, exec (updatePod key pod None) w = (None, w))
  ∧ (∀ w k cur,
       pods w !! k = Some cur → index (corev1.Annotations cur) key = None →
       ∃ cur', pods (exec (updatePod key pod None) w).2 !! k = Some cur'
               ∧ index (corev1.Annotations cur') key = None).
Proof.
  assert (updatePod key pod None = Ret None) as Heq by done.
  rewrite Heq. simpl. split; [done |]. split; [done |]. split; [done |].
  intros w k cur Hk Hi. by exists cur.
Qed.

Lemma updatePod_nil_expiry_no_write_witness :
  ∃ cur', pods (exec (updatePod sample_key (sample_pod None) None)
                     (sample_world None None)).2 !! ("default", "web") = Some cur'
          ∧ index (corev1.Annotations cur') sample_key = None.
Proof.
  destruct (updatePod_nil_expiry_no_write sample_key (sample_pod None)) as (_ & _ & _ & H).
  apply (H (sample_world None None) ("default", "web") (sample_pod None));
    reflexivity.
Defined.

(** C8, as the code has it: when an expiration time is given and the
    annotation is present, not empty, and strconv.ParseInt rejects it,
    updatePod returns the error of the parse without a call, so the node
    and the cluster (the annotation with them) are as they were.  In
    every execution of NodePublishVolume in which all the calls
    before the reconciliation succeeded (the target path did not exist),
    the pod that was read carries such an annotation and the backend gave
    an expiration time, the result is a status of code Internal whose text
    is the text of the parse error, and no patch is sent. *)
Theorem corrupted_annotation_is_internal_error
    (key : string) (sel : gomap → result volume.VolumeSelector)
    (pod : corev1.Pod) (new v : Z) (s : string) (e : error) :
  index (corev1.Annotations pod) key = Some s → s ≠ EmptyString →
  strconv.ParseInt10 s = (v, Some e) →
  updatePod key pod (Some new) = Ret (Some e)
  ∧ (∀ w, exec (updatePod key pod (Some new)) w = (Some e, w))
  ∧ (∀ req t r content,
       runs (NodePublishVolume key sel req) t r →
       forallb succeeded t = true →
       first_answer exists_answer t = Some (false, None) →
       first_answer pod_answer t = Some (Ok pod) →
       first_answer data_answer t = Some (Ok content) →
       ExpiresTime content = Some new →
       r = Err (status.Error codes.Internal (Error e))
       ∧ Forall (λ c, cluster_write c = false) (calls t)).
Proof.
  intros Hi Hs Hp.
  pose proof (updatePod_corrupted key pod new v s e Hi Hs Hp) as Hu.
  split; [done |]. split; [by rewrite Hu |].
  intros req t r content Hr%runs_NodePublishVolume Hok Hex Hpod Hdata Hnew.
  destruct Hr as [msg | vs e' Hsel | vs class e' Hsel | vs class pod' e' Hsel
                 | vs class pod' content' tm e' Hsel Hm
                 | vs class pod' content' tm entries tw e' Hsel Hm Hw
                 | vs class pod' content' tm entries tw tu e' Hsel Hm Hw Hupd
                 | vs class pod' content' tm entries tw tu Hsel Hm Hw Hupd];
    unfold first_answer, resolved in Hex, Hpod, Hdata, Hok |- *;
    simpl in Hex, Hpod, Hdata, Hok |- *; try discriminate.
  - (* the mount failed *)
    inversion Hm; subst; simpl in Hex; split_trace Hok; discriminate.
  - (* a write failed *)
    inversion Hw as [| before after entry e0 Heq]; subst.
    split_trace Hok. discriminate.
  - (* the reconciliation failed *)
    injection Hpod as ->. injection Hdata as ->.
    unfold corev1.DeepCopy in Hupd. rewrite Hnew, Hu in Hupd.
    simpl in Hupd. destruct Hupd as [-> [= ->]]. split; [done |].
    rewrite app_nil_r. inversion Hm; subst. inversion Hw; subst.
    unfold calls. simpl. repeat (apply Forall_cons; split; [done |]).
    rewrite <- list_fmap_compose. apply Forall_fmap, Forall_true. done.
  - (* the publish cannot succeed *)
    injection Hpod as ->. injection Hdata as ->.
    unfold corev1.DeepCopy in Hupd. rewrite Hnew, Hu in Hupd.
    simpl in Hupd. by destruct Hupd.
Qed.

Lemma corrupted_annotation_is_internal_error_witness :
  let prior := Some ({[ sample_key := "soon" ]} : gmap string string) in
  let e := NumError "ParseInt" "soon" ErrSyntax in
  updatePod sample_key (sample_pod prior) (Some 900) = Ret (Some e)
  ∧ (exec (NodePublishVolume sample_key sample_selector sample_request)
          (sample_world prior (Some 900))).1
    = Err (status.Error codes.Internal (Error e)).
Proof.
  cbv zeta.
  destruct (corrupted_annotation_is_internal_error sample_key sample_selector
              (sample_pod (Some {[ sample_key := "soon" ]})) 900 0 "soon"
              (NumError "ParseInt" "soon" ErrSyntax))
    as (Hupd & _ & Hpub); [reflexivity | discriminate | reflexivity |].
  split; [exact Hupd |].
  set (w := sample_world (Some {[ sample_key := "soon" ]}) (Some 900)).
  set (p := NodePublishVolume sample_key sample_selector sample_request).
  destruct (Hpub sample_request (trace_in p w) (exec p w).1 (sample_content (Some 900)))
    as [Hr _]; [exact (proj1 (exec_trace_in _ _)) | vm_compute; reflexivity ..| exact Hr].
Defined.

(** C8, as the claim states it, fails: updatePod returns nil when the
    expiration time is nil, before it looks at the annotation, so a call
    on a pod whose annotation does not parse succeeds, and so does the
    publish of a secret that has no expiration time. *)
Lemma corrupted_annotation_with_nil_expiry_succeeds :
  let prior := Some ({[ sample_key := "soon" ]} : gmap string string) in
  index (corev1.Annotations (sample_pod prior)) sample_key = Some "soon"
  ∧ (strconv.ParseInt10 "soon").2 = Some (NumError "ParseInt" "soon" ErrSyntax)
  ∧ updatePod sample_key (sample_pod prior) None = Ret None
  ∧ (exec (NodePublishVolume sample_key sample_selector sample_request)
          (sample_world prior None)).1
    = Ok csi.mkNodePublishVolumeResponse.
Proof.
  cbv zeta. split; [reflexivity |]. split; [reflexivity |]. split; [reflexivity |].
  vm_compute. reflexivity.
Qed.

(** ** The model along a trace *)

Lemma history_app (t1 t2 : list Event) (w w' : World) :
  history w (t1 ++ t2) w' ↔ ∃ w1, history w t1 w1 ∧ history w1 t2 w'.
Proof.
  revert w. induction t1 as [| e t1 IH]; intros w; simpl.
  - split; [intros H; by exists w | by intros (w1 & -> & H)].
  - rewrite IH. split.
    + intros [He (w1 & H1 & H2)]. by exists w1.
    + intros (w1 & [He H1] & H2). split; [done |]. by exists w1.
Qed.

Lemma handle_mounts_frame (c : Call) (w : World) :
  mount_write c = false → mounts (handle c w).2 = mounts w.
Proof.
  intros Hc. unfold handle.
  destruct (faults w (clock w) c) as [e |]; [destruct (refuse c e) |];
    destruct c; simpl in *; try done; repeat case_match; done.
Qed.

Lemma history_mounts_frame (t : list Event) (w w' : World) :
  history w t w' →
  Forall (λ c, mount_write c = false) (calls t) →
  mounts w' = mounts w.
Proof.
  revert w. induction t as [| e t IH]; intros w; simpl.
  - by intros ->.
  - intros [_ H] Hall. apply Forall_cons in Hall as [Hc Hall].
    rewrite (IH _ H Hall). by apply handle_mounts_frame.
Qed.

(** The model answers PathExists from the file system. *)
Lemma handle_PathExists (path : string) (w : World) (b : bool) :
  (handle (PathExists path) w).1 = (b, None) →
  b = path_exists (fs w) (resolve path).
Proof.
  unfold handle. destruct (faults w (clock w) (PathExists path)); simpl; congruence.
Qed.

(** A mount that succeeds adds its entry to the table. *)
Lemma handle_Mount (source target fstype : string) (options : list string) (w : World) :
  (handle (Mount source target fstype options) w).1 = None →
  mounts (handle (Mount source target fstype options) w).2
  = {| Device := source; Path := resolve target; Type_ := fstype; Opts := options |}
      :: mounts w.
Proof.
  unfold handle. destruct (faults w (clock w) _); simpl; [done |].
  by destruct (is_dir (fs w) (resolve target)).
Qed.

(** The calls of the stages of a publish. *)
Lemma resolved_calls (vs : volume.VolumeSelector) (class : secretsv1alpha1.SecretClass)
    (pod : corev1.Pod) (content : SecretContent) :
  Forall (λ c, node_write c = false ∧ cluster_write c = false)
         (calls (resolved vs class pod content)).
Proof. unfold calls, resolved. simpl. repeat constructor. Qed.

Lemma write_run_calls (targetPath : string) (entries : list (string * string))
    (t : list Event) (r : option error) :
  write_run targetPath entries t r →
  Forall (λ c, ∃ entry, c = write_of targetPath entry) (calls t).
Proof.
  intros [| before after entry e _]; unfold calls.
  - rewrite <- list_fmap_compose. apply Forall_fmap, Forall_forall.
    intros entry _. by exists entry.
  - rewrite fmap_app, <- list_fmap_compose. apply Forall_app. split.
    + apply Forall_fmap, Forall_forall. intros entry' _. by exists entry'.
    + apply Forall_singleton. by exists entry.
Qed.

Lemma updatePod_calls (key : string) (pod : corev1.Pod) (expiresTime : option Z)
    (t : list Event) (r : option error) :
  runs (updatePod key pod expiresTime) t r →
  Forall (λ c, ∃ obj base, c = Patch obj base) (calls t).
Proof.
  intros [| new err _]%runs_updatePod; unfold calls; simpl.
  - constructor.
  - apply Forall_singleton. eauto.
Qed.

(** In the model the target path of a trace that goes on after
    PathExists did not exist. *)
Lemma history_path_absent (vs : volume.VolumeSelector)
    (class : secretsv1alpha1.SecretClass) (pod : corev1.Pod) (content : SecretContent)
    (path : string) (t : list Event) (w w' : World) :
  history w (resolved vs class pod content ++ ev (PathExists path) (false, None) :: t)%list w' →
  path_exists (fs w) (resolve path) = false.
Proof.
  intros (w1 & H1 & H2)%history_app.
  apply history_node_frame in H1 as [Hfs _].
  2: { eapply Forall_impl; [apply resolved_calls |]. by intros c [? ?]. }
  destruct H2 as [H2 _]. simpl in H2. apply handle_PathExists in H2.
  by rewrite <- Hfs.
Qed.

(** ** A target path that exists *)

Lemma publish_run_target_exists
    (key : string) (sel : gomap → result volume.VolumeSelector)
    (req : csi.NodePublishVolumeRequest.t) (t : list Event)
    (r : result csi.NodePublishVolumeResponse) (e : option error) :
  publish_run key sel req t r →
  first_answer exists_answer t = Some (true, e) →
  r = Err (internal (default (errorString "target path already exists") e))
  ∧ Forall (λ c, node_write c = false ∧ cluster_write c = false) (calls t).
Proof.
  intros Hr Hex.
  destruct Hr as [msg | vs e' Hsel | vs class e' Hsel | vs class pod' e' Hsel
                 | vs class pod' content' tm e' Hsel Hm
                 | vs class pod' content' tm entries tw e' Hsel Hm Hw
                 | vs class pod' content' tm entries tw tu e' Hsel Hm Hw Hupd
                 | vs class pod' content' tm entries tw tu Hsel Hm Hw Hupd];
    unfold first_answer, resolved in Hex |- *; simpl in Hex |- *; try discriminate;
    inversion Hm; subst; simpl in Hex; try discriminate;
    simplify_eq; (split; [done |]); unfold calls; simpl; repeat constructor.
Qed.

(** C4: in every execution of NodePublishVolume in which PathExists
    reports that the target path exists, the result is a status of code
    Internal (with the text "target path already exists" when the check
    itself raised no error) and the trace holds no call that writes to the
    node or to the cluster: no MkdirAll, no Mount, no WriteFile, no
    removal, no patch.  In the model, a publish to a target path that
    exists returns an error and leaves the file system, the mount table
    and the pods as they were. *)
Theorem publish_to_existing_path_fails
    (key : string) (sel : gomap → result volume.VolumeSelector)
    (req : csi.NodePublishVolumeRequest.t) :
  let targetPath := csi.NodePublishVolumeRequest.GetTargetPath req in
  (∀ t r e,
     runs (NodePublishVolume key sel req) t r →
     first_answer exists_answer t = Some (true, e) →
     r = Err (status.Error codes.Internal
                (Error (default (errorString "target path already exists") e)))
     ∧ Forall (λ c, node_write c = false ∧ cluster_write c = false) (calls t))
  ∧ (∀ w,
       path_exists (fs w) (resolve targetPath) = true →
       (∃ e, (exec (NodePublishVolume key sel req) w).1 = Err e)
       ∧ fs (exec (NodePublishVolume key sel req) w).2 = fs w
       ∧ mounts (exec (NodePublishVolume key sel req) w).2 = mounts w
       ∧ pods (exec (NodePublishVolume key sel req) w).2 = pods w).
Proof.
  cbv zeta. split.
  - intros t r e Hr%runs_NodePublishVolume Hex.
    by apply (publish_run_target_exists key sel req).
  - intros w Hex.
    destruct (exec_trace_in (NodePublishVolume key sel req) w) as [Hr Hh].
    set (t := trace_in _ w) in *. set (x := exec _ w) in *.
    destruct x as [r w']. simpl in *. clearbody t.
    apply runs_NodePublishVolume in Hr.
    assert (∀ vs class pod content t',
              t = (resolved vs class pod content
                     ++ ev (PathExists (csi.NodePublishVolumeRequest.GetTargetPath req))
                          (false, None) :: t')%list → False) as Habsent.
    { intros vs class pod content t' ->.
      apply history_path_absent in Hh. congruence. }
    assert (Forall (λ c, node_write c = false ∧ cluster_write c = false) (calls t)
            → fs w' = fs w ∧ mounts w' = mounts w ∧ pods w' = pods w) as Hframe.
    { intros Hall.
      destruct (history_node_frame t w w' Hh) as [-> ->].
      { eapply Forall_impl; [exact Hall |]. by intros c [? ?]. }
      rewrite (history_cluster_frame t w w' Hh); [done |].
      eapply Forall_impl; [exact Hall |]. by intros c [? ?]. }
    destruct Hr as [msg | vs e' Hsel | vs class e' Hsel | vs class pod' e' Hsel
                   | vs class pod' content' tm e' Hsel Hm
                   | vs class pod' content' tm entries tw e' Hsel Hm Hw
                   | vs class pod' content' tm entries tw tu e' Hsel Hm Hw Hupd
                   | vs class pod' content' tm entries tw tu Hsel Hm Hw Hupd];
      try (inversion Hm; subst; try (by edestruct Habsent));
      (split; [by eexists |]); apply Hframe; unfold calls, resolved; simpl;
      repeat constructor.
Qed.

Lemma publish_to_existing_path_fails_witness :
  let p := NodePublishVolume sample_key sample_selector sample_request in
  (exec p occupied_world).1
  = Err (status.Error codes.Internal "target path already exists")
  ∧ fs (exec p occupied_world).2 = fs occupied_world
  ∧ mounts (exec p occupied_world).2 = mounts occupied_world.
Proof.
  cbv zeta.
  destruct (publish_to_existing_path_fails sample_key sample_selector sample_request)
    as [Htrace Hmodel].
  split.
  - destruct (Htrace (trace_in (NodePublishVolume sample_key sample_selector
                                  sample_request) occupied_world)
                     (exec (NodePublishVolume sample_key sample_selector
                              sample_request) occupied_world).1 None)
      as [Hr _]; [exact (proj1 (exec_trace_in _ _)) | vm_compute; reflexivity | exact Hr].
  - destruct (Hmodel occupied_world) as (_ & Hfs & Hm & _); [reflexivity |].
    split; [exact Hfs | exact Hm].
Defined.

(** ** The mount and its options *)

Lemma publish_run_mounts
    (key : string) (sel : gomap → result volume.VolumeSelector)
    (req : csi.NodePublishVolumeRequest.t) (t : list Event)
    (r : result csi.NodePublishVolumeResponse) :
  let expected := Mount "tmpfs" (csi.NodePublishVolumeRequest.GetTargetPath req)
                        "tmpfs" hardening in
  publish_run key sel req t r →
  Forall (λ c, mount_write c = true → c = expected) (calls t)
  ∧ (r = Ok csi.mkNodePublishVolumeResponse →
     ∃ t1 t2, t = (t1 ++ ev expected None :: t2)%list
              ∧ Forall (λ c, mount_write c = false) (calls t1)
              ∧ Forall (λ c, mount_write c = false) (calls t2)).
Proof.
  intros expected Hr.
  assert (∀ entries tw rw,
            write_run (csi.NodePublishVolumeRequest.GetTargetPath req) entries tw rw →
            Forall (λ c, mount_write c = false) (calls tw)) as Hwrites.
  { intros entries tw rw Hw%write_run_calls.
    eapply Forall_impl; [exact Hw |]. by intros c [entry ->]. }
  assert (∀ pod x tu ru,
            runs (updatePod key pod x) tu ru →
            Forall (λ c, mount_write c = false) (calls tu)) as Hupdates.
  { intros pod x tu ru Hu%updatePod_calls.
    eapply Forall_impl; [exact Hu |]. by intros c (obj & base & ->). }
  assert (∀ l : list Call, Forall (λ c, mount_write c = false) l →
                           Forall (λ c, mount_write c = true → c = expected) l) as Hweak.
  { intros l Hl. eapply Forall_impl; [exact Hl |]. intros c Hc. by rewrite Hc. }
  destruct Hr as [msg | vs e' Hsel | vs class e' Hsel | vs class pod' e' Hsel
                 | vs class pod' content' tm e' Hsel Hm
                 | vs class pod' content' tm entries tw e' Hsel Hm Hw
                 | vs class pod' content' tm entries tw tu e' Hsel Hm Hw Hupd
                 | vs class pod' content' tm entries tw tu Hsel Hm Hw Hupd];
    try (inversion Hm; subst);
    (split; [| try discriminate]);
    unfold calls, resolved; simpl;
    rewrite ?fmap_app; simpl; rewrite ?fmap_app;
    repeat first [apply Forall_cons; split; [done |] | apply Forall_nil_2
                 | apply Forall_app; split];
    try (apply Hweak; first [by eapply Hwrites | by eapply Hupdates]).
  intros _.
  exists (resolved vs class pod' content'
          ++ [ev (PathExists (csi.NodePublishVolumeRequest.GetTargetPath req)) (false, None);
              ev (MkdirAll (csi.NodePublishVolumeRequest.GetTargetPath req) mode_0750) None])%list,
         (ev (MapRange (Data content')) entries :: tw ++ tu)%list.
  split; [done |]. split.
  - unfold calls, resolved. simpl. repeat constructor.
  - unfold calls. simpl. rewrite fmap_app. apply Forall_cons. split; [done |].
    apply Forall_app. split; [by eapply Hwrites | by eapply Hupdates].
Qed.

Lemma filter_mount_write_none (l : list Call) :
  Forall (λ c, mount_write c = false) l →
  filter (λ c, mount_write c = true) l = [].
Proof.
  induction 1 as [| c l Hc _ IH]; [done |].
  rewrite filter_cons_False; [done | by rewrite Hc].
Qed.

(** C6: every call that NodePublishVolume makes to the mounter is the
    mount of a tmpfs on the target path of the request with the options
    noexec, nosuid, nodev, that list and no other, whatever else the
    request holds; an execution that succeeds makes that call exactly
    once.  In the model a publish that succeeds adds to the mount table
    one entry, of type tmpfs, on the target path, with those three
    options. *)
Theorem mount_applies_exactly_the_hardening_options
    (key : string) (sel : gomap → result volume.VolumeSelector)
    (req : csi.NodePublishVolumeRequest.t) :
  let targetPath := csi.NodePublishVolumeRequest.GetTargetPath req in
  let expected := Mount "tmpfs" targetPath "tmpfs" ["noexec"; "nosuid"; "nodev"] in
  (∀ t r,
     runs (NodePublishVolume key sel req) t r →
     Forall (λ c, mount_write c = true → c = expected) (calls t)
     ∧ (r = Ok csi.mkNodePublishVolumeResponse →
        filter (λ c, mount_write c = true) (calls t) = [expected]))
  ∧ (∀ w,
       (exec (NodePublishVolume key sel req) w).1 = Ok csi.mkNodePublishVolumeResponse →
       mounts (exec (NodePublishVolume key sel req) w).2
       = {| Device := "tmpfs"; Path := resolve targetPath; Type_ := "tmpfs";
            Opts := ["noexec"; "nosuid"; "nodev"] |} :: mounts w).
Proof.
  cbv zeta. split.
  - intros t r Hr%runs_NodePublishVolume.
    destruct (publish_run_mounts key sel req t r Hr) as [Hall Hok].
    split; [exact Hall |]. intros Hr'.
    destruct (Hok Hr') as (t1 & t2 & -> & H1 & H2).
    unfold calls. rewrite fmap_app, filter_app. simpl.
    rewrite filter_cons_True by done.
    fold (calls t1) (calls t2).
    by rewrite !filter_mount_write_none.
  - intros w Hok.
    destruct (exec_trace_in (NodePublishVolume key sel req) w) as [Hr Hh].
    apply runs_NodePublishVolume in Hr.
    destruct (publish_run_mounts key sel req _ _ Hr) as [_ Hshape].
    destruct (Hshape Hok) as (t1 & t2 & Heq & H1 & H2).
    rewrite Heq in Hh. apply history_app in Hh as (w1 & Hh1 & Hmount & Hh2).
    simpl in Hmount, Hh2.
    etrans; [exact (history_mounts_frame _ _ _ Hh2 H2) |].
    etrans; [exact (handle_Mount _ _ _ _ _ Hmount) |].
    by rewrite (history_mounts_frame _ _ _ Hh1 H1).
Qed.

Lemma mount_applies_exactly_the_hardening_options_witness :
  let p := NodePublishVolume sample_key sample_selector sample_request in
  let w := sample_world None (Some 900) in
  (exec p w).1 = Ok csi.mkNodePublishVolumeResponse
  ∧ filter (λ c, mount_write c = true) (calls (trace_in p w))
    = [Mount "tmpfs" sample_target "tmpfs" ["noexec"; "nosuid"; "nodev"]]
  ∧ mounts (exec p w).2
    = [{| Device := "tmpfs"; Path := resolve sample_target; Type_ := "tmpfs";
          Opts := ["noexec"; "nosuid"; "nodev"] |}].
Proof.
  cbv zeta.
  destruct (mount_applies_exactly_the_hardening_options sample_key sample_selector
              sample_request) as [Htrace Hmodel].
  split; [vm_compute; reflexivity |]. split.
  - destruct (Htrace (trace_in (NodePublishVolume sample_key sample_selector
                                  sample_request) (sample_world None (Some 900)))
                     (exec (NodePublishVolume sample_key sample_selector
                              sample_request) (sample_world None (Some 900))).1)
      as [_ Hone]; [exact (proj1 (exec_trace_in _ _)) |].
    apply Hone. vm_compute. reflexivity.
  - apply (Hmodel (sample_world None (Some 900))). vm_compute. reflexivity.
Defined.

(** ** The kinds of errors *)

Lemma handle_GetSecretClass (key : client.ObjectKey) (w : World)
    (class : secretsv1alpha1.SecretClass) :
  (handle (GetSecretClass key) w).1 = Ok class →
  classes w !! client.Name key = Some class.
Proof.
  unfold handle. destruct (faults w (clock w) _); simpl; [done |].
  destruct (classes w !! client.Name key); simpl; congruence.
Qed.

Lemma handle_GetPod (key : client.ObjectKey) (w : World) (pod : corev1.Pod) :
  (handle (GetPod key) w).1 = Ok pod →
  pods w !! (client.Namespace key, client.Name key) = Some pod.
Proof.
  unfold handle. destruct (faults w (clock w) _); simpl; [done |].
  destruct (pods w !! _); simpl; congruence.
Qed.

Lemma history_reads (vs : volume.VolumeSelector) (class : secretsv1alpha1.SecretClass)
    (pod : corev1.Pod) (t : list Event) (w w' : World) :
  history w (ev (GetSecretClass (class_key vs)) (Ok class)
               :: ev (GetPod (pod_key vs)) (Ok pod) :: t) w' →
  classes w !! volume.Class vs = Some class
  ∧ pods w !! (volume.PodNamespace vs, volume.Pod vs) = Some pod.
Proof.
  intros (Hc & Hp & _). split.
  - by apply handle_GetSecretClass in Hc.
  - apply handle_GetPod in Hp.
    by rewrite handle_cluster_frame in Hp.
Qed.





(** ** Unpublish *)

Lemma runs_NodeUnpublishVolume (req : csi.NodeUnpublishVolumeRequest.t)
    (t : list Event) (r : result csi.NodeUnpublishVolumeResponse) :
  csi.NodeUnpublishVolumeRequest.GetVolumeId req ≠ EmptyString →
  csi.NodeUnpublishVolumeRequest.GetTargetPath req ≠ EmptyString →
  runs (NodeUnpublishVolume req) t r →
  ∃ a b,
    t = [ev (Unmount (csi.NodeUnpublishVolumeRequest.GetTargetPath req)) a;
         ev (RemoveAll (csi.NodeUnpublishVolumeRequest.GetTargetPath req)) b]
    ∧ r = match b with
          | None => Ok csi.mkNodeUnpublishVolumeResponse
          | Some e => Err (status.Error codes.Internal (Error e))
          end.
Proof.
  intros Hid Htp. unfold NodeUnpublishVolume.
  rewrite !decide_False by done. simpl.
  intros (a & t1 & -> & b & t2 & -> & H). exists a, b.
  destruct b; simpl in H; destruct H as [-> ->]; done.
Qed.

Lemma exec_NodeUnpublishVolume (req : csi.NodeUnpublishVolumeRequest.t) (w : World) :
  csi.NodeUnpublishVolumeRequest.GetVolumeId req ≠ EmptyString →
  csi.NodeUnpublishVolumeRequest.GetTargetPath req ≠ EmptyString →
  let targetPath := csi.NodeUnpublishVolumeRequest.GetTargetPath req in
  let w1 := (handle (Unmount targetPath) w).2 in
  (exec (NodeUnpublishVolume req) w).1
  = match (handle (RemoveAll targetPath) w1).1 with
    | None => Ok csi.mkNodeUnpublishVolumeResponse
    | Some e => Err (status.Error codes.Internal (Error e))
    end
  ∧ (exec (NodeUnpublishVolume req) w).2 = (handle (RemoveAll targetPath) w1).2.
Proof.
  intros Hid Htp. unfold NodeUnpublishVolume.
  rewrite !decide_False by done. simpl.
  destruct (handle (Unmount _) w) as [a w1]. simpl.
  destruct (handle (RemoveAll _) w1) as [[e |] w2]; done.
Qed.

Lemma remove_all_lookup (f : gmap (list string) node) (p q : list string) :
  p `prefix_of` q → remove_all f p !! q = None.
Proof.
  intros Hpq. unfold remove_all. apply map_lookup_filter_None_2.
  right. intros x _ Hn. by apply Hn.
Qed.

Lemma mounted_under_at (ms : list MountPoint) (p : list string) :
  mounted_under ms p = false → mounted_at ms p = false.
Proof.
  unfold mounted_under, mounted_at. rewrite !bool_decide_eq_false.
  intros Hn Hat. apply Hn. eapply Exists_impl; [exact Hat |].
  intros m ->. done.
Qed.

(** The removal succeeds exactly when it is not made to fail, the path is
    not the root and nothing is mounted on it or under it; then the path
    and what was under it are gone. *)
Lemma handle_RemoveAll (path : string) (w : World) :
  (handle (RemoveAll path) w).1 = None
  ↔ faults w (clock w) (RemoveAll path) = None
    ∧ resolve path ≠ []
    ∧ mounted_under (mounts w) (resolve path) = false.
Proof.
  unfold handle. destruct (faults w (clock w) _); simpl.
  - split; [done | by intros [? _]].
  - destruct (decide (resolve path = [])) as [Hp | Hp].
    + rewrite (bool_decide_eq_true_2 _ Hp). simpl. split; [done | by intros (_ & ? & _)].
    + rewrite (bool_decide_eq_false_2 _ Hp). simpl.
      destruct (mounted_under (mounts w) (resolve path)); simpl;
        split; try done. by intros (_ & _ & ?).
Qed.

Lemma handle_RemoveAll_done (path : string) (w : World) :
  (handle (RemoveAll path) w).1 = None →
  fs (handle (RemoveAll path) w).2 = remove_all (fs w) (resolve path)
  ∧ mounts (handle (RemoveAll path) w).2 = mounts w.
Proof.
  intros H. pose proof (proj1 (handle_RemoveAll path w) H) as (Hf & Hp & Hm).
  unfold handle. rewrite Hf. simpl.
  by rewrite (bool_decide_eq_false_2 _ Hp), Hm.
Qed.

(** The unmount of a path that is not mounted fails, and changes nothing
    but the clock and the log. *)
Lemma handle_Unmount_not_mounted (target : string) (w : World) :
  mounted_at (mounts w) (resolve target) = false →
  (∃ e, (handle (Unmount target) w).1 = Some e)
  ∧ (handle (Unmount target) w).2 = tick (Unmount target) w.
Proof.
  intros Hm. unfold handle. destruct (faults w (clock w) _); simpl.
  - eauto.
  - rewrite Hm. eauto.
Qed.

(** The unmount keeps the schedule of the failures and advances the clock. *)
Lemma handle_Unmount_faults (target : string) (w : World) :
  faults (handle (Unmount target) w).2 = faults w
  ∧ clock (handle (Unmount target) w).2 = S (clock w).
Proof.
  unfold handle. destruct (faults w (clock w) _); simpl; [done |].
  by destruct (mounted_at (mounts w) (resolve target)).
Qed.

Lemma unmount_first_not_mounted (ms : list MountPoint) (p : list string) :
  mounted_at ms p = false → unmount_first ms p = ms.
Proof.
  unfold mounted_at. rewrite bool_decide_eq_false.
  induction ms as [| m ms IH]; [done |]. intros Hn. simpl.
  rewrite decide_False.
  - rewrite IH; [done |]. intros H. apply Hn. by right.
  - intros H. apply Hn. by left.
Qed.

(** The unmount that is not made to fail takes the most recent mount on
    the target off the table, if there is one. *)
Lemma handle_Unmount_mounts (target : string) (w : World) :
  faults w (clock w) (Unmount target) = None →
  mounts (handle (Unmount target) w).2 = unmount_first (mounts w) (resolve target).
Proof.
  intros Hf. unfold handle. rewrite Hf. simpl.
  destruct (mounted_at (mounts w) (resolve target)) eqn:Hm; simpl; [done |].
  by rewrite unmount_first_not_mounted.
Qed.

Lemma unpublish_clean (req : csi.NodeUnpublishVolumeRequest.t) (w : World) :
  csi.NodeUnpublishVolumeRequest.GetVolumeId req ≠ EmptyString →
  csi.NodeUnpublishVolumeRequest.GetTargetPath req ≠ EmptyString →
  let targetPath := csi.NodeUnpublishVolumeRequest.GetTargetPath req in
  faults w (clock w) (Unmount targetPath) = None →
  faults w (S (clock w)) (RemoveAll targetPath) = None →
  resolve targetPath ≠ [] →
  mounted_under (unmount_first (mounts w) (resolve targetPath)) (resolve targetPath)
  = false →
  (exec (NodeUnpublishVolume req) w).1 = Ok csi.mkNodeUnpublishVolumeResponse.
Proof.
  intros Hid Htp tp Hfu Hfr Hp Hm.
  rewrite (proj1 (exec_NodeUnpublishVolume req w Hid Htp)). fold tp.
  assert ((handle (RemoveAll tp) (handle (Unmount tp) w).2).1 = None) as ->; [| done].
  apply handle_RemoveAll.
  destruct (handle_Unmount_faults tp w) as [-> ->].
  by rewrite handle_Unmount_mounts.
Qed.

Lemma unpublish_done (req : csi.NodeUnpublishVolumeRequest.t) (w : World) :
  csi.NodeUnpublishVolumeRequest.GetVolumeId req ≠ EmptyString →
  csi.NodeUnpublishVolumeRequest.GetTargetPath req ≠ EmptyString →
  let p := resolve (csi.NodeUnpublishVolumeRequest.GetTargetPath req) in
  (exec (NodeUnpublishVolume req) w).1 = Ok csi.mkNodeUnpublishVolumeResponse →
  (∀ q, p `prefix_of` q → fs (exec (NodeUnpublishVolume req) w).2 !! q = None)
  ∧ p ≠ []
  ∧ mounted_under (mounts (exec (NodeUnpublishVolume req) w).2) p = false.
Proof.
  intros Hid Htp p.
  destruct (exec_NodeUnpublishVolume req w Hid Htp) as [-> ->].
  set (tp := csi.NodeUnpublishVolumeRequest.GetTargetPath req) in *.
  destruct (handle (RemoveAll tp) (handle (Unmount tp) w).2).1 as [e |] eqn:Hrm;
    [done |]. intros _.
  destruct (handle_RemoveAll_done tp _ Hrm) as [Hfs Hms].
  apply handle_RemoveAll in Hrm as (_ & Hp & Hm).
  rewrite Hfs, Hms. split; [| done].
  intros q Hq. by apply remove_all_lookup.
Qed.

Lemma unpublish_not_mounted (req : csi.NodeUnpublishVolumeRequest.t) (w : World) :
  csi.NodeUnpublishVolumeRequest.GetVolumeId req ≠ EmptyString →
  csi.NodeUnpublishVolumeRequest.GetTargetPath req ≠ EmptyString →
  let targetPath := csi.NodeUnpublishVolumeRequest.GetTargetPath req in
  resolve targetPath ≠ [] →
  mounted_under (mounts w) (resolve targetPath) = false →
  (∃ e, (handle (Unmount targetPath) w).1 = Some e)
  ∧ (faults w (S (clock w)) (RemoveAll targetPath) = None →
     (exec (NodeUnpublishVolume req) w).1 = Ok csi.mkNodeUnpublishVolumeResponse).
Proof.
  intros Hid Htp tp Hp Hm.
  destruct (handle_Unmount_not_mounted tp w (mounted_under_at _ _ Hm)) as [He Hw1].
  split; [done |]. intros Hf.
  rewrite (proj1 (exec_NodeUnpublishVolume req w Hid Htp)). fold tp.
  assert ((handle (RemoveAll tp) (handle (Unmount tp) w).2).1 = None) as ->; [| done].
  apply handle_RemoveAll. rewrite Hw1. simpl. done.
Qed.

Lemma path_exists_absent (f : gmap (list string) node) (p : list string) :
  p ≠ [] → f !! p = None → path_exists f p = false.
Proof.
  intros Hp Hf. destruct p; [done |]. simpl.
  apply bool_decide_eq_false_2. rewrite Hf. by intros [x ?].
Qed.

(** C5: NodeUnpublishVolume with a volume id and a target path makes two
    calls, Unmount and RemoveAll, and its result is decided by the answer
    of RemoveAll alone: success when the removal succeeds, a status of
    code Internal when it fails, whatever the unmount answered.  In the
    model: a call that succeeds leaves nothing at the target path nor
    under it; a call that is not made to fail succeeds when the target is
    not the root and carries no other mount than the one that is taken
    off; on a path on which nothing is mounted the unmount fails and
    the call still succeeds unless the removal is made to fail, whether
    the path exists or not; hence after a call that succeeded, a second
    call in a row succeeds too unless its removal is made to fail; and
    after a publish to the same target path, an unpublish that succeeds
    leaves no directory at that path. *)
Theorem NodeUnpublishVolume_is_idempotent (req : csi.NodeUnpublishVolumeRequest.t) :
  csi.NodeUnpublishVolumeRequest.GetVolumeId req ≠ EmptyString →
  csi.NodeUnpublishVolumeRequest.GetTargetPath req ≠ EmptyString →
  let targetPath := csi.NodeUnpublishVolumeRequest.GetTargetPath req in
  let unpublish := NodeUnpublishVolume req in
  let done := Ok csi.mkNodeUnpublishVolumeResponse in
  (∀ t r, runs unpublish t r →
     ∃ a b, t = [ev (Unmount targetPath) a; ev (RemoveAll targetPath) b]
            ∧ r = match b with
                  | None => done
                  | Some e => Err (status.Error codes.Internal (Error e))
                  end)
  ∧ (∀ w, (exec unpublish w).1 = done →
          path_exists (fs (exec unpublish w).2) (resolve targetPath) = false
          ∧ ∀ q, resolve targetPath `prefix_of` q → fs (exec unpublish w).2 !! q = None)
  ∧ (∀ w, faults w (clock w) (Unmount targetPath) = None →
          faults w (S (clock w)) (RemoveAll targetPath) = None →
          resolve targetPath ≠ [] →
          mounted_under (unmount_first (mounts w) (resolve targetPath))
                        (resolve targetPath) = false →
          (exec unpublish w).1 = done)
  ∧ (∀ w, resolve targetPath ≠ [] →
          mounted_under (mounts w) (resolve targetPath) = false →
          (∃ e, (handle (Unmount targetPath) w).1 = Some e)
          ∧ (faults w (S (clock w)) (RemoveAll targetPath) = None →
             (exec unpublish w).1 = done))
  ∧ (∀ w, (exec unpublish w).1 = done →
          let w1 := (exec unpublish w).2 in
          (∃ e, (handle (Unmount targetPath) w1).1 = Some e)
          ∧ (faults w1 (S (clock w1)) (RemoveAll targetPath) = None →
             (exec unpublish w1).1 = done
             ∧ path_exists (fs (exec unpublish w1).2) (resolve targetPath) = false))
  ∧ (∀ key sel publish w,
       csi.NodePublishVolumeRequest.GetTargetPath publish = targetPath →
       let w1 := (exec (NodePublishVolume key sel publish) w).2 in
       (exec unpublish w1).1 = done →
       path_exists (fs (exec unpublish w1).2) (resolve targetPath) = false).
Proof.
  intros Hid Htp. cbv zeta.
  assert (∀ w, (exec (NodeUnpublishVolume req) w).1 = Ok csi.mkNodeUnpublishVolumeResponse →
               path_exists (fs (exec (NodeUnpublishVolume req) w).2)
                 (resolve (csi.NodeUnpublishVolumeRequest.GetTargetPath req)) = false
               ∧ ∀ q, resolve (csi.NodeUnpublishVolumeRequest.GetTargetPath req) `prefix_of` q
                      → fs (exec (NodeUnpublishVolume req) w).2 !! q = None) as Hgone.
  { intros w Hok. destruct (unpublish_done req w Hid Htp Hok) as (Hq & Hp & _).
    split; [| done]. apply path_exists_absent; [done |]. by apply Hq. }
  split; [| split; [| split; [| split; [| split]]]].
  - intros t r. by apply runs_NodeUnpublishVolume.
  - exact Hgone.
  - intros w. by apply unpublish_clean.
  - intros w. by apply unpublish_not_mounted.
  - intros w Hok. destruct (unpublish_done req w Hid Htp Hok) as (_ & Hp & Hm).
    destruct (unpublish_not_mounted req _ Hid Htp Hp Hm) as [He Hagain].
    split; [done |]. intros Hf. split; [by apply Hagain |].
    apply Hgone. by apply Hagain.
  - intros key sel publish w _ Hok. by apply Hgone.
Qed.

Lemma NodeUnpublishVolume_is_idempotent_witness :
  let publish := NodePublishVolume sample_key sample_selector sample_request in
  let unpublish := NodeUnpublishVolume sample_unpublish in
  let w1 := (exec publish (sample_world None (Some 900))).2 in
  let w2 := (exec unpublish w1).2 in
  path_exists (fs w1) (resolve sample_target) = true
  ∧ mounted_at (mounts w1) (resolve sample_target) = true
  ∧ (exec unpublish w1).1 = Ok csi.mkNodeUnpublishVolumeResponse
  ∧ path_exists (fs w2) (resolve sample_target) = false
  ∧ (exec unpublish w2).1 = Ok csi.mkNodeUnpublishVolumeResponse.
Proof.
  cbv zeta.
  destruct (NodeUnpublishVolume_is_idempotent sample_unpublish)
    as (_ & _ & _ & _ & Hagain & Hpublished); [discriminate | discriminate |].
  split; [vm_compute; reflexivity |]. split; [vm_compute; reflexivity |].
  split; [vm_compute; reflexivity |]. split.
  - apply (Hpublished sample_key sample_selector sample_request
             (sample_world None (Some 900))); [reflexivity | vm_compute; reflexivity].
  - destruct (Hagain (exec (NodePublishVolume sample_key sample_selector sample_request)
                           (sample_world None (Some 900))).2) as [_ H];
      [vm_compute; reflexivity |].
    apply H. vm_compute. reflexivity.
Defined.

(** ** The content writer *)

Lemma handle_MapRange (m : gmap string string) (w : World) :
  handle (MapRange m) w = (range_order w m, tick (MapRange m) w).
Proof. unfold handle. by destruct (faults w (clock w) _). Qed.

(** A write that succeeds puts the file in place, with the mode of the
    call unless the file was there; a write that fails changes nothing. *)
Lemma handle_WriteFile (name data : string) (perm : N) (w : World) :
  match (handle (WriteFile name data perm) w).1 with
  | None => ∃ perm', fs (handle (WriteFile name data perm) w).2
                     = <[resolve name := File data perm']> (fs w)
  | Some _ => fs (handle (WriteFile name data perm) w).2 = fs w
  end.
Proof.
  unfold handle. destruct (faults w (clock w) _); simpl; [done |].
  destruct (is_dir (fs w) (parent (resolve name))); simpl; [| done].
  destruct (resolve name) as [| x p]; [done |].
  destruct (fs w !! (x :: p)) as [[pm | d pm] |]; simpl; eauto.
Qed.

(** Along the writes that succeeded, a file that no later entry rewrites
    with another content keeps its content. *)
Lemma history_written_keeps (targetPath : string) (entries : list (string * string))
    (w w' : World) (q : list string) (content : string) (perm : N) :
  history w (map (written targetPath) entries) w' →
  fs w !! q = Some (File content perm) →
  (∀ entry, entry ∈ entries → target_of targetPath entry = q → entry.2 = content) →
  ∃ perm', fs w' !! q = Some (File content perm').
Proof.
  revert w perm. induction entries as [| entry rest IH]; intros w perm;
    cbn [map history].
  - intros -> Hq _. eauto.
  - intros [Hok Hh] Hq Hsame.
    pose proof (handle_WriteFile (filepath.Join [targetPath; entry.1]) entry.2
                  mode_0644 w) as Hw.
    unfold written, ev in Hok. cbn [projT1 projT2] in Hok.
    unfold write_of in Hok. rewrite Hok in Hw.
    destruct Hw as [perm' Hfs].
    destruct (decide (target_of targetPath entry = q)) as [Heq | Hne].
    + eapply (IH _ perm' Hh).
      * unfold written, ev. cbn [projT1 projT2]. unfold write_of. rewrite Hfs.
        rewrite <- (Hsame entry); [| by left | done].
        unfold target_of in Heq. rewrite Heq. apply lookup_insert_eq.
      * intros entry' Hin. apply Hsame. by right.
    + eapply (IH _ perm Hh).
      * unfold written, ev. cbn [projT1 projT2]. unfold write_of. rewrite Hfs.
        by rewrite lookup_insert_ne.
      * intros entry' Hin. apply Hsame. by right.
Qed.

(** After the writes that succeeded, each entry that is settled has its
    file, with its content, at the join of the target path and its name. *)
Lemma history_written (targetPath : string) (entries : list (string * string))
    (w w' : World) (entry : string * string) :
  history w (map (written targetPath) entries) w' →
  entry ∈ entries → settled targetPath entries entry →
  ∃ perm, fs w' !! target_of targetPath entry = Some (File entry.2 perm).
Proof.
  revert w. induction entries as [| first rest IH]; intros w; cbn [map history].
  - intros _ Hin. by apply elem_of_nil in Hin.
  - intros [Hok Hh] Hin Hset.
    destruct (decide (entry = first)) as [-> | Hne].
    + pose proof (handle_WriteFile (filepath.Join [targetPath; first.1]) first.2
                    mode_0644 w) as Hw.
      unfold written, ev in Hok. cbn [projT1 projT2] in Hok.
    unfold write_of in Hok. rewrite Hok in Hw.
      destruct Hw as [perm' Hfs].
      eapply (history_written_keeps _ _ _ _ _ _ perm' Hh).
      * unfold written, ev. cbn [projT1 projT2]. unfold write_of. rewrite Hfs.
        apply lookup_insert_eq.
      * intros entry' Hin' Heq. apply Hset; [by right | done].
    + apply (IH _ Hh).
      * apply elem_of_cons in Hin as [? | ?]; done.
      * intros entry' Hin'. apply Hset. by right.
Qed.

(** ** Paths *)

Module filepath_facts.
Import filepath.

Lemma split_not_nil (sep : ascii) (s : string) : split sep s ≠ [].
Proof.
  destruct s as [| c s]; simpl; [done |].
  case_decide; [done |]. by destruct (split sep s).
Qed.

Lemma split_app_sep (sep : ascii) (a b : string) :
  split sep (a +:+ String sep b) = (split sep a ++ split sep b)%list.
Proof.
  induction a as [| c a IH]; simpl.
  - by rewrite decide_True.
  - case_decide; [by rewrite IH |].
    rewrite IH. pose proof (split_not_nil sep a) as Hne.
    by destruct (split sep a).
Qed.

(** The elements of a split hold no separator. *)
Lemma split_elem (sep : ascii) (s x : string) :
  x ∈ split sep s → split sep x = [x].
Proof.
  revert x. induction s as [| c s IH]; intros x; simpl.
  - intros ->%list_elem_of_singleton. done.
  - case_decide as Hc.
    + intros [-> | Hin]%elem_of_cons; [done | by apply IH].
    + pose proof (split_not_nil sep s) as Hne.
      destruct (split sep s) as [| y ys] eqn:Hs; [done |].
      intros [-> | Hin]%elem_of_cons.
      * simpl. rewrite decide_False by done.
        rewrite (IH y); [done | by left].
      * apply IH. by right.
Qed.

Lemma split_concat (l : list string) :
  l ≠ [] → Forall (λ x, split "/" x = [x]) l →
  split "/" (String.concat "/" l) = l.
Proof.
  induction l as [| x [| y ys] IH]; [done | |].
  - intros _ [Hx _]%Forall_cons. done.
  - intros _ [Hx Hl]%Forall_cons.
    change (String.concat "/" (x :: y :: ys))
      with (x +:+ String "/" (String.concat "/" (y :: ys))).
    rewrite split_app_sep, Hx, IH; done.
Qed.

Lemma concat_empty (l : list string) :
  Forall (λ x, x ≠ EmptyString) l → String.concat "/" l = EmptyString → l = [].
Proof.
  destruct l as [| x [| y ys]]; [done | |].
  - intros [Hx _]%Forall_cons. simpl. done.
  - intros [Hx _]%Forall_cons.
    change (String.concat "/" (x :: y :: ys))
      with (x +:+ String "/" (String.concat "/" (y :: ys))).
    destruct x; [done | discriminate].
Qed.

(** What Clean keeps comes from the path or from what was kept before. *)
Lemma clean_elems_elem (rooted : bool) (elems out : list string) (x : string) :
  x ∈ clean_elems rooted elems out → x ∈ elems ∨ x ∈ out.
Proof.
  revert out. induction elems as [| e elems IH]; intros out; simpl.
  - rewrite elem_of_reverse. by right.
  - intros Hin.
    assert (∀ out', x ∈ clean_elems rooted elems out' →
                    (∀ y, y ∈ out' → y = e ∨ y ∈ out) →
                    x ∈ e :: elems ∨ x ∈ out) as Hstep.
    { intros out' Hx Hout. apply IH in Hx as [Hx | Hx].
      - left. by right.
      - destruct (Hout _ Hx) as [-> | Hy]; [left; by left | by right]. }
    repeat case_decide; repeat case_match; subst;
      (eapply Hstep; [exact Hin |]); intros y Hy;
      rewrite ?elem_of_cons in *; naive_solver.
Qed.

Lemma clean_elems_nonempty (rooted : bool) (elems out : list string) :
  Forall (λ x, x ≠ EmptyString) out →
  Forall (λ x, x ≠ EmptyString) (clean_elems rooted elems out).
Proof.
  revert out. induction elems as [| e elems IH]; intros out Hout; simpl.
  - by apply Forall_reverse.
  - destruct (decide (e = EmptyString)); [by apply IH |].
    destruct (decide (e = ".")); [by apply IH |].
    destruct (decide (e = "..")) as [-> | Hdd].
    + destruct out as [| top out'].
      * destruct rooted; apply IH; [done |]. by apply Forall_singleton.
      * pose proof Hout as [Htop Hout']%Forall_cons.
        destruct (decide (top = "..")); apply IH; [| done].
        apply Forall_cons. by split.
    + apply IH. apply Forall_cons. by split.
Qed.

(** On names alone Clean changes nothing. *)
Lemma clean_elems_real (l out : list string) :
  Forall real l → clean_elems true l out = (reverse out ++ l)%list.
Proof.
  revert out. induction l as [| e l IH]; intros out; simpl.
  - by rewrite app_nil_r.
  - intros [(H1 & H2 & H3) Hl]%Forall_cons.
    rewrite !decide_False by done. rewrite IH by done.
    rewrite reverse_cons. by rewrite <- app_assoc.
Qed.

Lemma clean_elems_rooted_real (elems out : list string) :
  Forall real out → Forall real (clean_elems true elems out).
Proof.
  revert out. induction elems as [| e elems IH]; intros out Hout; simpl.
  - by apply Forall_reverse.
  - destruct (decide (e = EmptyString)); [by apply IH |].
    destruct (decide (e = ".")); [by apply IH |].
    destruct (decide (e = "..")) as [-> | Hdd].
    + destruct out as [| top out']; [by apply IH |].
      pose proof Hout as [(_ & _ & Htop) Hout']%Forall_cons.
      rewrite decide_False by done. by apply IH.
    + apply IH. apply Forall_cons. by split.
Qed.

(** A path that is not rooted is cleaned as from the root, but for the
    parent elements that the root would absorb. *)
Lemma clean_elems_relative (elems out : list string) (k : nat) :
  Forall real out →
  ∃ k', clean_elems false elems (out ++ replicate k "..")%list
        = (replicate k' ".." ++ clean_elems true elems out)%list.
Proof.
  revert out k. induction elems as [| e elems IH]; intros out k Hout; simpl.
  - exists k. by rewrite reverse_app, reverse_replicate.
  - destruct (decide (e = EmptyString)); [by apply IH |].
    destruct (decide (e = ".")); [by apply IH |].
    destruct (decide (e = "..")) as [-> | Hdd].
    + destruct out as [| top out']; simpl.
      * destruct k as [| k]; simpl.
        -- apply (IH [] 1%nat). done.
        -- apply (IH [] (S (S k))). done.
      * apply Forall_cons in Hout as [(_ & _ & Htop) Hout'].
        rewrite !decide_False by done. by apply IH.
    + apply (IH (e :: out) k). apply Forall_cons. by split.
Qed.

Lemma clean_elems_parents (k : nat) (l : list string) :
  clean_elems true (replicate k ".." ++ l)%list [] = clean_elems true l [].
Proof. induction k as [| k IH]; simpl; done. Qed.

Lemma clean_elems_app (rooted : bool) (l1 l2 out : list string) :
  clean_elems rooted (l1 ++ l2)%list out
  = clean_elems rooted l2 (reverse (clean_elems rooted l1 out)).
Proof.
  revert out. induction l1 as [| e l1 IH]; intros out; simpl.
  - by rewrite reverse_involutive.
  - repeat case_decide; repeat case_match; apply IH.
Qed.

(** The model resolves a cleaned path as it resolves the path. *)
Lemma resolve_Clean (path : string) : resolve (Clean path) = resolve path.
Proof.
  unfold Clean.
  set (c := clean_elems (is_rooted path) (split "/" path) []).
  assert (Forall (λ x, x ≠ EmptyString) c) as Hne.
  { by apply clean_elems_nonempty. }
  assert (Forall (λ x, split "/" x = [x]) c) as Hsp.
  { apply Forall_forall. intros x [Hx | Hx]%clean_elems_elem.
    - by eapply split_elem.
    - by apply elem_of_nil in Hx. }
  assert (Forall real (resolve path)) as Hreal.
  { by apply clean_elems_rooted_real. }
  assert (∀ l, Forall real l → clean_elems true l [] = l) as Hid.
  { intros l Hl. by rewrite clean_elems_real. }
  destruct (is_rooted path) eqn:Hr.
  - assert (c = resolve path) as Hc by done.
    rewrite decide_False by done.
    change ("/" +:+ String.concat "/" c) with (String "/" (String.concat "/" c)).
    unfold resolve at 1. simpl.
    destruct (decide (c = [])) as [Hnil | Hnil].
    + rewrite Hnil. simpl. by rewrite <- Hc.
    + rewrite split_concat by done. rewrite Hc. by apply Hid.
  - destruct (clean_elems_relative (split "/" path) [] 0) as [k Hk]; [done |].
    simpl in Hk. fold c in Hk. fold (resolve path) in Hk.
    change (EmptyString +:+ String.concat "/" c) with (String.concat "/" c).
    destruct (decide (String.concat "/" c = EmptyString)) as [He | He].
    + apply concat_empty in He; [| done]. rewrite He in Hk.
      symmetry in Hk. apply app_eq_nil in Hk as [_ ->]. done.
    + assert (c ≠ []) as Hnil by (by intros ->).
      unfold resolve at 1. rewrite split_concat by done.
      rewrite Hk, clean_elems_parents. by apply Hid.
Qed.

(** The model resolves the join of a target path and a name by walking
    the elements of the name from the target path. *)
Lemma resolve_Join (targetPath name : string) :
  targetPath ≠ EmptyString →
  resolve (Join [targetPath; name])
  = clean_elems true (split "/" name) (reverse (resolve targetPath)).
Proof.
  intros Htp. unfold Join. rewrite decide_False by done.
  rewrite resolve_Clean. unfold resolve.
  change (String.concat "/" [targetPath; name])
    with (targetPath +:+ String "/" name).
  by rewrite split_app_sep, clean_elems_app.
Qed.

(** A plain file name lands in the target directory. *)
Lemma resolve_Join_name (targetPath name : string) :
  targetPath ≠ EmptyString → real name → split "/" name = [name] →
  resolve (Join [targetPath; name]) = (resolve targetPath ++ [name])%list.
Proof.
  intros Htp (H1 & H2 & H3) Hs. rewrite resolve_Join by done. rewrite Hs. simpl.
  rewrite !decide_False by done. by rewrite reverse_cons, reverse_involutive.
Qed.

End filepath_facts.

(** ** The files that writeData leaves *)

Lemma history_written_frame (targetPath : string) (entries : list (string * string))
    (w w' : World) (q : list string) :
  history w (map (written targetPath) entries) w' →
  (∀ entry, entry ∈ entries → target_of targetPath entry ≠ q) →
  fs w' !! q = fs w !! q.
Proof.
  revert w. induction entries as [| entry rest IH]; intros w; cbn [map history].
  - by intros ->.
  - intros [Hok Hh] Hq.
    pose proof (handle_WriteFile (filepath.Join [targetPath; entry.1]) entry.2
                  mode_0644 w) as Hw.
    unfold written, ev in Hok. cbn [projT1 projT2] in Hok.
    unfold write_of in Hok. rewrite Hok in Hw. destruct Hw as [perm' Hfs].
    rewrite (IH _ Hh).
    + unfold written, ev. cbn [projT1 projT2]. unfold write_of. rewrite Hfs.
      apply lookup_insert_ne. apply Hq. by left.
    + intros entry' Hin. apply Hq. by right.
Qed.

(** What writeData leaves in the model: the entries that it wrote are a
    prefix of the entries in the order of the iteration, all of them when
    it returns nil; each of them that is settled has its file with its
    content; no other place of the file system has changed. *)
Lemma writeData_model (targetPath : string) (data : gmap string string) (w : World) :
  ∃ wrote,
    wrote `prefix_of` range_order w data
    ∧ ((exec (writeData targetPath data) w).1 = None → wrote = range_order w data)
    ∧ (∀ entry, entry ∈ wrote → settled targetPath wrote entry →
         ∃ perm, fs (exec (writeData targetPath data) w).2 !! target_of targetPath entry
                 = Some (File entry.2 perm))
    ∧ (∀ q, (∀ entry, entry ∈ wrote → target_of targetPath entry ≠ q) →
            fs (exec (writeData targetPath data) w).2 !! q = fs w !! q).
Proof.
  destruct (exec_trace_in (writeData targetPath data) w) as [Hr Hh].
  remember (trace_in (writeData targetPath data) w) as t eqn:Ht. clear Ht.
  remember (exec (writeData targetPath data) w) as x eqn:Hx. clear Hx.
  destruct x as [r w']. simpl in Hr, Hh |- *.
  apply runs_writeData in Hr as (entries & t' & -> & Hw).
  destruct Hh as [Hentries Hh]. cbn [projT1 projT2 ev] in Hentries, Hh.
  rewrite handle_MapRange in Hentries, Hh. simpl in Hentries, Hh. subst entries.
  destruct Hw as [| before after entry e Heq].
  - exists (range_order w data). split; [done |]. split; [done |]. split.
    + intros entry Hin Hset. by eapply history_written.
    + intros q Hq. by rewrite (history_written_frame _ _ _ _ _ Hh Hq).
  - exists before. split; [rewrite Heq; by apply prefix_app_r |].
    split; [done |].
    apply history_app in Hh as (w1 & Hh1 & Hfail & ->).
    cbn [projT1 projT2 ev] in Hfail |- *.
    pose proof (handle_WriteFile (filepath.Join [targetPath; entry.1]) entry.2
                  mode_0644 w1) as Hw1.
    unfold write_of in Hfail. rewrite Hfail in Hw1. unfold write_of. rewrite Hw1.
    split.
    + intros entry' Hin Hset. by eapply history_written.
    + intros q Hq. by rewrite (history_written_frame _ _ _ _ _ Hh1 Hq).
Qed.

Lemma exec_writeData (targetPath : string) (data : gmap string string) (w : World) :
  exec (writeData targetPath data) w
  = exec (writeData_range targetPath (range_order w data)) (tick (MapRange data) w).
Proof.
  unfold writeData. simpl. by rewrite handle_MapRange.
Qed.

Lemma exec_writeData_range_cons (targetPath : string) (entry : string * string)
    (rest : list (string * string)) (w : World) :
  exec (writeData_range targetPath (entry :: rest)) w
  = match (handle (write_of targetPath entry) w).1 with
    | Some e => (Some e, (handle (write_of targetPath entry) w).2)
    | None => exec (writeData_range targetPath rest) (handle (write_of targetPath entry) w).2
    end.
Proof.
  destruct entry as [name content]. unfold write_of. simpl.
  destruct (handle _ w) as [[e |] w']; done.
Qed.

Lemma parent_snoc (p : list string) (x : string) : parent (p ++ [x]) = p.
Proof.
  unfold parent. rewrite length_app. simpl.
  replace (length p + 1 - 1)%nat with (length p) by lia.
  by rewrite take_app_length.
Qed.


Lemma is_dir_insert_file (f : gmap (list string) node) (p q : list string)
    (data : string) (perm : N) :
  p ≠ q → is_dir (<[p := File data perm]> f) q = is_dir f q.
Proof.
  intros Hpq. destruct q as [| x q]; [done |]. simpl.
  by rewrite lookup_insert_ne.
Qed.





(** ** File names that leave the target directory *)

Lemma resolve_Join_parent (targetPath name : string) :
  targetPath ≠ EmptyString → filepath.real name → filepath.split "/" name = [name] →
  resolve (filepath.Join [targetPath; "../" +:+ name])
  = (parent (resolve targetPath) ++ [name])%list.
Proof.
  intros Htp (H1 & H2 & H3) Hs. rewrite filepath_facts.resolve_Join by done.
  change ("../" +:+ name) with (".." +:+ String "/" name).
  rewrite filepath_facts.split_app_sep, Hs. simpl.
  destruct (reverse (resolve targetPath)) as [| top rest] eqn:Hrev.
  - apply (f_equal reverse) in Hrev. rewrite reverse_involutive in Hrev.
    rewrite Hrev. simpl. by rewrite !decide_False by done.
  - assert (top ≠ "..") as Htop.
    { assert (Forall filepath.real (resolve targetPath)) as Hreal.
      { by apply filepath_facts.clean_elems_rooted_real. }
      apply Forall_reverse in Hreal. rewrite Hrev in Hreal.
      by apply Forall_cons in Hreal as [(_ & _ & ?) _]. }
    rewrite !decide_False by done.
    apply (f_equal reverse) in Hrev. rewrite reverse_involutive, reverse_cons in Hrev.
    rewrite Hrev, parent_snoc. by rewrite reverse_cons.
Qed.

(** C10: writeData has no guard on the names.  An error that it returns
    is the answer of a WriteFile call, never a rejection of its own.  For
    a map with the name ../escape it calls WriteFile with the join of the
    target path and that name, which the model resolves to the file
    escape in the parent of the target directory, and returns what the
    write returns.  Published from a backend that gives that name, the
    file is written next to the volume, outside of the mounted
    directory, and the publish succeeds. *)
Theorem writeData_follows_parent_segments :
  (∀ targetPath data t r e,
     runs (writeData targetPath data) t r → r = Some e →
     ∃ t0 entry, t = (t0 ++ [ev (write_of targetPath entry) (Some e)])%list)
  ∧ (∀ targetPath content t r,
       let data : gmap string string := {[ "../escape" := content ]} in
       runs (writeData targetPath data) (ev (MapRange data) (map_to_list data) :: t) r →
       ∃ a, t = [ev (WriteFile (filepath.Join [targetPath; "../escape"]) content
                    mode_0644) a]
            ∧ r = a)
  ∧ (∀ targetPath,
       targetPath ≠ EmptyString →
       resolve (filepath.Join [targetPath; "../escape"])
       = (parent (resolve targetPath) ++ ["escape"])%list)
  ∧ filepath.Join [sample_target; "../escape"] = "/var/lib/kubelet/pods/1/escape"
  ∧ ¬ resolve sample_target `prefix_of` resolve (filepath.Join [sample_target; "../escape"])
  ∧ (let publish := NodePublishVolume sample_key sample_selector sample_request in
     (exec publish escaping_world).1 = Ok csi.mkNodePublishVolumeResponse
     ∧ WriteFile "/var/lib/kubelet/pods/1/escape" "body" mode_0644
         ∈ log (exec publish escaping_world).2
     ∧ fs (exec publish escaping_world).2 !! ["var"; "lib"; "kubelet"; "pods"; "1"; "escape"]
       = Some (File "body" mode_0644)
     ∧ Path <$> mounts (exec publish escaping_world).2
       = [["var"; "lib"; "kubelet"; "pods"; "1"; "mount"]]).
Proof.
  split; [| split; [| split; [| split; [| split]]]].
  - intros targetPath data t r e (entries & t' & -> & Hw)%runs_writeData Hr.
    destruct Hw as [| before after entry e' Heq]; [discriminate |].
    injection Hr as ->.
    exists (ev (MapRange data) entries :: map (written targetPath) before), entry.
    done.
  - intros targetPath content t r data (entries & t' & Heq & Hw)%runs_writeData.
    apply ev_cons_inj in Heq as [<- <-].
    unfold data in Hw. rewrite map_to_list_singleton in Hw.
    inversion Hw as [| before after entry e Heq]; subst.
    + by exists None.
    + exists (Some e). destruct before as [| b before].
      * by injection Heq as <-.
      * injection Heq as _ Heq. by destruct before.
  - intros targetPath Htp. by apply resolve_Join_parent.
  - reflexivity.
  - intros H. vm_compute in H. destruct H as [rest H]. discriminate H.
  - cbv zeta. split; [vm_compute; reflexivity |]. split; [| split].
    + apply list_elem_of_In. vm_compute. tauto.
    + vm_compute. reflexivity.
    + vm_compute. reflexivity.
Qed.

Lemma writeData_follows_parent_segments_witness :
  resolve (filepath.Join [sample_target; "../escape"])
  = (parent (resolve sample_target) ++ ["escape"])%list
  ∧ ∃ a, trace_in (writeData_range sample_target [("../escape", "body")]) escaping_world
         = [ev (WriteFile (filepath.Join [sample_target; "../escape"]) "body" mode_0644) a].
Proof.
  destruct writeData_follows_parent_segments as (_ & Hrun & Hjoin & _).
  split.
  - apply (Hjoin sample_target). discriminate.
  - destruct (Hrun sample_target "body"
                (trace_in (writeData_range sample_target [("../escape", "body")])
                          escaping_world)
                (exec (writeData_range sample_target [("../escape", "body")])
                      escaping_world).1) as [a [Ha _]].
    + apply runs_writeData_range_intro. rewrite map_to_list_singleton.
      exact (proj1 (exec_trace_in (writeData_range sample_target
                                     [("../escape", "body")]) escaping_world)).
    + by exists a.
Defined.

(** ** The pipeline on the sample world *)

(** The annotation of the sample pod in the cluster after a publish. *)
Example publish_sooner_expiry :
  let prior := Some ({[ sample_key := "1000" ]} : gmap string string) in
  let w' := (exec (NodePublishVolume sample_key sample_selector sample_request)
                  (sample_world prior (Some 900))).2 in
  (λ pod, index (corev1.Annotations pod) sample_key) <$> pods w' !! ("default", "web")
  = Some (Some "900").
Proof. vm_compute. reflexivity. Qed.

Example publish_later_expiry :
  let prior := Some ({[ sample_key := "1000" ]} : gmap string string) in
  let w' := (exec (NodePublishVolume sample_key sample_selector sample_request)
                  (sample_world prior (Some 1500))).2 in
  (λ pod, index (corev1.Annotations pod) sample_key) <$> pods w' !! ("default", "web")
  = Some (Some "1000").
Proof. vm_compute. reflexivity. Qed.

Example publish_first_expiry :
  let w' := (exec (NodePublishVolume sample_key sample_selector sample_request)
                  (sample_world None (Some 500))).2 in
  (λ pod, index (corev1.Annotations pod) sample_key) <$> pods w' !! ("default", "web")
  = Some (Some "500").
Proof. vm_compute. reflexivity. Qed.

Example publish_no_expiry :
  let w' := (exec (NodePublishVolume sample_key sample_selector sample_request)
                  (sample_world None None)).2 in
  pods w' = pods (sample_world None None)
  ∧ Forall (λ c, cluster_write c = false) (log w').
Proof. split; [reflexivity |]. vm_compute. repeat constructor. Qed.

(** The calls of a publish that succeeds, in their order. *)
Example publish_calls :
  (λ c, match c with
        | PathExists _ => "PathExists"
        | MkdirAll _ _ => "MkdirAll"
        | Mount _ _ _ _ => "Mount"
        | Unmount _ => "Unmount"
        | RemoveAll _ => "RemoveAll"
        | WriteFile _ _ _ => "WriteFile"
        | GetSecretClass _ => "GetSecretClass"
        | GetPod _ => "GetPod"
        | Patch _ _ => "Patch"
        | GetSecretData _ _ _ => "GetSecretData"
        | MapRange _ => "range"
        end)
    <$> log (exec (NodePublishVolume sample_key sample_selector sample_request)
                  (sample_world None (Some 500))).2
  = ["GetSecretClass"; "GetPod"; "GetSecretData"; "PathExists"; "MkdirAll"; "Mount";
     "range"; "WriteFile"; "WriteFile"; "Patch"].
Proof. vm_compute. reflexivity. Qed.

(** A second publish to the same target path is refused. *)
Example publish_twice :
  let publish := NodePublishVolume sample_key sample_selector sample_request in
  let w1 := (exec publish (sample_world None None)).2 in
  (exec publish w1).1 = Err (status.Error codes.Internal "target path already exists").
Proof. vm_compute. reflexivity. Qed.

(** An unmount that is made to fail leaves the volume mounted, and the
    removal, and the unpublish with it, fails. *)
Example unpublish_busy :
  let publish := NodePublishVolume sample_key sample_selector sample_request in
  let w1 := (exec publish (sample_world None None)).2 in
  let stuck := {| fs := fs w1; mounts := mounts w1; classes := classes w1;
                  pods := pods w1; backend := backend w1;
                  range_order := range_order w1;
                  faults := λ _ c, match c with
                                   | Unmount _ => Some (SysError "target is busy")
                                   | _ => None
                                   end;
                  clock := clock w1; log := log w1 |} in
  ∃ msg, (exec (NodeUnpublishVolume sample_unpublish) stuck).1
         = Err (status.Error codes.Internal msg).
Proof. eexists. vm_compute. reflexivity. Qed.
(** ** Further properties: the gate of a publish *)

Lemma validate_accepts (req : csi.NodePublishVolumeRequest.t) :
  validateNodePublishVolumeRequest req = None
  ↔ csi.NodePublishVolumeRequest.GetVolumeId req ≠ EmptyString
    ∧ csi.NodePublishVolumeRequest.GetTargetPath req ≠ EmptyString
    ∧ csi.NodePublishVolumeRequest.GetVolumeCapability req ≠ None
    ∧ len (csi.NodePublishVolumeRequest.GetVolumeContext req) ≠ 0%nat.
Proof.
  unfold validateNodePublishVolumeRequest.
  destruct (decide (csi.NodePublishVolumeRequest.GetVolumeId req = EmptyString));
    [split; [discriminate | intros (? & ? & ? & ?); congruence] |].
  destruct (decide (csi.NodePublishVolumeRequest.GetTargetPath req = EmptyString));
    [split; [discriminate | intros (? & ? & ? & ?); congruence] |].
  destruct (decide (csi.NodePublishVolumeRequest.GetVolumeCapability req = None));
    [split; [discriminate | intros (? & ? & ? & ?); congruence] |].
  destruct (bool_decide _ || bool_decide _) eqn:Hb.
  - split; [discriminate |]. intros (_ & _ & _ & Hlen).
    apply orb_true_iff in Hb as [Hb%bool_decide_eq_true | Hb%bool_decide_eq_true].
    + rewrite Hb in Hlen. done.
    + done.
  - apply orb_false_iff in Hb as [_ Hb%bool_decide_eq_false]. done.
Qed.

(** X1: a publish request with its four fields present is still rejected,
    with the code InvalidArgument and before any call, when the parser of
    the volume context fails (the text is that of its error) or gives a
    selector without a class ("Secret class name missing in request").
    When the selector has a class, every execution starts with the read
    of the secret class under that name and under no namespace. *)
Theorem NodePublishVolume_needs_a_class
    (key : string) (sel : gomap → result volume.VolumeSelector)
    (req : csi.NodePublishVolumeRequest.t) :
  csi.NodePublishVolumeRequest.GetVolumeId req ≠ EmptyString →
  csi.NodePublishVolumeRequest.GetTargetPath req ≠ EmptyString →
  csi.NodePublishVolumeRequest.GetVolumeCapability req ≠ None →
  len (csi.NodePublishVolumeRequest.GetVolumeContext req) ≠ 0%nat →
  let context := csi.NodePublishVolumeRequest.GetVolumeContext req in
  (∀ e, sel context = Err e →
        NodePublishVolume key sel req
        = Ret (Err (status.Error codes.InvalidArgument (Error e))))
  ∧ (∀ vs, sel context = Ok vs → volume.Class vs = EmptyString →
           NodePublishVolume key sel req
           = Ret (Err (status.Error codes.InvalidArgument
                         "Secret class name missing in request")))
  ∧ (∀ vs, sel context = Ok vs → volume.Class vs ≠ EmptyString →
           ∀ t r, runs (NodePublishVolume key sel req) t r →
                  ∃ a t', t = ev (GetSecretClass {| client.Namespace := EmptyString;
                                                    client.Name := volume.Class vs |}) a
                              :: t').
Proof.
  intros Hid Htp Hcap Hctx. cbv zeta.
  assert (validateNodePublishVolumeRequest req = None) as Hv
    by by apply validate_accepts.
  unfold NodePublishVolume. rewrite Hv.
  rewrite decide_False by done.
  split; [| split].
  - by intros e ->.
  - intros vs -> Hc. by rewrite decide_True.
  - intros vs -> Hc. rewrite decide_False by done.
    intros t r (t1 & t2 & a & -> & ->%runs_call & _)%runs_mbind.
    by eexists _, _.
Qed.

Lemma NodePublishVolume_needs_a_class_witness :
  NodePublishVolume sample_key sample_selector classless_request
  = Ret (Err (status.Error codes.InvalidArgument "Secret class name missing in request"))
  ∧ ∃ a t', trace_in (NodePublishVolume sample_key sample_selector sample_request)
                     classless_world
            = ev (GetSecretClass {| client.Namespace := EmptyString;
                                    client.Name := "tls" |}) a :: t'.
Proof.
  split.
  - apply (proj1 (proj2 (NodePublishVolume_needs_a_class
                           sample_key sample_selector classless_request
                           ltac:(discriminate) ltac:(discriminate) ltac:(discriminate)
                           ltac:(vm_compute; discriminate)))
             {| volume.Class := EmptyString; volume.Pod := "web";
                volume.PodNamespace := "default" |});
      vm_compute; reflexivity.
  - apply (proj2 (proj2 (NodePublishVolume_needs_a_class
                           sample_key sample_selector sample_request
                           ltac:(discriminate) ltac:(discriminate) ltac:(discriminate)
                           ltac:(vm_compute; discriminate)))
             {| volume.Class := "tls"; volume.Pod := "web";
                volume.PodNamespace := "default" |})
      with (r := (exec (NodePublishVolume sample_key sample_selector sample_request)
                       classless_world).1);
      [vm_compute; reflexivity | discriminate
      | exact (proj1 (exec_trace_in _ classless_world))].
Defined.

(** ** Further properties: the order of a publish *)

Ltac publish_cases Hr :=
  destruct Hr as [msg Hnone | vs e' Hsel | vs class e' Hsel | vs class pod' e' Hsel
                 | vs class pod' content' tm e' Hsel Hm
                 | vs class pod' content' tm entries tw e' Hsel Hm Hw
                 | vs class pod' content' tm entries tw tu e' Hsel Hm Hw Hupd
                 | vs class pod' content' tm entries tw tu Hsel Hm Hw Hupd].

Lemma calls_app (t1 t2 : list Event) : calls (t1 ++ t2) = (calls t1 ++ calls t2)%list.
Proof. unfold calls. apply map_app. Qed.

Lemma history_frame (t : list Event) (w w' : World) :
  history w t w' →
  Forall (λ c, node_write c = false ∧ cluster_write c = false) (calls t) →
  fs w' = fs w ∧ mounts w' = mounts w ∧ pods w' = pods w.
Proof.
  intros Hh Hall.
  destruct (history_node_frame t w w' Hh) as [-> ->].
  { eapply Forall_impl; [exact Hall |]. by intros c [? ?]. }
  rewrite (history_cluster_frame t w w' Hh); [done |].
  eapply Forall_impl; [exact Hall |]. by intros c [? ?].
Qed.

Lemma publish_run_failed_read
    (key : string) (sel : gomap → result volume.VolumeSelector)
    (req : csi.NodePublishVolumeRequest.t) (t : list Event)
    (r : result csi.NodePublishVolumeResponse) (e : error) :
  publish_run key sel req t r →
  first_answer class_answer t = Some (Err e)
  ∨ first_answer pod_answer t = Some (Err e)
  ∨ first_answer data_answer t = Some (Err e) →
  r = Err (internal e)
  ∧ Forall (λ c, node_write c = false ∧ cluster_write c = false) (calls t).
Proof.
  intros Hr He.
  publish_cases Hr; unfold first_answer, resolved in He; simpl in He;
    destruct He as [He | [He | He]]; simplify_eq;
    (split; [done |]); unfold calls; simpl; repeat constructor.
Qed.

(** X2: when the read of the secret class, the read of the pod or the
    backend fails, NodePublishVolume returns a status of code Internal
    with the text of that error, and it has made no call that writes to
    the node or to the cluster.  In the model the file system, the mount
    table and the pods are as before. *)
Theorem failed_read_touches_nothing
    (key : string) (sel : gomap → result volume.VolumeSelector)
    (req : csi.NodePublishVolumeRequest.t) :
  let publish := NodePublishVolume key sel req in
  (∀ t r e,
     runs publish t r →
     first_answer class_answer t = Some (Err e)
     ∨ first_answer pod_answer t = Some (Err e)
     ∨ first_answer data_answer t = Some (Err e) →
     r = Err (status.Error codes.Internal (Error e))
     ∧ Forall (λ c, node_write c = false ∧ cluster_write c = false) (calls t))
  ∧ (∀ w e,
       first_answer class_answer (trace_in publish w) = Some (Err e)
       ∨ first_answer pod_answer (trace_in publish w) = Some (Err e)
       ∨ first_answer data_answer (trace_in publish w) = Some (Err e) →
       (exec publish w).1 = Err (status.Error codes.Internal (Error e))
       ∧ fs (exec publish w).2 = fs w
       ∧ mounts (exec publish w).2 = mounts w
       ∧ pods (exec publish w).2 = pods w).
Proof.
  cbv zeta. split.
  - intros t r e Hr%runs_NodePublishVolume He.
    by apply (publish_run_failed_read key sel req).
  - intros w e He.
    destruct (exec_trace_in (NodePublishVolume key sel req) w) as [Hr Hh].
    apply runs_NodePublishVolume in Hr.
    destruct (publish_run_failed_read key sel req _ _ e Hr He) as [Hres Hall].
    split; [exact Hres |]. exact (history_frame _ _ _ Hh Hall).
Qed.

Lemma failed_read_touches_nothing_witness :
  let publish := NodePublishVolume sample_key sample_selector sample_request in
  (exec publish classless_world).1
  = Err (status.Error codes.Internal
           (Error (not_found "secretclasses.secrets.zncdata.dev" "tls")))
  ∧ fs (exec publish classless_world).2 = fs classless_world
  ∧ mounts (exec publish classless_world).2 = mounts classless_world
  ∧ pods (exec publish classless_world).2 = pods classless_world.
Proof.
  apply (proj2 (failed_read_touches_nothing sample_key sample_selector sample_request)
           classless_world).
  left. vm_compute. reflexivity.
Defined.

Lemma mount_run_calls (targetPath : string) (t : list Event) (r : option error) :
  mount_run targetPath t r →
  Forall (λ c, cluster_write c = false ∧ removal c = false) (calls t).
Proof. intros Hm. inversion Hm; subst; unfold calls; simpl; repeat constructor. Qed.

Lemma write_run_quiet (targetPath : string) (entries : list (string * string))
    (t : list Event) (r : option error) :
  write_run targetPath entries t r →
  Forall (λ c, cluster_write c = false ∧ removal c = false) (calls t).
Proof.
  intros Hw%write_run_calls. eapply Forall_impl; [exact Hw |].
  by intros c [entry ->].
Qed.

Lemma written_succeeded (targetPath : string) (entries : list (string * string)) :
  forallb succeeded (map (written targetPath) entries) = true.
Proof. induction entries as [| entry rest IH]; [done |]. simpl. exact IH. Qed.

(** The calls of a publish up to the end of the writes. *)
Lemma publish_prefix_quiet (vs : volume.VolumeSelector)
    (class : secretsv1alpha1.SecretClass) (pod : corev1.Pod) (content : SecretContent)
    (targetPath : string) (tm : list Event) (rm : option error)
    (entries : list (string * string)) (tw : list Event) (rw : option error) :
  mount_run targetPath tm rm → write_run targetPath entries tw rw →
  Forall (λ c, cluster_write c = false ∧ removal c = false)
         (calls (resolved vs class pod content ++ tm
                   ++ ev (MapRange (Data content)) entries :: tw)).
Proof.
  intros Hm Hw. rewrite !calls_app. apply Forall_app. split.
  { unfold calls, resolved. simpl. repeat constructor. }
  apply Forall_app. split; [by eapply mount_run_calls |].
  unfold calls. simpl. apply Forall_cons. split; [done |].
  by eapply write_run_quiet.
Qed.

(** X3: NodePublishVolume writes to the cluster at most once, and last.
    When an execution holds a patch, the patch is its last call, every
    call before it succeeded and none of them is a patch, the object sent
    is the pod that was read with the expiration time of the backend
    under the annotation key, against that pod as base, and the result is
    success when the patch succeeded and a status of code Internal with
    the error of the patch otherwise. *)
Theorem patch_is_the_last_call
    (key : string) (sel : gomap → result volume.VolumeSelector)
    (req : csi.NodePublishVolumeRequest.t) (t : list Event)
    (r : result csi.NodePublishVolumeResponse) (obj base : corev1.Pod) :
  runs (NodePublishVolume key sel req) t r →
  Patch obj base ∈ calls t →
  ∃ t0 a pod content new,
    t = (t0 ++ [ev (Patch obj base) a])%list
    ∧ forallb succeeded t0 = true
    ∧ Forall (λ c, cluster_write c = false) (calls t0)
    ∧ first_answer pod_answer t = Some (Ok pod)
    ∧ first_answer data_answer t = Some (Ok content)
    ∧ ExpiresTime content = Some new
    ∧ obj = with_expiry key pod new
    ∧ base = with_map pod
    ∧ r = match a with
          | None => Ok csi.mkNodePublishVolumeResponse
          | Some e => Err (status.Error codes.Internal (Error e))
          end.
Proof.
  intros Hr%runs_NodePublishVolume Hin.
  assert (∀ l, Forall (λ c, cluster_write c = false ∧ removal c = false) l →
               Patch obj base ∈ l → False) as Hquiet.
  { intros l Hl Hp. rewrite Forall_forall in Hl. by destruct (Hl _ Hp). }
  assert (∀ vs class pod content tm entries tw tu (ru : option error),
            mount_run (csi.NodePublishVolumeRequest.GetTargetPath req) tm None →
            write_run (csi.NodePublishVolumeRequest.GetTargetPath req) entries tw None →
            runs (updatePod key (corev1.DeepCopy pod) (ExpiresTime content)) tu ru →
            t = (resolved vs class pod content ++ tm
                   ++ ev (MapRange (Data content)) entries :: tw ++ tu)%list →
            ∃ t0 new,
              t = (t0 ++ [ev (Patch obj base) ru])%list
              ∧ forallb succeeded t0 = true
              ∧ Forall (λ c, cluster_write c = false) (calls t0)
              ∧ first_answer pod_answer t = Some (Ok pod)
              ∧ first_answer data_answer t = Some (Ok content)
              ∧ ExpiresTime content = Some new
              ∧ obj = with_expiry key pod new
              ∧ base = with_map pod) as Hlast.
  { intros vs class pod content tm entries tw tu ru Hm Hw Hu%runs_updatePod Ht.
    pose proof (publish_prefix_quiet vs class pod content _ tm None entries tw None
                  Hm Hw) as Hpre.
    unfold corev1.DeepCopy in Hu.
    destruct Hu as [ru | new ru Hnew].
    - exfalso. apply (Hquiet _ Hpre). rewrite Ht, app_nil_r in Hin. exact Hin.
    - assert (t = ((resolved vs class pod content ++ tm
                      ++ ev (MapRange (Data content)) entries :: tw)
                     ++ [ev (Patch (with_expiry key pod new) (with_map pod)) ru])%list)
        as Ht'.
      { rewrite Ht. by rewrite <- !app_assoc. }
      rewrite Ht', calls_app in Hin. apply elem_of_app in Hin as [Hin | Hin].
      { exfalso. by apply (Hquiet _ Hpre). }
      unfold calls in Hin. simpl in Hin. apply list_elem_of_singleton in Hin.
      injection Hin as -> ->.
      exists (resolved vs class pod content ++ tm
                ++ ev (MapRange (Data content)) entries :: tw)%list, new.
      split; [exact Ht' |]. split.
      { inversion Hm; subst. inversion Hw; subst.
        unfold resolved. simpl. apply written_succeeded. }
      split.
      { eapply Forall_impl; [exact Hpre |]. by intros c [? ?]. }
      rewrite Ht. unfold first_answer, resolved. simpl. done. }
  publish_cases Hr;
    try (exfalso; unfold calls, resolved in Hin; simpl in Hin;
         repeat (apply elem_of_cons in Hin as [Hin | Hin]; [discriminate |]);
         by apply elem_of_nil in Hin).
  - exfalso. rewrite calls_app in Hin. apply elem_of_app in Hin as [Hin | Hin].
    + unfold calls, resolved in Hin; simpl in Hin.
      repeat (apply elem_of_cons in Hin as [Hin | Hin]; [discriminate |]).
      by apply elem_of_nil in Hin.
    + apply mount_run_calls in Hm. by apply (Hquiet _ Hm).
  - exfalso. inversion Hw as [| before after entry e0 Heq]; subst.
    eapply Hquiet; [| exact Hin].
    eapply publish_prefix_quiet; [exact Hm |].
    by apply (write_failed _ _ before after entry e').
  - destruct (Hlast _ _ _ _ _ _ _ _ _ Hm Hw Hupd eq_refl)
      as (t0 & new & H1 & H2 & H3 & H4 & H5 & H6 & H7 & H8).
    by exists t0, (Some e'), pod', content', new.
  - destruct (Hlast _ _ _ _ _ _ _ _ _ Hm Hw Hupd eq_refl)
      as (t0 & new & H1 & H2 & H3 & H4 & H5 & H6 & H7 & H8).
    by exists t0, None, pod', content', new.
Qed.

Lemma patch_is_the_last_call_witness :
  let publish := NodePublishVolume sample_key sample_selector sample_request in
  let w := sample_world None (Some 500) in
  ∃ t0 a, trace_in publish w
          = (t0 ++ [ev (Patch (with_expiry sample_key (sample_pod None) 500)
                              (with_map (sample_pod None))) a])%list
          ∧ forallb succeeded t0 = true.
Proof.
  cbv zeta.
  destruct (patch_is_the_last_call sample_key sample_selector sample_request
              (trace_in (NodePublishVolume sample_key sample_selector sample_request)
                        (sample_world None (Some 500)))
              (exec (NodePublishVolume sample_key sample_selector sample_request)
                    (sample_world None (Some 500))).1
              (with_expiry sample_key (sample_pod None) 500)
              (with_map (sample_pod None)))
    as (t0 & a & _ & _ & _ & Ht & Hok & _).
  - exact (proj1 (exec_trace_in _ _)).
  - apply (list_elem_of_lookup_2 _ 9%nat). vm_compute. reflexivity.
  - exists t0, a. split; [exact Ht | exact Hok].
Defined.

(** ** Further properties: the node under a publish *)

Lemma mkdir_all_keeps (f f' : gmap (list string) node) (made todo : list string)
    (perm : N) :
  mkdir_all f made todo perm = Some f' →
  ∀ q n, f !! q = Some n → f' !! q = Some n.
Proof.
  revert f made. induction todo as [| x todo IH]; intros f made; simpl.
  - by intros [= <-].
  - destruct (f !! (made ++ [x])%list) as [[pm | d pm] |] eqn:Hd; [| done |].
    + apply IH.
    + intros Hm q n Hq. eapply IH; [exact Hm |].
      rewrite lookup_insert_ne; [done |]. intros <-. congruence.
Qed.

Lemma mkdir_all_dir (f f' : gmap (list string) node) (made todo : list string)
    (perm : N) :
  mkdir_all f made todo perm = Some f' → todo ≠ [] →
  ∃ pm, f' !! (made ++ todo)%list = Some (Dir pm).
Proof.
  revert f made. induction todo as [| x todo IH]; intros f made; [done |].
  intros Hm _. simpl in Hm. destruct todo as [| y todo'].
  - simpl in Hm.
    destruct (f !! (made ++ [x])%list) as [[pm | d pm] |] eqn:Hd; simplify_eq.
    + eauto.
    + rewrite lookup_insert_eq. eauto.
  - rewrite cons_middle, app_assoc.
    destruct (f !! (made ++ [x])%list) as [[pm | d pm] |] eqn:Hd; [| done |];
      by eapply IH.
Qed.

Lemma mkdir_all_new (f f' : gmap (list string) node) (made todo : list string)
    (perm : N) (q : list string) :
  mkdir_all f made todo perm = Some f' →
  f' !! q = f !! q
  ∨ (f !! q = None ∧ f' !! q = Some (Dir perm) ∧ q `prefix_of` (made ++ todo)%list).
Proof.
  revert f made. induction todo as [| x todo IH]; intros f made; simpl.
  - intros [= <-]. by left.
  - destruct (f !! (made ++ [x])%list) as [[pm | d pm] |] eqn:Hd; [| done |].
    + intros Hm. destruct (IH _ _ Hm) as [Hq | (Hn & Hq & Hp)]; [by left |].
      right. by rewrite cons_middle, app_assoc.
    + intros Hm.
      assert ((made ++ [x]) `prefix_of` (made ++ x :: todo))%list as Hpre.
      { exists todo. by rewrite <- app_assoc. }
      pose proof (mkdir_all_keeps _ _ _ _ _ Hm (made ++ [x])%list (Dir perm)
                    (lookup_insert_eq _ _ _)) as Hkept.
      destruct (decide (q = (made ++ [x])%list)) as [-> | Hne].
      { right. done. }
      destruct (IH _ _ Hm) as [Hq | (Hn & Hq & Hp)].
      * left. by rewrite Hq, lookup_insert_ne.
      * right. rewrite lookup_insert_ne in Hn by done.
        by rewrite cons_middle, app_assoc.
Qed.

Lemma mkdir_all_succeeds (f : gmap (list string) node) (made todo : list string)
    (perm : N) :
  (∀ q d pm, q `prefix_of` (made ++ todo)%list → f !! q ≠ Some (File d pm)) →
  is_Some (mkdir_all f made todo perm).
Proof.
  revert f made. induction todo as [| x todo IH]; intros f made Hf; simpl; [by eexists |].
  assert ((made ++ [x]) `prefix_of` (made ++ x :: todo))%list as Hpre.
  { exists todo. by rewrite <- app_assoc. }
  destruct (f !! (made ++ [x])%list) as [[pm | d pm] |] eqn:Hd.
  - apply IH. intros q d pm' Hq. apply Hf. by rewrite cons_middle, app_assoc.
  - by destruct (Hf _ d pm Hpre).
  - apply IH. intros q d pm' Hq.
    destruct (decide (q = (made ++ [x])%list)) as [-> | Hne].
    + by rewrite lookup_insert_eq.
    + rewrite lookup_insert_ne by done. apply Hf. by rewrite cons_middle, app_assoc.
Qed.

Lemma handle_MkdirAll (path : string) (perm : N) (w : World) :
  (handle (MkdirAll path perm) w).1 = None →
  mkdir_all (fs w) [] (resolve path) perm = Some (fs (handle (MkdirAll path perm) w).2)
  ∧ mounts (handle (MkdirAll path perm) w).2 = mounts w.
Proof.
  unfold handle. destruct (faults w (clock w) _); simpl; [done |].
  by destruct (mkdir_all (fs w) [] (resolve path) perm).
Qed.

Lemma handle_Mount_fs (source target fstype : string) (options : list string)
    (w : World) :
  fs (handle (Mount source target fstype options) w).2 = fs w.
Proof.
  unfold handle. destruct (faults w (clock w) _); simpl; [done |].
  by destruct (is_dir (fs w) (resolve target)).
Qed.

Lemma handle_Mount_dir (source target fstype : string) (options : list string)
    (w : World) :
  (handle (Mount source target fstype options) w).1 = None →
  is_dir (fs w) (resolve target) = true.
Proof.
  unfold handle. destruct (faults w (clock w) _); simpl; [done |].
  by destruct (is_dir (fs w) (resolve target)).
Qed.

Lemma handle_WriteFile_keeps (name data : string) (perm : N) (w : World)
    (q : list string) :
  (is_Some (fs w !! q) → is_Some (fs (handle (WriteFile name data perm) w).2 !! q))
  ∧ (∀ pm, fs w !! q = Some (Dir pm) →
           fs (handle (WriteFile name data perm) w).2 !! q = Some (Dir pm)).
Proof.
  unfold handle. destruct (faults w (clock w) _); simpl; [done |].
  destruct (is_dir (fs w) (parent (resolve name))); simpl; [| done].
  destruct (resolve name) as [| x p]; [done |].
  destruct (fs w !! (x :: p)) as [[pm | d pm] |] eqn:Hp; simpl; [done | |].
  - split.
    + intros Hq. destruct (decide (q = x :: p)) as [-> | Hne].
      * rewrite lookup_insert_eq. by eexists.
      * by rewrite lookup_insert_ne.
    + intros pm' Hq. rewrite lookup_insert_ne; [done |]. intros <-. congruence.
  - split.
    + intros Hq. destruct (decide (q = x :: p)) as [-> | Hne].
      * rewrite lookup_insert_eq. by eexists.
      * by rewrite lookup_insert_ne.
    + intros pm' Hq. rewrite lookup_insert_ne; [done |]. intros <-. congruence.
Qed.

(** A call other than a removal keeps what is on the node. *)
Lemma handle_grows (c : Call) (w : World) :
  removal c = false →
  (∀ q, is_Some (fs w !! q) → is_Some (fs (handle c w).2 !! q))
  ∧ (∀ q pm, fs w !! q = Some (Dir pm) → fs (handle c w).2 !! q = Some (Dir pm))
  ∧ mounts w `suffix_of` mounts (handle c w).2.
Proof.
  intros Hc. destruct c; try discriminate Hc.
  - destruct (handle_node_frame (PathExists path) w eq_refl) as [-> ->]. done.
  - unfold handle. destruct (faults w (clock w) _); simpl; [done |].
    destruct (mkdir_all (fs w) [] (resolve path) perm) as [f |] eqn:Hm; simpl; [| done].
    split; [| split; [| done]].
    + intros q [n Hq]. exists n. by eapply mkdir_all_keeps.
    + intros q pm Hq. by eapply mkdir_all_keeps.
  - rewrite handle_Mount_fs. split; [done |]. split; [done |].
    unfold handle. destruct (faults w (clock w) _); simpl; [done |].
    destruct (is_dir (fs w) (resolve target)); simpl; [| done].
    by apply suffix_cons_r.
  - split; [| split].
    + intros q. apply handle_WriteFile_keeps.
    + intros q. apply handle_WriteFile_keeps.
    + rewrite handle_mounts_frame; done.
  - destruct (handle_node_frame (GetSecretClass key) w eq_refl) as [-> ->]. done.
  - destruct (handle_node_frame (GetPod key) w eq_refl) as [-> ->]. done.
  - destruct (handle_node_frame (Patch obj base) w eq_refl) as [-> ->]. done.
  - destruct (handle_node_frame (GetSecretData pod sel class) w eq_refl) as [-> ->]. done.
  - destruct (handle_node_frame (MapRange m) w eq_refl) as [-> ->]. done.
Qed.

Lemma history_grows (t : list Event) (w w' : World) :
  history w t w' →
  Forall (λ c, removal c = false) (calls t) →
  (∀ q, is_Some (fs w !! q) → is_Some (fs w' !! q))
  ∧ (∀ q pm, fs w !! q = Some (Dir pm) → fs w' !! q = Some (Dir pm))
  ∧ mounts w `suffix_of` mounts w'.
Proof.
  revert w. induction t as [| e t IH]; intros w; simpl.
  - by intros -> _.
  - intros [_ Hh] [Hc Hall]%Forall_cons.
    destruct (handle_grows _ w Hc) as (H1 & H2 & H3).
    destruct (IH _ Hh Hall) as (H4 & H5 & H6).
    split; [| split].
    + intros q Hq. by apply H4, H1.
    + intros q pm Hq. by apply H5, H2.
    + by etrans.
Qed.

Lemma publish_run_no_removal
    (key : string) (sel : gomap → result volume.VolumeSelector)
    (req : csi.NodePublishVolumeRequest.t) (t : list Event)
    (r : result csi.NodePublishVolumeResponse) :
  publish_run key sel req t r → Forall (λ c, removal c = false) (calls t).
Proof.
  intros Hr.
  assert (∀ l, Forall (λ c, cluster_write c = false ∧ removal c = false) l →
               Forall (λ c, removal c = false) l) as Hweak.
  { intros l Hl. eapply Forall_impl; [exact Hl |]. by intros c [? ?]. }
  assert (∀ pod exp tu ru, runs (updatePod key pod exp) tu ru →
                           Forall (λ c, removal c = false) (calls tu)) as Hupdate.
  { intros pod exp tu ru Hu%updatePod_calls.
    eapply Forall_impl; [exact Hu |]. by intros c (obj & base & ->). }
  publish_cases Hr; try solve [unfold calls; simpl; repeat constructor].
  - rewrite calls_app. apply Forall_app. split.
    + unfold calls, resolved. simpl. repeat constructor.
    + by eapply Hweak, mount_run_calls.
  - by eapply Hweak, publish_prefix_quiet.
  - replace (resolved vs class pod' content' ++ tm
               ++ ev (MapRange (Data content')) entries :: tw ++ tu)%list
      with ((resolved vs class pod' content' ++ tm
               ++ ev (MapRange (Data content')) entries :: tw) ++ tu)%list
      by by rewrite <- !app_assoc.
    rewrite calls_app. apply Forall_app. split.
    + by eapply Hweak, publish_prefix_quiet.
    + by eapply Hupdate.
  - replace (resolved vs class pod' content' ++ tm
               ++ ev (MapRange (Data content')) entries :: tw ++ tu)%list
      with ((resolved vs class pod' content' ++ tm
               ++ ev (MapRange (Data content')) entries :: tw) ++ tu)%list
      by by rewrite <- !app_assoc.
    rewrite calls_app. apply Forall_app. split.
    + by eapply Hweak, publish_prefix_quiet.
    + by eapply Hupdate.
Qed.

(** X4: NodePublishVolume takes nothing away.  No execution unmounts or
    removes.  In the model every path of the node is still there
    afterwards, a directory is still a directory, and the mount table has
    only grown at its head. *)
Theorem publish_never_removes
    (key : string) (sel : gomap → result volume.VolumeSelector)
    (req : csi.NodePublishVolumeRequest.t) :
  let publish := NodePublishVolume key sel req in
  (∀ t r, runs publish t r → Forall (λ c, removal c = false) (calls t))
  ∧ (∀ w,
       (∀ q, is_Some (fs w !! q) → is_Some (fs (exec publish w).2 !! q))
       ∧ (∀ q perm, fs w !! q = Some (Dir perm) →
                    fs (exec publish w).2 !! q = Some (Dir perm))
       ∧ mounts w `suffix_of` mounts (exec publish w).2).
Proof.
  cbv zeta. split.
  - intros t r Hr%runs_NodePublishVolume. by eapply publish_run_no_removal.
  - intros w.
    destruct (exec_trace_in (NodePublishVolume key sel req) w) as [Hr Hh].
    apply runs_NodePublishVolume, publish_run_no_removal in Hr.
    exact (history_grows _ _ _ Hh Hr).
Qed.

Lemma publish_never_removes_witness :
  let publish := NodePublishVolume sample_key sample_selector sample_request in
  fs (exec publish (sample_world None (Some 900))).2 !! ["var"] = Some (Dir mode_0750)
  ∧ fs (exec publish escaping_world).2 !! ["var"] = Some (Dir mode_0750).
Proof.
  split.
  - apply (proj2 (publish_never_removes sample_key sample_selector sample_request)
             (sample_world None (Some 900))).
    reflexivity.
  - apply (proj2 (publish_never_removes sample_key sample_selector sample_request)
             escaping_world).
    reflexivity.
Defined.

(** ** Further properties: the mount *)

Lemma handle_ok (c : Call) (w : World) :
  faults w (clock w) c = None → handle c w = answer c (tick c w).
Proof. unfold handle. by intros ->. Qed.

(** What a call never changes. *)
Lemma handle_env (c : Call) (w : World) :
  range_order (handle c w).2 = range_order w
  ∧ faults (handle c w).2 = faults w
  ∧ backend (handle c w).2 = backend w
  ∧ classes (handle c w).2 = classes w.
Proof.
  unfold handle.
  destruct (faults w (clock w) c) as [e |]; [destruct (refuse c e) |];
    destruct c; simpl in *; try done; repeat case_match; done.
Qed.

Lemma history_env (t : list Event) (w w' : World) :
  history w t w' →
  range_order w' = range_order w
  ∧ faults w' = faults w
  ∧ backend w' = backend w
  ∧ classes w' = classes w.
Proof.
  revert w. induction t as [| e t IH]; intros w; simpl; [by intros -> |].
  intros [_ Hh]. destruct (IH _ Hh) as (-> & -> & -> & ->).
  apply handle_env.
Qed.

Lemma mkdir_all_is_dir (f f' : gmap (list string) node) (p : list string) (perm : N) :
  mkdir_all f [] p perm = Some f' → is_dir f' p = true.
Proof.
  intros Hm. destruct p as [| x p]; [done |].
  destruct (mkdir_all_dir _ _ _ _ _ Hm) as [pm Hd]; [done |].
  simpl in Hd. unfold is_dir. by rewrite Hd.
Qed.

Lemma is_dir_path_exists (f : gmap (list string) node) (p : list string) :
  is_dir f p = true → path_exists f p = true.
Proof.
  destruct p as [| x p]; [done |]. unfold is_dir, path_exists.
  by destruct (f !! (x :: p)) as [[pm | d pm] |] eqn:Hp.
Qed.

(** The three calls of a mount that succeeds, in the model. *)
Lemma mount_done_history (targetPath : string) (w w' : World) :
  history w [ev (PathExists targetPath) (false, None);
             ev (MkdirAll targetPath mode_0750) None;
             ev (Mount "tmpfs" targetPath "tmpfs" hardening) None] w' →
  path_exists (fs w) (resolve targetPath) = false
  ∧ mkdir_all (fs w) [] (resolve targetPath) mode_0750 = Some (fs w')
  ∧ mounts w' = tmpfs_at targetPath :: mounts w.
Proof.
  intros (H1 & H2 & H3 & ->). cbn [projT1 projT2 ev] in *.
  set (w1 := (handle (PathExists targetPath) w).2) in *.
  set (w2 := (handle (MkdirAll targetPath mode_0750) w1).2) in *.
  destruct (handle_node_frame (PathExists targetPath) w eq_refl) as [Hfs1 Hms1].
  fold w1 in Hfs1, Hms1.
  destruct (handle_MkdirAll _ _ _ H2) as [Hmk Hms2]. fold w2 in Hmk, Hms2.
  split; [symmetry; by eapply handle_PathExists |].
  split.
  - rewrite handle_Mount_fs. by rewrite <- Hfs1.
  - rewrite (handle_Mount _ _ _ _ _ H3). by rewrite Hms2, Hms1.
Qed.

Lemma handle_Mount_failed (source target fstype : string) (options : list string)
    (w : World) (e : error) :
  (handle (Mount source target fstype options) w).1 = Some e →
  mounts (handle (Mount source target fstype options) w).2 = mounts w.
Proof.
  unfold handle. destruct (faults w (clock w) _); simpl; [done |].
  by destruct (is_dir (fs w) (resolve target)).
Qed.

(** The three calls of a mount that the mounter refuses, in the model. *)
Lemma mount_failed_history (targetPath : string) (w w' : World) (e : error) :
  history w [ev (PathExists targetPath) (false, None);
             ev (MkdirAll targetPath mode_0750) None;
             ev (Mount "tmpfs" targetPath "tmpfs" hardening) (Some e)] w' →
  path_exists (fs w) (resolve targetPath) = false
  ∧ mkdir_all (fs w) [] (resolve targetPath) mode_0750 = Some (fs w')
  ∧ mounts w' = mounts w.
Proof.
  intros (H1 & H2 & H3 & ->). cbn [projT1 projT2 ev] in *.
  set (w1 := (handle (PathExists targetPath) w).2) in *.
  set (w2 := (handle (MkdirAll targetPath mode_0750) w1).2) in *.
  destruct (handle_node_frame (PathExists targetPath) w eq_refl) as [Hfs1 Hms1].
  fold w1 in Hfs1, Hms1.
  destruct (handle_MkdirAll _ _ _ H2) as [Hmk Hms2]. fold w2 in Hmk, Hms2.
  split; [symmetry; by eapply handle_PathExists |].
  split.
  - rewrite handle_Mount_fs. by rewrite <- Hfs1.
  - rewrite (handle_Mount_failed _ _ _ _ _ _ H3). by rewrite Hms2, Hms1.
Qed.

(** A mount on a path that exists fails and leaves the node as it is. *)
Lemma mount_on_existing (targetPath : string) (w : World) :
  path_exists (fs w) (resolve targetPath) = true →
  (exec (mount targetPath) w).1 ≠ None
  ∧ fs (exec (mount targetPath) w).2 = fs w
  ∧ mounts (exec (mount targetPath) w).2 = mounts w.
Proof.
  intros Hex.
  destruct (exec_trace_in (mount targetPath) w) as [Hr Hh].
  apply runs_mount in Hr.
  set (t := trace_in _ w) in *. set (x := exec _ w) in *.
  destruct x as [r w']. simpl in *. clearbody t.
  assert (∀ t', t = ev (PathExists targetPath) (false, None) :: t' → False) as Habsent.
  { intros t' ->. destruct Hh as [H1 _]. cbn [projT1 projT2 ev] in H1.
    apply handle_PathExists in H1. congruence. }
  inversion Hr; subst; try (by edestruct Habsent);
    (split; [done |]); eapply history_node_frame; [exact Hh | |exact Hh |];
    unfold calls; simpl; repeat constructor.
Qed.

Lemma exec_Vis {R : Type} (c : Call) (k : resp c → Prog R) (w : World) :
  exec (Vis c k) w = exec (k (handle c w).1) (handle c w).2.
Proof. simpl. by destruct (handle c w). Qed.

Lemma exec_mount_ok (targetPath : string) (w : World) :
  (∀ n c, faults w n c = None) →
  path_exists (fs w) (resolve targetPath) = false →
  (∀ q d pm, q `prefix_of` resolve targetPath → fs w !! q ≠ Some (File d pm)) →
  (exec (mount targetPath) w).1 = None.
Proof.
  intros Hf Hex Hfile.
  destruct (mkdir_all_succeeds (fs w) [] (resolve targetPath) mode_0750 Hfile)
    as [f' Hm].
  unfold mount. simpl.
  rewrite (handle_ok (PathExists targetPath)) by apply Hf. simpl. rewrite Hex.
  rewrite exec_Vis, (handle_ok (MkdirAll targetPath mode_0750)) by apply Hf.
  simpl. rewrite Hm. simpl.
  rewrite (handle_ok (Mount _ _ _ _)) by apply Hf. simpl.
  by rewrite (mkdir_all_is_dir _ _ _ _ Hm).
Qed.



Lemma ev_call (c1 c2 : Call) (a1 : resp c1) (a2 : resp c2) :
  ev c1 a1 = ev c2 a2 → c1 = c2.
Proof. intros H. exact (f_equal (λ e : Event, projT1 e) H). Qed.

(** X6: mount does not clean up.  When the call to the mounter fails,
    mount returns a status of code Internal with the text of that error
    and the mount table is unchanged, but the directory that it made
    stays; a further mount on the same path, as long as that directory is
    there, fails without touching the node. *)
Theorem failed_mounter_leaves_the_directory (targetPath : string) (w : World)
    (e : error) :
  last (trace_in (mount targetPath) w)
  = Some (ev (Mount "tmpfs" targetPath "tmpfs" ["noexec"; "nosuid"; "nodev"]) (Some e)) →
  let w' := (exec (mount targetPath) w).2 in
  (exec (mount targetPath) w).1 = Some (status.Error codes.Internal (Error e))
  ∧ path_exists (fs w) (resolve targetPath) = false
  ∧ path_exists (fs w') (resolve targetPath) = true
  ∧ mounts w' = mounts w
  ∧ (∀ w1, fs w1 = fs w' →
           (exec (mount targetPath) w1).1 ≠ None
           ∧ fs (exec (mount targetPath) w1).2 = fs w1
           ∧ mounts (exec (mount targetPath) w1).2 = mounts w1).
Proof.
  intros Hlast. cbv zeta.
  destruct (exec_trace_in (mount targetPath) w) as [Hr Hh].
  apply runs_mount in Hr.
  set (t := trace_in _ w) in *. set (x := exec _ w) in *.
  destruct x as [r w']. simpl in *. clearbody t.
  inversion Hr; subst; simpl in Hlast; apply (inj Some) in Hlast;
    try (apply ev_call in Hlast; discriminate Hlast);
    apply ev_inj in Hlast; try discriminate Hlast.
  injection Hlast as ->.
  apply mount_failed_history in Hh as (Hex & Hmk & Hms).
  assert (path_exists (fs w') (resolve targetPath) = true) as Hthere.
  { by eapply is_dir_path_exists, mkdir_all_is_dir. }
  split; [done |]. split; [done |]. split; [done |]. split; [done |].
  intros w1 Hw1. apply mount_on_existing. by rewrite Hw1.
Qed.

Lemma failed_mounter_leaves_the_directory_witness :
  let w' := (exec (mount sample_target) broken_mounter_world).2 in
  (exec (mount sample_target) broken_mounter_world).1
  = Some (status.Error codes.Internal "mount failed: exit status 32")
  ∧ path_exists (fs w') (resolve sample_target) = true
  ∧ (exec (mount sample_target) w').1 ≠ None.
Proof.
  cbv zeta.
  destruct (failed_mounter_leaves_the_directory sample_target broken_mounter_world
              (SysError "mount failed: exit status 32"))
    as (Hres & _ & Hthere & _ & Hretry).
  - vm_compute. reflexivity.
  - split; [exact Hres |]. split; [exact Hthere |].
    exact (proj1 (Hretry _ eq_refl)).
Defined.

(** ** Further properties: what a publish leaves on the node *)

Lemma handle_GetSecretData (pod : corev1.Pod) (sel : volume.VolumeSelector)
    (class : secretsv1alpha1.SecretClass) (w : World) (content : SecretContent) :
  (handle (GetSecretData pod sel class) w).1 = Ok content →
  backend w pod sel class = Ok content.
Proof. unfold handle. by destruct (faults w (clock w) _). Qed.

Lemma history_resolved (vs : volume.VolumeSelector) (class : secretsv1alpha1.SecretClass)
    (pod : corev1.Pod) (content : SecretContent) (w w' : World) :
  history w (resolved vs class pod content) w' →
  classes w !! volume.Class vs = Some class
  ∧ pods w !! (volume.PodNamespace vs, volume.Pod vs) = Some pod
  ∧ backend w pod vs class = Ok content
  ∧ fs w' = fs w ∧ mounts w' = mounts w ∧ pods w' = pods w.
Proof.
  intros Hh.
  destruct (history_reads _ _ _ _ _ _ Hh) as [Hc Hp].
  destruct (history_frame _ _ _ Hh (resolved_calls vs class pod content))
    as (Hfs & Hms & Hps).
  destruct Hh as (_ & _ & Hd & _). cbn [projT1 projT2 ev] in Hd.
  apply handle_GetSecretData in Hd.
  rewrite !(proj1 (proj2 (proj2 (handle_env _ _)))) in Hd.
  done.
Qed.

Lemma history_exec {R : Type} (p : Prog R) (t : list Event) (r : R) (w w' : World) :
  runs p t r → history w t w' → exec p w = (r, w').
Proof.
  revert t w. induction p as [r' | c k IH]; intros t w; simpl.
  - by intros [-> ->] ->.
  - intros (a & t' & -> & Hr) [Ha Hh]. cbn [projT1 projT2 ev] in Ha, Hh.
    destruct (handle c w) as [a' w1]. simpl in Ha, Hh. subst a'.
    by eapply IH.
Qed.

(** A publish that succeeds, in the model: the objects that it read, the
    directory that it made, and the worlds before and after the writes. *)
Lemma publish_done_model (key : string) (sel : gomap → result volume.VolumeSelector)
    (req : csi.NodePublishVolumeRequest.t) (w : World) :
  let targetPath := csi.NodePublishVolumeRequest.GetTargetPath req in
  let publish := NodePublishVolume key sel req in
  (exec publish w).1 = Ok csi.mkNodePublishVolumeResponse →
  ∃ vs class pod content w3 w4,
    selected sel req vs
    ∧ classes w !! volume.Class vs = Some class
    ∧ pods w !! (volume.PodNamespace vs, volume.Pod vs) = Some pod
    ∧ backend w pod vs class = Ok content
    ∧ path_exists (fs w) (resolve targetPath) = false
    ∧ mkdir_all (fs w) [] (resolve targetPath) mode_0750 = Some (fs w3)
    ∧ history w3 (map (written targetPath) (range_order w (Data content))) w4
    ∧ pods w4 = pods w
    ∧ faults w4 = faults w
    ∧ exec (updatePod key pod (ExpiresTime content)) w4 = (None, (exec publish w).2)
    ∧ fs (exec publish w).2 = fs w4
    ∧ mounts (exec publish w).2 = tmpfs_at targetPath :: mounts w.
Proof.
  cbv zeta. intros Hok.
  destruct (exec_trace_in (NodePublishVolume key sel req) w) as [Hr Hh].
  set (t := trace_in _ w) in *. set (x := exec _ w) in *.
  destruct x as [r w']. simpl in *. clearbody t. subst r.
  apply runs_NodePublishVolume in Hr.
  remember (Ok csi.mkNodePublishVolumeResponse) as r eqn:Hres.
  publish_cases Hr; try discriminate Hres. clear Hres.
  apply history_app in Hh as (w1 & Hh1 & Hh).
  apply history_app in Hh as (w2 & Hh2 & Hh).
  destruct Hh as [Hent Hh]. cbn [projT1 projT2 ev] in Hent, Hh.
  rewrite handle_MapRange in Hent, Hh. simpl in Hent, Hh. subst entries.
  apply history_app in Hh as (w4 & Hh4 & Hh5).
  inversion Hm; subst. inversion Hw; subst.
  destruct (history_resolved _ _ _ _ _ _ Hh1) as (Hc & Hp & Hb & Hfs1 & Hms1 & Hps1).
  destruct (history_env _ _ _ Hh1) as (Hro1 & Hf1 & _ & _).
  apply mount_done_history in Hh2 as Hmount. destruct Hmount as (Hex & Hmk & Hms2).
  destruct (history_env _ _ _ Hh2) as (Hro2 & Hf2 & _ & _).
  destruct (history_env _ _ _ Hh4) as (_ & Hf4 & _ & _).
  assert (pods w2 = pods w1) as Hps2.
  { eapply history_cluster_frame; [exact Hh2 |]. unfold calls. simpl. repeat constructor. }
  assert (pods w4 = pods w2 ∧ mounts w4 = mounts w2) as [Hps4 Hms4].
  { split.
    - etrans; [eapply history_cluster_frame; [exact Hh4 |] |]; [| reflexivity].
      eapply Forall_impl; [exact (write_run_quiet _ _ _ _ Hw) |]. by intros c [? ?].
    - etrans; [eapply history_mounts_frame; [exact Hh4 |] |]; [| reflexivity].
      eapply Forall_impl; [exact (write_run_calls _ _ _ _ Hw) |].
      by intros c [entry ->]. }
  assert (fs w' = fs w4 ∧ mounts w' = mounts w4) as [Hfs5 Hms5].
  { eapply history_node_frame; [exact Hh5 |].
    eapply Forall_impl; [exact (updatePod_calls _ _ _ _ _ Hupd) |].
    by intros c (obj & base & ->). }
  exists vs, class, pod', content', (tick (MapRange (Data content')) w2), w4.
  split; [done |]. split; [done |]. split; [done |]. split; [done |].
  split; [by rewrite <- Hfs1 |]. split; [by rewrite <- Hfs1 |].
  split; [by rewrite <- Hro1, <- Hro2 |].
  split; [by rewrite Hps4, Hps2, Hps1 |].
  split; [rewrite Hf4; simpl; by rewrite Hf2, Hf1 |].
  split; [by eapply history_exec |].
  split; [done |].
  by rewrite Hms5, Hms4, Hms2, Hms1.
Qed.

Lemma is_dir_grows (f f' : gmap (list string) node) (p : list string) :
  (∀ q pm, f !! q = Some (Dir pm) → f' !! q = Some (Dir pm)) →
  is_dir f p = true → is_dir f' p = true.
Proof.
  intros Hg. destruct p as [| x p]; [done |]. unfold is_dir.
  destruct (f !! (x :: p)) as [[pm | d pm] |] eqn:Hp; try done.
  by rewrite (Hg _ _ Hp).
Qed.


Lemma plain_target (targetPath name : string) :
  targetPath ≠ EmptyString → plain name →
  target_of targetPath (name, EmptyString) = (resolve targetPath ++ [name])%list.
Proof.
  intros Htp [Hreal Hone]. unfold target_of. cbn [fst snd].
  by apply filepath_facts.resolve_Join_name.
Qed.

(** Plain names do not meet: each entry has a file of its own. *)
Lemma plain_settled (targetPath : string) (data : gmap string string)
    (entries : list (string * string)) (entry : string * string) :
  targetPath ≠ EmptyString →
  (∀ name, is_Some (data !! name) → plain name) →
  entries ≡ₚ map_to_list data →
  entry ∈ entries →
  settled targetPath entries entry.
Proof.
  intros Htp Hplain Hperm Hin entry' Hin' Heq.
  rewrite Hperm in Hin, Hin'.
  destruct entry as [n c], entry' as [n' c'].
  apply elem_of_map_to_list in Hin, Hin'.
  unfold target_of in Heq. cbn [fst snd] in Heq |- *.
  destruct (Hplain n) as [Hr Hs]; [by eexists |].
  destruct (Hplain n') as [Hr' Hs']; [by eexists |].
  rewrite !filepath_facts.resolve_Join_name in Heq by done.
  apply app_inv_head in Heq. injection Heq as ->. congruence.
Qed.



(** A publish to a path that exists fails and changes nothing. *)
Lemma publish_on_existing
    (key : string) (sel : gomap → result volume.VolumeSelector)
    (req : csi.NodePublishVolumeRequest.t) (w : World) :
  path_exists (fs w) (resolve (csi.NodePublishVolumeRequest.GetTargetPath req)) = true →
  (∃ e, (exec (NodePublishVolume key sel req) w).1 = Err e)
  ∧ fs (exec (NodePublishVolume key sel req) w).2 = fs w
  ∧ mounts (exec (NodePublishVolume key sel req) w).2 = mounts w
  ∧ pods (exec (NodePublishVolume key sel req) w).2 = pods w.
Proof.
  intros Hex.
  destruct (exec_trace_in (NodePublishVolume key sel req) w) as [Hr Hh].
  set (t := trace_in _ w) in *. set (x := exec _ w) in *.
  destruct x as [r w']. simpl in *. clearbody t.
  apply runs_NodePublishVolume in Hr.
  assert (∀ vs class pod content t',
            t = (resolved vs class pod content
                   ++ ev (PathExists (csi.NodePublishVolumeRequest.GetTargetPath req))
                        (false, None) :: t')%list → False) as Habsent.
  { intros vs class pod content t' ->.
    apply history_path_absent in Hh. congruence. }
  publish_cases Hr;
    try (inversion Hm; subst; try (by edestruct Habsent));
    (split; [by eexists |]); apply (history_frame _ _ _ Hh); unfold calls, resolved;
    simpl; repeat constructor.
Qed.



(** ** Further properties: the reconciliation of the expiration time *)

Lemma with_expiry_names (key : string) (pod : corev1.Pod) (new : Z) :
  corev1.Name (with_expiry key pod new) = corev1.Name pod
  ∧ corev1.Namespace (with_expiry key pod new) = corev1.Namespace pod.
Proof. unfold with_expiry, with_map. by case_decide. Qed.

Lemma patch_pod_names (obj base cur : corev1.Pod) :
  corev1.Name (patch_pod obj base cur) = corev1.Name cur
  ∧ corev1.Namespace (patch_pod obj base cur) = corev1.Namespace cur.
Proof. unfold patch_pod. by case_decide. Qed.

(** The patch of updatePod on any pod of the cluster: the annotations
    under the other keys stay. *)
Lemma patch_pod_other (key : string) (pod cur : corev1.Pod) (new : Z) (k : string) :
  k ≠ key →
  index (corev1.Annotations (patch_pod (with_expiry key pod new) (with_map pod) cur)) k
  = index (corev1.Annotations cur) k.
Proof.
  intros Hk. unfold patch_pod.
  set (d := diff_annotations _ _).
  assert (d !! k = None) as Hd.
  { unfold d, diff_annotations. rewrite lookup_merge.
    rewrite <- !index_default, with_map_index, with_expiry_index.
    rewrite decide_False by done.
    destruct (index (corev1.Annotations pod) k); simpl; [| done].
    by rewrite decide_True. }
  destruct (decide (d = ∅)) as [He | He]; [done |].
  simpl. unfold apply_annotations. rewrite lookup_merge, Hd.
  rewrite <- index_default.
  by destruct (index (corev1.Annotations cur) k).
Qed.

Lemma handle_Patch (obj base : corev1.Pod) (w : World) :
  let k := (corev1.Namespace obj, corev1.Name obj) in
  let w' := (handle (Patch obj base) w).2 in
  (∀ k', k' ≠ k → pods w' !! k' = pods w !! k')
  ∧ match pods w !! k with
    | Some cur => pods w' !! k = Some cur
                  ∨ pods w' !! k = Some (patch_pod obj base cur)
    | None => pods w' = pods w
    end.
Proof.
  cbv zeta. unfold handle.
  destruct (faults w (clock w) _); simpl.
  - split; [done |]. destruct (pods w !! _) eqn:Hp; [by left | done].
  - destruct (pods w !! (corev1.Namespace obj, corev1.Name obj)) as [cur |] eqn:Hp;
      simpl.
    + split; [intros k' Hk'; by rewrite lookup_insert_ne |].
      right. apply lookup_insert_eq.
    + done.
Qed.

(** X9: updatePod changes one annotation of one pod.  Whatever the pod
    and the expiration time given, the file system, the mount table and
    the classes are as before, every other pod of the cluster is as
    before, and the pod of that name, whatever the cluster holds for it
    at that moment, keeps its name, its namespace and its annotations
    under every key other than the expiration key. *)
Theorem updatePod_changes_one_annotation
    (key : string) (pod : corev1.Pod) (expiresTime : option Z) (w : World) :
  let w' := (exec (updatePod key pod expiresTime) w).2 in
  let k := (corev1.Namespace pod, corev1.Name pod) in
  fs w' = fs w ∧ mounts w' = mounts w ∧ classes w' = classes w
  ∧ (∀ k', k' ≠ k → pods w' !! k' = pods w !! k')
  ∧ (pods w !! k = None → pods w' = pods w)
  ∧ (∀ cur, pods w !! k = Some cur →
       ∃ cur', pods w' !! k = Some cur'
               ∧ corev1.Name cur' = corev1.Name cur
               ∧ corev1.Namespace cur' = corev1.Namespace cur
               ∧ ∀ a, a ≠ key →
                      index (corev1.Annotations cur') a = index (corev1.Annotations cur) a).
Proof.
  cbv zeta.
  destruct (exec_trace_in (updatePod key pod expiresTime) w) as [Hr Hh].
  set (t := trace_in _ w) in *. set (x := exec _ w) in *.
  destruct x as [r w']. simpl in *. clearbody t.
  destruct (history_env _ _ _ Hh) as (_ & _ & _ & Hcl).
  assert (fs w' = fs w ∧ mounts w' = mounts w) as [Hfs Hms].
  { eapply history_node_frame; [exact Hh |].
    eapply Forall_impl; [exact (updatePod_calls _ _ _ _ _ Hr) |].
    by intros c (obj & base & ->). }
  split; [done |]. split; [done |]. split; [done |].
  apply runs_updatePod in Hr. destruct Hr as [err | new err Hnew].
  - simpl in Hh. subst w'. split; [done |]. split; [done |].
    intros cur Hcur. by exists cur.
  - cbn [history projT1 projT2 ev] in Hh. destruct Hh as [_ ->].
    pose proof (handle_Patch (with_expiry key pod new) (with_map pod) w) as Hp.
    cbv zeta in Hp. destruct (with_expiry_names key pod new) as [-> ->] in Hp.
    destruct Hp as [Hother Hthis].
    split; [exact Hother |]. split.
    + intros Hnone. by rewrite Hnone in Hthis.
    + intros cur Hcur. rewrite Hcur in Hthis. destruct Hthis as [Hsame | Hpatched].
      * by exists cur.
      * exists (patch_pod (with_expiry key pod new) (with_map pod) cur).
        split; [done |].
        destruct (patch_pod_names (with_expiry key pod new) (with_map pod) cur)
          as [-> ->].
        split; [done |]. split; [done |].
        intros a Ha. by apply patch_pod_other.
Qed.

Lemma updatePod_changes_one_annotation_witness :
  let others := Some ({[ "owner" := "ops"; sample_key := "1000" ]} : gmap string string) in
  let w := sample_world others (Some 900) in
  ∃ cur', pods (exec (updatePod sample_key (sample_pod others) (Some 900)) w).2
            !! ("default", "web") = Some cur'
          ∧ index (corev1.Annotations cur') "owner" = Some "ops".
Proof.
  cbv zeta.
  destruct (updatePod_changes_one_annotation sample_key
              (sample_pod (Some {[ "owner" := "ops"; sample_key := "1000" ]}))
              (Some 900)
              (sample_world (Some {[ "owner" := "ops"; sample_key := "1000" ]})
                            (Some 900)))
    as (_ & _ & _ & _ & _ & Hcur).
  destruct (Hcur (sample_pod (Some {[ "owner" := "ops"; sample_key := "1000" ]})))
    as (cur' & Hp & _ & _ & Hkeep); [reflexivity |].
  exists cur'. split; [exact Hp |].
  etrans; [apply (Hkeep "owner"); discriminate |]. reflexivity.
Defined.

Lemma recorded_expiry_held (key : string) (w : World) (pod : corev1.Pod) (v : Z) :
  let k := (corev1.Namespace pod, corev1.Name pod) in
  pods w !! k = Some pod →
  (recorded_expiry key w k = Some v
   ↔ ∃ s, index (corev1.Annotations pod) key = Some s
          ∧ s ≠ EmptyString ∧ strconv.ParseInt10 s = (v, None)).
Proof.
  cbv zeta. intros Hp. unfold recorded_expiry. rewrite Hp. simpl.
  destruct (index (corev1.Annotations pod) key) as [s |]; simpl.
  - destruct (strconv.ParseInt10 s) as [v' [e |]] eqn:Hs.
    + split; [done |]. intros (s' & [= <-] & _ & Hs'). congruence.
    + split.
      * intros [= ->]. exists s. split; [done |]. split; [| done].
        intros ->. discriminate Hs.
      * intros (s' & [= <-] & _ & Hs'). congruence.
  - split; [done |]. by intros (s & ? & _).
Qed.

(** The recorded time after a reconciliation, when the cluster holds the
    pod that was read. *)
Lemma updatePod_min (key : string) (pod : corev1.Pod) (new old : Z) (w : World) :
  let k := (corev1.Namespace pod, corev1.Name pod) in
  let r := exec (updatePod key pod (Some new)) w in
  pods w !! k = Some pod →
  recorded_expiry key w k = Some old →
  - 2 ^ 63 ≤ new < 2 ^ 63 →
  (recorded_expiry key r.2 k = Some old
   ∨ (new ≤ old ∧ recorded_expiry key r.2 k = Some new))
  ∧ (r.1 = None → recorded_expiry key r.2 k = Some (Z.min old new))
  ∧ ((∀ c, faults w (clock w) c = None) → r.1 = None).
Proof.
  cbv zeta. intros Hp Hrec Hnew.
  apply (recorded_expiry_held key w pod old Hp) in Hrec as Hs.
  destruct Hs as (s & Hi & Hne & Hs).
  destruct (Z.lt_ge_cases old new) as [Hlt | Hge].
  - rewrite (updatePod_later key pod new old s) by done. simpl.
    split; [by left |]. split; [| done]. intros _. by rewrite Z.min_l by lia.
  - pose proof (updatePod_records_expiry key pod new w Hp
                  (updatePod_sooner key pod new old s Hi Hne Hs Hge)) as Hrecords.
    unfold records_expiry in Hrecords.
    destruct (exec (updatePod key pod (Some new)) w) as [err w'].
    destruct Hrecords as (_ & Herr & Hcase). simpl.
    destruct err as [e |].
    + split; [| split; [done |]].
      * left. unfold recorded_expiry in Hrec |- *. by rewrite Hcase.
      * intros Hf. by rewrite Hf in Herr.
    + destruct Hcase as (cur & Hcur & Hidx).
      assert (recorded_expiry key w' (corev1.Namespace pod, corev1.Name pod) = Some new)
        as Hnow.
      { unfold recorded_expiry. rewrite Hcur. simpl. rewrite Hidx. simpl.
        by rewrite strconv_facts.ParseInt10_FormatInt10. }
      split; [by right |]. split; [| done]. intros _. by rewrite Z.min_r by lia.
Qed.

(** The recorded time after the first reconciliation of a pod. *)
Lemma updatePod_first (key : string) (pod : corev1.Pod) (new : Z) (w : World) :
  let k := (corev1.Namespace pod, corev1.Name pod) in
  let r := exec (updatePod key pod (Some new)) w in
  pods w !! k = Some pod →
  index (corev1.Annotations pod) key = None
  ∨ index (corev1.Annotations pod) key = Some EmptyString →
  - 2 ^ 63 ≤ new < 2 ^ 63 →
  r.1 = faults w (clock w) (Patch (with_expiry key pod new) (with_map pod))
  ∧ (r.1 = None → recorded_expiry key r.2 k = Some new)
  ∧ (r.1 ≠ None → pods r.2 = pods w).
Proof.
  cbv zeta. intros Hp Hfresh Hnew.
  pose proof (updatePod_records_expiry key pod new w Hp
                (updatePod_fresh key pod new Hfresh)) as Hrecords.
  unfold records_expiry in Hrecords.
  destruct (exec (updatePod key pod (Some new)) w) as [err w'].
  destruct Hrecords as (_ & Herr & Hcase). simpl.
  split; [done |]. destruct err as [e |].
  - split; [done |]. done.
  - split; [| done]. intros _. destruct Hcase as (cur & Hcur & Hidx).
    unfold recorded_expiry. rewrite Hcur. simpl. rewrite Hidx. simpl.
    by rewrite strconv_facts.ParseInt10_FormatInt10.
Qed.

(** X10: the recorded expiration time only moves sooner.  When the
    cluster holds the pod that was read and its annotation records the
    time [old], then after updatePod with a time [new] of an int64 the
    annotation still records a time, which is [old] or [new] and is not
    later than [old]; when updatePod returns nil it is the sooner of the
    two. *)
Theorem recorded_expiry_only_moves_sooner
    (key : string) (pod : corev1.Pod) (new old : Z) (w : World) :
  let k := (corev1.Namespace pod, corev1.Name pod) in
  let r := exec (updatePod key pod (Some new)) w in
  pods w !! k = Some pod →
  recorded_expiry key w k = Some old →
  - 2 ^ 63 ≤ new < 2 ^ 63 →
  (∃ v, recorded_expiry key r.2 k = Some v ∧ v ≤ old ∧ (v = old ∨ v = new))
  ∧ (r.1 = None → recorded_expiry key r.2 k = Some (Z.min old new)).
Proof.
  cbv zeta. intros Hp Hrec Hnew.
  destruct (updatePod_min key pod new old w Hp Hrec Hnew) as (Hcases & Hmin & _).
  split; [| exact Hmin].
  destruct Hcases as [Hold | [Hle Hn]].
  - exists old. split; [done |]. split; [lia | by left].
  - exists new. split; [done |]. split; [done | by right].
Qed.

Lemma recorded_expiry_only_moves_sooner_witness :
  let prior := Some ({[ sample_key := "1000" ]} : gmap string string) in
  recorded_expiry sample_key
    (exec (updatePod sample_key (sample_pod prior) (Some 900))
          (sample_world prior (Some 900))).2 ("default", "web")
  = Some (Z.min 1000 900).
Proof.
  cbv zeta.
  apply (proj2 (recorded_expiry_only_moves_sooner sample_key
                  (sample_pod (Some {[ sample_key := "1000" ]})) 900 1000
                  (sample_world (Some {[ sample_key := "1000" ]}) (Some 900))
                  ltac:(reflexivity) ltac:(vm_compute; reflexivity) ltac:(lia))).
  vm_compute. reflexivity.
Defined.

(** The pod stays in the cluster under its name. *)
Lemma updatePod_held (key : string) (pod cur : corev1.Pod) (expiresTime : option Z)
    (w : World) :
  let k := (corev1.Namespace pod, corev1.Name pod) in
  pods w !! k = Some cur →
  ∃ cur', pods (exec (updatePod key pod expiresTime) w).2 !! k = Some cur'
          ∧ corev1.Name cur' = corev1.Name cur
          ∧ corev1.Namespace cur' = corev1.Namespace cur.
Proof.
  cbv zeta. intros Hcur.
  destruct (exec_trace_in (updatePod key pod expiresTime) w) as [Hr Hh].
  set (t := trace_in _ w) in *. set (x := exec _ w) in *.
  destruct x as [r w']. simpl in *. clearbody t.
  apply runs_updatePod in Hr. destruct Hr as [err | new err Hnew].
  - simpl in Hh. subst w'. by exists cur.
  - cbn [history projT1 projT2 ev] in Hh. destruct Hh as [_ ->].
    pose proof (handle_Patch (with_expiry key pod new) (with_map pod) w) as Hp.
    cbv zeta in Hp. destruct (with_expiry_names key pod new) as [-> ->] in Hp.
    destruct Hp as [_ Hthis]. rewrite Hcur in Hthis.
    destruct Hthis as [Hsame | Hpatched]; [by exists cur |].
    exists (patch_pod (with_expiry key pod new) (with_map pod) cur).
    split; [done |]. apply patch_pod_names.
Qed.

Lemma exec_env {R : Type} (p : Prog R) (w : World) :
  faults (exec p w).2 = faults w.
Proof.
  destruct (exec_trace_in p w) as [_ Hh].
  by destruct (history_env _ _ _ Hh) as (_ & ? & _).
Qed.

(** Two reconciliations of a pod without a recorded time. *)
Lemma two_reconciliations (key : string) (pod : corev1.Pod) (n1 n2 : Z) (w : World) :
  let k := (corev1.Namespace pod, corev1.Name pod) in
  let w1 := (exec (updatePod key pod (Some n1)) w).2 in
  pods w !! k = Some pod →
  index (corev1.Annotations pod) key = None
  ∨ index (corev1.Annotations pod) key = Some EmptyString →
  - 2 ^ 63 ≤ n1 < 2 ^ 63 → - 2 ^ 63 ≤ n2 < 2 ^ 63 →
  (∀ n c, faults w n c = None) →
  ∃ pod1, pods w1 !! k = Some pod1
          ∧ recorded_expiry key w1 k = Some n1
          ∧ recorded_expiry key (exec (updatePod key pod1 (Some n2)) w1).2 k
            = Some (Z.min n1 n2).
Proof.
  cbv zeta. intros Hp Hfresh Hn1 Hn2 Hf.
  destruct (updatePod_first key pod n1 w Hp Hfresh Hn1) as (Herr & Hrec & _).
  rewrite Hf in Herr. specialize (Hrec Herr).
  destruct (updatePod_held key pod pod (Some n1) w Hp) as (pod1 & Hp1 & Hname & Hns).
  exists pod1. split; [done |]. split; [done |].
  pose proof (exec_env (updatePod key pod (Some n1)) w) as Hf1.
  set (w1 := (exec (updatePod key pod (Some n1)) w).2) in *.
  rewrite <- Hname, <- Hns in Hp1, Hrec |- *.
  destruct (updatePod_min key pod1 n2 n1 w1 Hp1 Hrec Hn2) as (_ & Hmin & Hnone).
  apply Hmin, Hnone. intros c. rewrite Hf1. apply Hf.
Qed.

(** X11: reconciliations commute.  On a pod without a recorded time and
    with no failure of a call, two calls of updatePod with the times n1
    and n2, the second on the pod as the cluster holds it after the
    first, record the sooner of n1 and n2, in either order. *)
Theorem reconciliations_commute (key : string) (pod : corev1.Pod) (n1 n2 : Z)
    (w : World) :
  let k := (corev1.Namespace pod, corev1.Name pod) in
  let first n := (exec (updatePod key pod (Some n)) w).2 in
  let second n cur m := (exec (updatePod key cur (Some m)) (first n)).2 in
  pods w !! k = Some pod →
  index (corev1.Annotations pod) key = None
  ∨ index (corev1.Annotations pod) key = Some EmptyString →
  - 2 ^ 63 ≤ n1 < 2 ^ 63 → - 2 ^ 63 ≤ n2 < 2 ^ 63 →
  (∀ n c, faults w n c = None) →
  ∃ pod1 pod2,
    pods (first n1) !! k = Some pod1
    ∧ pods (first n2) !! k = Some pod2
    ∧ recorded_expiry key (second n1 pod1 n2) k = Some (Z.min n1 n2)
    ∧ recorded_expiry key (second n2 pod2 n1) k = Some (Z.min n1 n2).
Proof.
  cbv zeta. intros Hp Hfresh Hn1 Hn2 Hf.
  destruct (two_reconciliations key pod n1 n2 w Hp Hfresh Hn1 Hn2 Hf)
    as (pod1 & Hp1 & _ & H12).
  destruct (two_reconciliations key pod n2 n1 w Hp Hfresh Hn2 Hn1 Hf)
    as (pod2 & Hp2 & _ & H21).
  exists pod1, pod2. rewrite (Z.min_comm n1 n2) at 2. done.
Qed.

Lemma reconciliations_commute_witness :
  let w := sample_world None None in
  let first n := (exec (updatePod sample_key (sample_pod None) (Some n)) w).2 in
  ∃ pod1 pod2,
    pods (first 900) !! ("default", "web") = Some pod1
    ∧ pods (first 500) !! ("default", "web") = Some pod2
    ∧ recorded_expiry sample_key
        (exec (updatePod sample_key pod1 (Some 500)) (first 900)).2 ("default", "web")
      = Some (Z.min 900 500)
    ∧ recorded_expiry sample_key
        (exec (updatePod sample_key pod2 (Some 900)) (first 500)).2 ("default", "web")
      = Some (Z.min 900 500).
Proof.
  cbv zeta.
  apply (reconciliations_commute sample_key (sample_pod None) 900 500
           (sample_world None None)).
  - reflexivity.
  - left. reflexivity.
  - lia.
  - lia.
  - reflexivity.
Defined.

(** X12: the annotation after a publish that succeeds.  With no
    expiration time from the backend the pods are as before.  With the
    time [new] (an int64), for a pod stored under its own name: a
    recorded time [old] becomes the sooner of [old] and [new], and a
    missing or empty annotation becomes [new]. *)
Theorem publish_records_the_soonest_expiry
    (key : string) (sel : gomap → result volume.VolumeSelector)
    (req : csi.NodePublishVolumeRequest.t) (w : World) :
  let publish := NodePublishVolume key sel req in
  let w' := (exec publish w).2 in
  (exec publish w).1 = Ok csi.mkNodePublishVolumeResponse →
  ∃ vs class pod content,
    let k := (volume.PodNamespace vs, volume.Pod vs) in
    sel (csi.NodePublishVolumeRequest.GetVolumeContext req) = Ok vs
    ∧ classes w !! volume.Class vs = Some class
    ∧ pods w !! k = Some pod
    ∧ backend w pod vs class = Ok content
    ∧ (ExpiresTime content = None → pods w' = pods w)
    ∧ (∀ new,
         ExpiresTime content = Some new → - 2 ^ 63 ≤ new < 2 ^ 63 →
         (corev1.Namespace pod, corev1.Name pod) = k →
         (∀ old, recorded_expiry key w k = Some old →
                 recorded_expiry key w' k = Some (Z.min old new))
         ∧ (index (corev1.Annotations pod) key = None
            ∨ index (corev1.Annotations pod) key = Some EmptyString →
            recorded_expiry key w' k = Some new)).
Proof.
  cbv zeta. intros Hok.
  destruct (publish_done_model key sel req w Hok)
    as (vs & class & pod & content & w3 & w4 & Hsel & Hc & Hp & Hb & _ & _
        & _ & Hps & _ & Hupd & _ & _).
  destruct Hsel as (_ & _ & Hvs & _).
  exists vs, class, pod, content.
  split; [done |]. split; [done |]. split; [done |]. split; [done |].
  set (w' := (exec (NodePublishVolume key sel req) w).2) in *. clearbody w'.
  split.
  - intros Hnone. rewrite Hnone in Hupd.
    assert (exec (updatePod key pod None) w4 = (None, w4)) as Hskip by reflexivity.
    rewrite Hskip in Hupd. injection Hupd as <-. done.
  - intros new Hsome Hnew Hk. rewrite Hsome in Hupd. rewrite <- Hk in Hp |- *.
    assert (pods w4 !! (corev1.Namespace pod, corev1.Name pod) = Some pod) as Hp4.
    { by rewrite Hps. }
    assert (∀ o, recorded_expiry key w (corev1.Namespace pod, corev1.Name pod) = o →
                 recorded_expiry key w4 (corev1.Namespace pod, corev1.Name pod) = o)
      as Hrec4.
    { intros o <-. unfold recorded_expiry. by rewrite Hps. }
    split.
    + intros old Hold.
      destruct (updatePod_min key pod new old w4 Hp4 (Hrec4 _ Hold) Hnew)
        as (_ & Hmin & _).
      rewrite Hupd in Hmin. by apply Hmin.
    + intros Hfresh.
      destruct (updatePod_first key pod new w4 Hp4 Hfresh Hnew) as (_ & Hrec & _).
      rewrite Hupd in Hrec. by apply Hrec.
Qed.

Lemma publish_records_the_soonest_expiry_witness :
  let prior := Some ({[ sample_key := "1000" ]} : gmap string string) in
  recorded_expiry sample_key
    (exec (NodePublishVolume sample_key sample_selector sample_request)
          (sample_world prior (Some 900))).2 ("default", "web")
  = Some (Z.min 1000 900).
Proof.
  cbv zeta.
  destruct (publish_records_the_soonest_expiry sample_key sample_selector sample_request
              (sample_world (Some {[ sample_key := "1000" ]}) (Some 900)))
    as (vs & class & pod & content & H1 & _ & H3 & H4 & _ & Hrec).
  - vm_compute. reflexivity.
  - assert (Ok vs = Ok {| volume.Class := "tls"; volume.Pod := "web";
                          volume.PodNamespace := "default" |}) as Hvs
      by (rewrite <- H1; reflexivity).
    injection Hvs as ->.
    assert (Some pod = Some (sample_pod (Some {[ sample_key := "1000" ]}))) as Hpod
      by (rewrite <- H3; reflexivity).
    injection Hpod as ->.
    assert (Ok content = Ok (sample_content (Some 900))) as Hcontent
      by (rewrite <- H4; reflexivity).
    injection Hcontent as ->.
    destruct (Hrec 900 eq_refl ltac:(lia) eq_refl) as [Hmin _].
    apply Hmin. vm_compute. reflexivity.
Defined.

(** ** Further properties: the writer on plain names *)

Lemma handle_WriteFile_ok (name data : string) (perm : N) (w : World) :
  faults w (clock w) (WriteFile name data perm) = None →
  is_dir (fs w) (parent (resolve name)) = true →
  resolve name ≠ [] →
  (∀ pm, fs w !! resolve name ≠ Some (Dir pm)) →
  (handle (WriteFile name data perm) w).1 = None
  ∧ ∃ perm', fs (handle (WriteFile name data perm) w).2
             = <[resolve name := File data perm']> (fs w).
Proof.
  intros Hf Hdir Hp Hnd. rewrite handle_ok by done. simpl. rewrite Hdir. simpl.
  destruct (resolve name) as [| x p]; [done |].
  destruct (fs w !! (x :: p)) as [[pm | d pm] |] eqn:Hq; simpl.
  - by destruct (Hnd pm).
  - eauto.
  - eauto.
Qed.

Lemma exec_writeData_range_ok (targetPath : string) (entries : list (string * string))
    (w : World) :
  let dir := resolve targetPath in
  (∀ n c, faults w n c = None) →
  is_dir (fs w) dir = true →
  (∀ entry, entry ∈ entries →
            target_of targetPath entry = (dir ++ [entry.1])%list
            ∧ ∀ pm, fs w !! (dir ++ [entry.1])%list ≠ Some (Dir pm)) →
  (exec (writeData_range targetPath entries) w).1 = None.
Proof.
  cbv zeta. revert w. induction entries as [| entry rest IH]; intros w Hf Hdir Hall;
    [done |].
  rewrite exec_writeData_range_cons.
  destruct (Hall entry) as [Ht Hnd]; [by left |].
  unfold target_of in Ht.
  destruct (handle_WriteFile_ok (filepath.Join [targetPath; entry.1]) entry.2 mode_0644 w)
    as [Hok [perm' Hfs]].
  { apply Hf. }
  { by rewrite Ht, parent_snoc. }
  { rewrite Ht. intros H. by apply app_eq_nil in H as [_ ?]. }
  { by rewrite Ht. }
  unfold write_of. rewrite Hok.
  set (w1 := (handle (WriteFile _ _ _) w).2) in *.
  apply IH.
  - intros n c. unfold w1. rewrite (proj1 (proj2 (handle_env _ _))). apply Hf.
  - rewrite Hfs, Ht. rewrite is_dir_insert_file; [done |].
    intros H. apply (f_equal length) in H. rewrite length_app in H. simpl in H. lia.
  - intros entry' Hin. destruct (Hall entry') as [Ht' Hnd']; [by right |].
    split; [done |]. intros pm. rewrite Hfs, Ht.
    destruct (decide ((resolve targetPath ++ [entry.1])%list
                      = (resolve targetPath ++ [entry'.1])%list)) as [-> | Hne].
    + by rewrite lookup_insert_eq.
    + rewrite lookup_insert_ne by done. apply Hnd'.
Qed.

(** X13: writeData on plain names (one element, other than "." and
    ".."), when the iteration visits each entry once.  Only the paths
    directly in the target directory under one of the names can change,
    also when a write fails.  When it returns nil each entry is a file
    with its content under its name.  With no failure of a call, a
    directory at the target path and no directory under one of the names,
    it returns nil. *)
Theorem writeData_plain_names (targetPath : string) (data : gmap string string)
    (w : World) :
  let dir := resolve targetPath in
  let r := (exec (writeData targetPath data) w).1 in
  let w' := (exec (writeData targetPath data) w).2 in
  targetPath ≠ EmptyString →
  (∀ name, is_Some (data !! name) → plain name) →
  range_order w data ≡ₚ map_to_list data →
  (∀ q, (∀ name, is_Some (data !! name) → q ≠ (dir ++ [name])%list) →
        fs w' !! q = fs w !! q)
  ∧ (r = None →
     ∀ name body, data !! name = Some body →
                  ∃ perm, fs w' !! (dir ++ [name])%list = Some (File body perm))
  ∧ ((∀ n c, faults w n c = None) →
     is_dir (fs w) dir = true →
     (∀ name pm, is_Some (data !! name) → fs w !! (dir ++ [name])%list ≠ Some (Dir pm)) →
     r = None).
Proof.
  cbv zeta. intros Htp Hplain Hperm.
  assert (∀ entry, entry ∈ range_order w data →
                   is_Some (data !! entry.1)
                   ∧ target_of targetPath entry
                     = (resolve targetPath ++ [entry.1])%list) as Htarget.
  { intros [name body] Hin. rewrite Hperm in Hin. apply elem_of_map_to_list in Hin.
    split; [by eexists |].
    destruct (Hplain name) as [Hr Hs]; [by eexists |].
    unfold target_of. cbn [fst snd]. by apply filepath_facts.resolve_Join_name. }
  destruct (writeData_model targetPath data w) as (wrote & Hpre & Hall & Hfiles & Hframe).
  split; [| split].
  - intros q Hq. apply Hframe. intros entry Hin.
    destruct (Htarget entry) as [Hsome Ht].
    { destruct Hpre as [rest ->]. apply elem_of_app. by left. }
    rewrite Ht. intros <-. by eapply Hq.
  - intros Hok name body Hname. specialize (Hall Hok). subst wrote.
    assert ((name, body) ∈ range_order w data) as Hin.
    { rewrite Hperm. by apply elem_of_map_to_list. }
    destruct (Hfiles (name, body) Hin) as [perm Hfile].
    { by eapply plain_settled. }
    destruct (Htarget _ Hin) as [_ Ht]. rewrite Ht in Hfile. by exists perm.
  - intros Hf Hdir Hnd. rewrite exec_writeData.
    apply exec_writeData_range_ok.
    + intros n c. apply Hf.
    + done.
    + intros entry Hin. destruct (Htarget entry Hin) as [Hsome Ht].
      split; [done |]. intros pm. by apply Hnd.
Qed.

Lemma writeData_plain_names_witness :
  let two : gmap string string := {[ "a" := "x"; "b" := "y" ]} in
  (exec (writeData sample_target two) occupied_world).1 = None
  ∧ ∃ perm, fs (exec (writeData sample_target two) occupied_world).2
              !! (resolve sample_target ++ ["b"])%list = Some (File "y" perm).
Proof.
  cbv zeta.
  assert (∀ name, is_Some (({[ "a" := "x"; "b" := "y" ]} : gmap string string) !! name)
                  → name = "a" ∨ name = "b") as Hnames.
  { intros name [body Hb]. apply lookup_insert_Some in Hb as [[<- _] | [_ Hb]];
      [by left |].
    apply lookup_singleton_Some in Hb as [<- _]. by right. }
  destruct (writeData_plain_names sample_target {[ "a" := "x"; "b" := "y" ]}
              occupied_world) as (_ & Hfiles & Hok).
  - discriminate.
  - intros name [-> | ->]%Hnames; repeat split; discriminate.
  - reflexivity.
  - assert ((exec (writeData sample_target {[ "a" := "x"; "b" := "y" ]})
                  occupied_world).1 = None) as Hnone.
    { apply Hok.
      - reflexivity.
      - vm_compute. reflexivity.
      - intros name pm [-> | ->]%Hnames; vm_compute; discriminate. }
    split; [exact Hnone |]. apply (Hfiles Hnone "b" "y"). reflexivity.
Defined.

(** ** Further properties: what an unpublish takes away *)

Lemma remove_all_other (f : gmap (list string) node) (p q : list string) :
  ¬ p `prefix_of` q → remove_all f p !! q = f !! q.
Proof.
  intros Hq. unfold remove_all. destruct (f !! q) as [n |] eqn:Hf.
  - by apply map_lookup_filter_Some_2.
  - apply map_lookup_filter_None_2. by left.
Qed.

Lemma remove_under_other (f : gmap (list string) node) (p q : list string) :
  ¬ p `prefix_of` q → remove_under f p !! q = f !! q.
Proof.
  intros Hq. unfold remove_under. destruct (f !! q) as [n |] eqn:Hf.
  - apply map_lookup_filter_Some_2; [done |]. simpl. by intros [? _].
  - apply map_lookup_filter_None_2. by left.
Qed.

Lemma elem_of_unmount_first (ms : list MountPoint) (p : list string) (m : MountPoint) :
  (m ∈ unmount_first ms p → m ∈ ms)
  ∧ (m ∈ ms → Path m ≠ p → m ∈ unmount_first ms p).
Proof.
  induction ms as [| m' ms IH]; [done |]. simpl.
  destruct (decide (Path m' = p)) as [Hp | Hp].
  - split; [by right |]. intros [-> | Hin]%elem_of_cons Hne; done.
  - split.
    + intros [-> | Hin]%elem_of_cons; [by left |]. right. by apply IH.
    + intros [-> | Hin]%elem_of_cons Hne; [by left |]. right. by apply IH.
Qed.

Lemma handle_Unmount (target : string) (w : World) :
  let w' := (handle (Unmount target) w).2 in
  pods w' = pods w
  ∧ (∀ q, ¬ resolve target `prefix_of` q → fs w' !! q = fs w !! q)
  ∧ (∀ m, m ∈ mounts w' → m ∈ mounts w)
  ∧ (∀ m, m ∈ mounts w → Path m ≠ resolve target → m ∈ mounts w').
Proof.
  cbv zeta. unfold handle. destruct (faults w (clock w) _); simpl; [done |].
  destruct (mounted_at (mounts w) (resolve target)); simpl; [| done].
  split; [done |]. split; [intros q Hq; by apply remove_under_other |].
  split; intros m; apply elem_of_unmount_first.
Qed.

Lemma handle_RemoveAll_frame (path : string) (w : World) :
  let w' := (handle (RemoveAll path) w).2 in
  pods w' = pods w
  ∧ (∀ q, ¬ resolve path `prefix_of` q → fs w' !! q = fs w !! q)
  ∧ mounts w' = mounts w.
Proof.
  cbv zeta. unfold handle. destruct (faults w (clock w) _); simpl; [done |].
  destruct (bool_decide _ || mounted_under _ _); simpl; [done |].
  split; [done |]. split; [| done]. intros q Hq. by apply remove_all_other.
Qed.

Lemma exec_unpublish (req : csi.NodeUnpublishVolumeRequest.t) (w : World) :
  let targetPath := csi.NodeUnpublishVolumeRequest.GetTargetPath req in
  (exec (NodeUnpublishVolume req) w).2 = w
  ∨ (csi.NodeUnpublishVolumeRequest.GetVolumeId req ≠ EmptyString
     ∧ targetPath ≠ EmptyString
     ∧ (exec (NodeUnpublishVolume req) w).2
       = (handle (RemoveAll targetPath) (handle (Unmount targetPath) w).2).2).
Proof.
  cbv zeta.
  destruct (decide (csi.NodeUnpublishVolumeRequest.GetVolumeId req = EmptyString))
    as [Hid | Hid].
  { left. unfold NodeUnpublishVolume. by rewrite decide_True. }
  destruct (decide (csi.NodeUnpublishVolumeRequest.GetTargetPath req = EmptyString))
    as [Htp | Htp].
  { left. unfold NodeUnpublishVolume. by rewrite decide_False, decide_True. }
  right. split; [done |]. split; [done |].
  by destruct (exec_NodeUnpublishVolume req w Hid Htp) as [_ ->].
Qed.

(** X14: NodeUnpublishVolume touches only the target.  Without a volume
    id or without a target path it returns a status of code
    InvalidArgument and makes no call.  In every execution its calls are
    the unmount and the removal of the target path.  In the model the
    pods and the classes are as before, every path that is not at or
    under the target is as before, no mount is added, and every mount on
    another path stays. *)
Theorem unpublish_touches_only_the_target (req : csi.NodeUnpublishVolumeRequest.t) :
  let targetPath := csi.NodeUnpublishVolumeRequest.GetTargetPath req in
  let unpublish := NodeUnpublishVolume req in
  (csi.NodeUnpublishVolumeRequest.GetVolumeId req = EmptyString
   ∨ targetPath = EmptyString →
   ∃ msg, unpublish = Ret (Err (status.Error codes.InvalidArgument msg)))
  ∧ (∀ t r, runs unpublish t r →
            Forall (λ c, c = Unmount targetPath ∨ c = RemoveAll targetPath) (calls t))
  ∧ (∀ w,
       let w' := (exec unpublish w).2 in
       pods w' = pods w
       ∧ classes w' = classes w
       ∧ (∀ q, ¬ resolve targetPath `prefix_of` q → fs w' !! q = fs w !! q)
       ∧ (∀ m, m ∈ mounts w' → m ∈ mounts w)
       ∧ (∀ m, m ∈ mounts w → Path m ≠ resolve targetPath → m ∈ mounts w')).
Proof.
  cbv zeta. split; [| split].
  - unfold NodeUnpublishVolume.
    destruct (decide (csi.NodeUnpublishVolumeRequest.GetVolumeId req = EmptyString))
      as [Hid | Hid]; [by eexists |].
    intros [? | Htp]; [done |]. rewrite decide_True by done. by eexists.
  - intros t r Hr.
    destruct (decide (csi.NodeUnpublishVolumeRequest.GetVolumeId req = EmptyString))
      as [Hid | Hid].
    { unfold NodeUnpublishVolume in Hr. rewrite decide_True in Hr by done.
      destruct Hr as [-> _]. constructor. }
    destruct (decide (csi.NodeUnpublishVolumeRequest.GetTargetPath req = EmptyString))
      as [Htp | Htp].
    { unfold NodeUnpublishVolume in Hr.
      rewrite decide_False, decide_True in Hr by done.
      destruct Hr as [-> _]. constructor. }
    destruct (runs_NodeUnpublishVolume req t r Hid Htp Hr) as (a & b & -> & _).
    unfold calls. simpl.
    apply Forall_cons. split; [by left |].
    apply Forall_cons. split; [by right |]. constructor.
  - intros w.
    assert (classes (exec (NodeUnpublishVolume req) w).2 = classes w) as Hcl.
    { destruct (exec_trace_in (NodeUnpublishVolume req) w) as [_ Hh].
      by destruct (history_env _ _ _ Hh) as (_ & _ & _ & ?). }
    revert Hcl.
    destruct (exec_unpublish req w) as [-> | (Hid & Htp & ->)]; [done |].
    intros Hcl.
    set (tp := csi.NodeUnpublishVolumeRequest.GetTargetPath req) in *.
    destruct (handle_Unmount tp w) as (Hp1 & Hfs1 & Hin1 & Hout1).
    destruct (handle_RemoveAll_frame tp (handle (Unmount tp) w).2)
      as (Hp2 & Hfs2 & Hms2).
    split; [by rewrite Hp2 |]. split; [done |]. split; [| split].
    + intros q Hq. by rewrite Hfs2, Hfs1.
    + intros m. rewrite Hms2. apply Hin1.
    + intros m. rewrite Hms2. apply Hout1.
Qed.

Lemma unpublish_touches_only_the_target_witness :
  let w1 := (exec (NodePublishVolume sample_key sample_selector sample_request)
                  (sample_world None None)).2 in
  fs (exec (NodeUnpublishVolume sample_unpublish) w1).2 !! ["var"] = fs w1 !! ["var"]
  ∧ ∃ msg, NodeUnpublishVolume
             {| csi.NodeUnpublishVolumeRequest.GetVolumeId := EmptyString;
                csi.NodeUnpublishVolumeRequest.GetTargetPath := sample_target |}
           = Ret (Err (status.Error codes.InvalidArgument msg)).
Proof.
  cbv zeta. split.
  - apply (proj2 (proj2 (unpublish_touches_only_the_target sample_unpublish))).
    intros [rest H]. discriminate H.
  - apply (proj1 (unpublish_touches_only_the_target
                    {| csi.NodeUnpublishVolumeRequest.GetVolumeId := EmptyString;
                       csi.NodeUnpublishVolumeRequest.GetTargetPath := sample_target |})).
    left. reflexivity.
Defined.





(** ** Further properties: staging and the capabilities *)

Lemma is_empty_spec (s : string) : is_empty s = true ↔ s = EmptyString.
Proof.
  unfold is_empty. rewrite bool_decide_eq_true. destruct s; simpl; split; done.
Qed.

Lemma is_empty_false (s : string) : is_empty s = false ↔ s ≠ EmptyString.
Proof.
  rewrite <- is_empty_spec. by destruct (is_empty s).
Qed.

(** X16: NodeStageVolume and NodeUnstageVolume only check the request,
    without a call.  NodeStageVolume succeeds exactly when the volume id
    and the staging target path are not empty and a capability is given,
    NodeUnstageVolume exactly when the id and the path are not empty;
    otherwise each returns a status of code InvalidArgument. *)
Theorem staging_checks_the_request (req : csi.NodeStageVolumeRequest.t) :
  let id := csi.NodeStageVolumeRequest.GetVolumeId req in
  let path := csi.NodeStageVolumeRequest.GetStagingTargetPath req in
  let undo := {| csi.NodeUnstageVolumeRequest.GetVolumeId := id;
                 csi.NodeUnstageVolumeRequest.GetStagingTargetPath := path |} in
  (NodeStageVolume req = Ret (Ok csi.mkNodeStageVolumeResponse)
   ↔ id ≠ EmptyString ∧ path ≠ EmptyString
     ∧ csi.NodeStageVolumeRequest.GetVolumeCapability req ≠ None)
  ∧ (NodeUnstageVolume undo = Ret (Ok csi.mkNodeUnstageVolumeResponse)
     ↔ id ≠ EmptyString ∧ path ≠ EmptyString)
  ∧ (NodeStageVolume req = Ret (Ok csi.mkNodeStageVolumeResponse)
     ∨ ∃ msg, NodeStageVolume req = Ret (Err (status.Error codes.InvalidArgument msg)))
  ∧ (NodeUnstageVolume undo = Ret (Ok csi.mkNodeUnstageVolumeResponse)
     ∨ ∃ msg, NodeUnstageVolume undo
              = Ret (Err (status.Error codes.InvalidArgument msg))).
Proof.
  cbv zeta. unfold NodeStageVolume, NodeUnstageVolume. simpl.
  destruct (is_empty (csi.NodeStageVolumeRequest.GetVolumeId req)) eqn:Hid.
  { apply is_empty_spec in Hid.
    split; [split; [done | by intros (? & _)] |].
    split; [split; [done | by intros (? & _)] |].
    split; right; by eexists. }
  apply is_empty_false in Hid.
  destruct (is_empty (csi.NodeStageVolumeRequest.GetStagingTargetPath req)) eqn:Hp.
  { apply is_empty_spec in Hp.
    split; [split; [done | by intros (_ & ? & _)] |].
    split; [split; [done | by intros (_ & ?)] |].
    split; right; by eexists. }
  apply is_empty_false in Hp.
  destruct (decide (csi.NodeStageVolumeRequest.GetVolumeCapability req = None))
    as [Hcap | Hcap].
  { split; [split; [done | by intros (_ & _ & ?)] |].
    split; [done |]. split; [right; by eexists | by left]. }
  split; [done |]. split; [done |]. split; by left.
Qed.

Lemma staging_checks_the_request_witness :
  NodeStageVolume {| csi.NodeStageVolumeRequest.GetVolumeId := "v1";
                     csi.NodeStageVolumeRequest.GetStagingTargetPath := "/staging/v1";
                     csi.NodeStageVolumeRequest.GetVolumeCapability :=
                       Some csi.VolumeCapability_Mount |}
  = Ret (Ok csi.mkNodeStageVolumeResponse)
  ∧ NodeUnstageVolume {| csi.NodeUnstageVolumeRequest.GetVolumeId := "v1";
                         csi.NodeUnstageVolumeRequest.GetStagingTargetPath :=
                           "/staging/v1" |}
    = Ret (Ok csi.mkNodeUnstageVolumeResponse).
Proof.
  destruct (staging_checks_the_request
              {| csi.NodeStageVolumeRequest.GetVolumeId := "v1";
                 csi.NodeStageVolumeRequest.GetStagingTargetPath := "/staging/v1";
                 csi.NodeStageVolumeRequest.GetVolumeCapability :=
                   Some csi.VolumeCapability_Mount |})
    as (Hstage & Hunstage & _).
  split.
  - apply Hstage. repeat split; discriminate.
  - apply Hunstage. repeat split; discriminate.
Defined.

(** X17: the capabilities that the node announces are those that it
    serves.  NodeGetCapabilities returns one capability, of the kind
    STAGE_UNSTAGE_VOLUME; the methods behind GET_VOLUME_STATS and
    EXPAND_VOLUME, which are not announced, return Unimplemented, and
    NodeStageVolume and NodeUnstageVolume never do. *)
Theorem announced_capabilities_are_served :
  ∃ resp,
    NodeGetCapabilities = Ret (Ok resp)
    ∧ (∀ kind,
         {| csi.Type' := csi.NodeServiceCapability_Rpc {| csi.RPC_Type := kind |} |}
           ∈ csi.Capabilities resp
         ↔ kind = csi.NodeServiceCapability_RPC_STAGE_UNSTAGE_VOLUME)
    ∧ length (csi.Capabilities resp) = 1%nat
    ∧ NodeGetVolumeStats = Ret (Err (status.Error codes.Unimplemented EmptyString))
    ∧ NodeExpandVolume = Ret (Err (status.Error codes.Unimplemented EmptyString))
    ∧ (∀ req msg, NodeStageVolume req
                  ≠ Ret (Err (status.Error codes.Unimplemented msg)))
    ∧ (∀ req msg, NodeUnstageVolume req
                  ≠ Ret (Err (status.Error codes.Unimplemented msg))).
Proof.
  eexists. split; [reflexivity |]. simpl. split; [| split; [done |]].
  { intros kind. rewrite list_elem_of_singleton. split; [by intros [= ->] | by intros ->]. }
  split; [done |]. split; [done |]. split.
  - intros req msg. unfold NodeStageVolume.
    repeat case_match; discriminate.
  - intros req msg. unfold NodeUnstageVolume.
    repeat case_match; discriminate.
Qed.

(** The node reports the id that it was built with, whatever its mounter
    and its client. *)
Lemma NodeGetInfo_NewNodeServer {M C : Type} (nodeId : string) (m : M) (c : C) :
  NodeGetInfo (NewNodeServer nodeId m c) = Ret (Ok {| csi.NodeId := nodeId |}).
Proof. reflexivity. Qed.

Lemma announced_capabilities_are_served_witness :
  ∃ resp, NodeGetCapabilities = Ret (Ok resp)
          ∧ length (csi.Capabilities resp) = 1%nat.
Proof.
  destruct announced_capabilities_are_served as (resp & Hresp & _ & Hone & _).
  exists resp. split; [exact Hresp | exact Hone].
Defined.

(** ** Further properties: when a publish succeeds *)

Lemma exec_env_all {R : Type} (p : Prog R) (w : World) :
  range_order (exec p w).2 = range_order w
  ∧ faults (exec p w).2 = faults w
  ∧ backend (exec p w).2 = backend w
  ∧ classes (exec p w).2 = classes w.
Proof.
  destruct (exec_trace_in p w) as [_ Hh]. exact (history_env _ _ _ Hh).
Qed.

Lemma exec_pods_frame {R : Type} (p : Prog R) (w : World) :
  (∀ t r, runs p t r → Forall (λ c, cluster_write c = false) (calls t)) →
  pods (exec p w).2 = pods w.
Proof.
  intros Hquiet. destruct (exec_trace_in p w) as [Hr Hh].
  eapply history_cluster_frame; [exact Hh |]. by eapply Hquiet.
Qed.

Lemma mount_pods (targetPath : string) (w : World) :
  pods (exec (mount targetPath) w).2 = pods w.
Proof.
  apply exec_pods_frame. intros t r Hr%runs_mount%mount_run_calls.
  eapply Forall_impl; [exact Hr |]. by intros c [? ?].
Qed.

Lemma writeData_pods (targetPath : string) (data : gmap string string) (w : World) :
  pods (exec (writeData targetPath data) w).2 = pods w.
Proof.
  apply exec_pods_frame. intros t r (entries & t' & -> & Hw)%runs_writeData.
  unfold calls. simpl. apply Forall_cons. split; [done |].
  eapply Forall_impl; [exact (write_run_quiet _ _ _ _ Hw) |]. by intros c [? ?].
Qed.

Lemma mount_done_model (targetPath : string) (w : World) :
  (exec (mount targetPath) w).1 = None →
  mkdir_all (fs w) [] (resolve targetPath) mode_0750
  = Some (fs (exec (mount targetPath) w).2).
Proof.
  destruct (exec_trace_in (mount targetPath) w) as [Hr Hh].
  apply runs_mount in Hr.
  set (t := trace_in _ w) in *. set (x := exec _ w) in *.
  destruct x as [r w']. simpl in *. clearbody t.
  intros ->. inversion Hr; subst.
  by apply mount_done_history in Hh as (_ & ? & _).
Qed.

Lemma writeData_ok (targetPath : string) (data : gmap string string) (w : World) :
  targetPath ≠ EmptyString →
  (∀ name, is_Some (data !! name) → plain name) →
  range_order w data ≡ₚ map_to_list data →
  (∀ n c, faults w n c = None) →
  is_dir (fs w) (resolve targetPath) = true →
  (∀ name pm, is_Some (data !! name) →
              fs w !! (resolve targetPath ++ [name])%list ≠ Some (Dir pm)) →
  (exec (writeData targetPath data) w).1 = None.
Proof.
  intros Htp Hplain Hperm Hf Hdir Hnd. rewrite exec_writeData.
  apply exec_writeData_range_ok.
  - intros n c. apply Hf.
  - done.
  - intros [name body] Hin. rewrite Hperm in Hin. apply elem_of_map_to_list in Hin.
    destruct (Hplain name) as [Hr Hs]; [by eexists |].
    split.
    + unfold target_of. cbn [fst snd]. by apply filepath_facts.resolve_Join_name.
    + intros pm. apply Hnd. by eexists.
Qed.

Lemma with_map_names (pod : corev1.Pod) :
  corev1.Name (with_map pod) = corev1.Name pod
  ∧ corev1.Namespace (with_map pod) = corev1.Namespace pod.
Proof. unfold with_map. by case_decide. Qed.

(** The annotation of the pod can be reconciled with a new time. *)
Lemma updatePod_ok (key : string) (pod : corev1.Pod) (expiresTime : option Z)
    (w : World) :
  pods w !! (corev1.Namespace pod, corev1.Name pod) = Some pod →
  (∀ c, faults w (clock w) c = None) →
  expiresTime = None
  ∨ index (corev1.Annotations pod) key = None
  ∨ index (corev1.Annotations pod) key = Some EmptyString
  ∨ (∃ s old, index (corev1.Annotations pod) key = Some s
              ∧ strconv.ParseInt10 s = (old, None)) →
  (exec (updatePod key pod expiresTime) w).1 = None.
Proof.
  intros Hp Hf Hcase.
  destruct expiresTime as [new |]; [| done].
  destruct Hcase as [? | [Hnone | [Hempty | (s & old & Hs & Hparse)]]]; [done | | |].
  - rewrite (updatePod_fresh key pod new) by by left.
    unfold call. rewrite exec_Vis, handle_ok by done. simpl.
    destruct (with_map_names pod) as [-> ->]. by rewrite Hp.
  - rewrite (updatePod_fresh key pod new) by by right.
    unfold call. rewrite exec_Vis, handle_ok by done. simpl.
    destruct (with_map_names pod) as [-> ->]. by rewrite Hp.
  - assert (s ≠ EmptyString) as Hne by (intros ->; discriminate Hparse).
    destruct (Z.lt_ge_cases old new) as [Hlt | Hge].
    + by rewrite (updatePod_later key pod new old s).
    + rewrite (updatePod_sooner key pod new old s) by done.
      unfold call. rewrite exec_Vis, handle_ok by done. simpl.
      destruct (with_map_names pod) as [-> ->]. by rewrite Hp.
Qed.

Lemma exec_call_bind {R : Type} (c : Call) (f : resp c → Prog R) (w : World) :
  exec (call c ≫= f) w = exec (f (handle c w).1) (handle c w).2.
Proof. unfold call, mbind, Prog_bind. simpl. by destruct (handle c w). Qed.

(** X18: when a publish succeeds.  For a request that passes the checks,
    with the class and the pod in the cluster, the pod stored under its
    own name, a backend that returns a content with plain names, no
    failure of a call, a target path other than the root with nothing at
    or under it and no file on the way to it, an iteration that visits
    each entry once, and an annotation that is missing, empty or a number
    (or no expiration time), NodePublishVolume returns success. *)
Theorem publish_succeeds
    (key : string) (sel : gomap → result volume.VolumeSelector)
    (req : csi.NodePublishVolumeRequest.t) (vs : volume.VolumeSelector)
    (class : secretsv1alpha1.SecretClass) (pod : corev1.Pod) (content : SecretContent)
    (w : World) :
  let targetPath := csi.NodePublishVolumeRequest.GetTargetPath req in
  let dir := resolve targetPath in
  selected sel req vs →
  classes w !! volume.Class vs = Some class →
  pods w !! (volume.PodNamespace vs, volume.Pod vs) = Some pod →
  (corev1.Namespace pod, corev1.Name pod) = (volume.PodNamespace vs, volume.Pod vs) →
  backend w pod vs class = Ok content →
  (∀ n c, faults w n c = None) →
  dir ≠ [] →
  (∀ q, dir `prefix_of` q → fs w !! q = None) →
  (∀ q d pm, q `prefix_of` dir → fs w !! q ≠ Some (File d pm)) →
  range_order w (Data content) ≡ₚ map_to_list (Data content) →
  (∀ name, is_Some (Data content !! name) → plain name) →
  ExpiresTime content = None
  ∨ index (corev1.Annotations pod) key = None
  ∨ index (corev1.Annotations pod) key = Some EmptyString
  ∨ (∃ s old, index (corev1.Annotations pod) key = Some s
              ∧ strconv.ParseInt10 s = (old, None)) →
  (exec (NodePublishVolume key sel req) w).1 = Ok csi.mkNodePublishVolumeResponse.
Proof.
  cbv zeta. intros (Hv & Htp & Hsel & Hclass) Hc Hp Hk Hb Hf Hdir Hfree Hway Hperm
    Hplain Hexp.
  unfold NodePublishVolume. rewrite Hv, decide_False, Hsel, decide_False by done.
  set (tp := csi.NodePublishVolumeRequest.GetTargetPath req) in *.
  rewrite (exec_call_bind (GetSecretClass _)), (handle_ok (GetSecretClass _)) by apply Hf.
  cbn [answer client.Name fst snd].
  change (classes (tick ?c ?w')) with (classes w'). rewrite Hc. cbn [fst snd].
  rewrite (exec_call_bind (GetPod _)), (handle_ok (GetPod _)) by apply Hf.
  cbn [answer client.Name client.Namespace fst snd].
  repeat progress change (pods (tick ?c ?w')) with (pods w'). rewrite Hp. cbn [fst snd].
  rewrite (exec_call_bind (GetSecretData _ _ _)), (handle_ok (GetSecretData _ _ _)) by apply Hf.
  cbn [answer fst snd].
  repeat progress change (backend (tick ?c ?w')) with (backend w'). rewrite Hb.
  cbn [fst snd].
  set (w0 := tick _ (tick _ (tick _ w))).
  assert (fs w0 = fs w ∧ pods w0 = pods w ∧ faults w0 = faults w
          ∧ range_order w0 = range_order w) as (Hfs0 & Hps0 & Hf0 & Hro0) by done.
  change (exec (mount tp ≫= ?f) w0) with (exec (bind (mount tp) f) w0).
  rewrite exec_bind.
  assert ((exec (mount tp) w0).1 = None) as Hmount.
  { apply exec_mount_ok.
    - intros n c. rewrite Hf0. apply Hf.
    - rewrite Hfs0. apply path_exists_absent; [done |]. by apply Hfree.
    - intros q d pm Hq. rewrite Hfs0. by apply Hway. }
  rewrite Hmount.
  pose proof (mount_done_model tp w0 Hmount) as Hmk.
  pose proof (mount_pods tp w0) as Hps1.
  destruct (exec_env_all (mount tp) w0) as (Hro1 & Hf1 & _ & _).
  set (w1 := (exec (mount tp) w0).2) in *. clearbody w1.
  change (exec (writeData tp ?d ≫= ?f) w1) with (exec (bind (writeData tp d) f) w1).
  rewrite exec_bind.
  assert ((exec (writeData tp (Data content)) w1).1 = None) as Hwrite.
  { apply writeData_ok; try done.
    - by rewrite Hro1, Hro0.
    - intros n c. rewrite Hf1, Hf0. apply Hf.
    - by eapply mkdir_all_is_dir.
    - intros name pm Hname Hd.
      destruct (mkdir_all_new _ _ _ _ _ (resolve tp ++ [name])%list Hmk)
        as [Heq | (_ & _ & Hpre)].
      + rewrite Heq, Hfs0, Hfree in Hd; [done |]. by apply prefix_app_r.
      + simpl in Hpre. apply prefix_length in Hpre. rewrite length_app in Hpre.
        simpl in Hpre. lia. }
  rewrite Hwrite.
  pose proof (writeData_pods tp (Data content) w1) as Hps2.
  destruct (exec_env_all (writeData tp (Data content)) w1) as (_ & Hf2 & _ & _).
  set (w2 := (exec (writeData tp (Data content)) w1).2) in *. clearbody w2.
  change (exec (updatePod key ?p ?e ≫= ?f) w2) with (exec (bind (updatePod key p e) f) w2).
  rewrite exec_bind. unfold corev1.DeepCopy.
  rewrite (updatePod_ok key pod (ExpiresTime content) w2); [done | | | done].
  - by rewrite Hk, Hps2, Hps1, Hps0.
  - intros c. rewrite Hf2, Hf1, Hf0. apply Hf.
Qed.

Lemma publish_succeeds_witness :
  (exec (NodePublishVolume sample_key sample_selector sample_request)
        (sample_world None (Some 900))).1
  = Ok csi.mkNodePublishVolumeResponse.
Proof.
  apply (publish_succeeds sample_key sample_selector sample_request
           {| volume.Class := "tls"; volume.Pod := "web";
              volume.PodNamespace := "default" |}
           sample_class (sample_pod None) (sample_content (Some 900))).
  - split; [vm_compute; reflexivity |]. split; [discriminate |].
    split; [vm_compute; reflexivity | discriminate].
  - reflexivity.
  - reflexivity.
  - reflexivity.
  - reflexivity.
  - reflexivity.
  - vm_compute. discriminate.
  - intros q [k ->].
    change (fs (sample_world None (Some 900)))
      with ({[ ["var"] := Dir mode_0750 ]} : gmap (list string) node).
    apply lookup_singleton_ne. intros H. cbv in H. discriminate H.
  - intros q d pm Hq Hfile.
    change (fs (sample_world None (Some 900)))
      with ({[ ["var"] := Dir mode_0750 ]} : gmap (list string) node) in Hfile.
    apply lookup_singleton_Some in Hfile as [_ Hfile]. discriminate Hfile.
  - reflexivity.
  - intros name [body Hb].
    change (Data (sample_content (Some 900)))
      with ({[ "a" := "x"; "b" := "y" ]} : gmap string string) in Hb.
    apply lookup_insert_Some in Hb as [[<- _] | [_ Hb]];
      [repeat split; discriminate |].
    apply lookup_singleton_Some in Hb as [<- _]. repeat split; discriminate.
  - right. left. reflexivity.
Defined.

(** ** Further properties: a publish that fails after the mount *)

(** X19: NodePublishVolume does not roll back.  Once the mounter has
    mounted the target, whatever happens afterwards, at the end the
    target is a directory and its tmpfs entry is in the mount table; a
    further publish of the same request then returns an error and leaves
    the node and the pods as they are. *)
Theorem publish_never_rolls_back
    (key : string) (sel : gomap → result volume.VolumeSelector)
    (req : csi.NodePublishVolumeRequest.t) (w : World) :
  let targetPath := csi.NodePublishVolumeRequest.GetTargetPath req in
  let publish := NodePublishVolume key sel req in
  let w' := (exec publish w).2 in
  ev (Mount "tmpfs" targetPath "tmpfs" ["noexec"; "nosuid"; "nodev"]) None
    ∈ trace_in publish w →
  is_dir (fs w') (resolve targetPath) = true
  ∧ tmpfs_at targetPath ∈ mounts w'
  ∧ (∃ e, (exec publish w').1 = Err e)
  ∧ fs (exec publish w').2 = fs w'
  ∧ mounts (exec publish w').2 = mounts w'
  ∧ pods (exec publish w').2 = pods w'.
Proof.
  cbv zeta. intros Hin.
  destruct (exec_trace_in (NodePublishVolume key sel req) w) as [Hr Hh].
  apply runs_NodePublishVolume, publish_run_no_removal in Hr.
  set (t := trace_in _ w) in *. set (x := exec _ w) in *.
  destruct x as [r w']. simpl in *. clearbody t.
  apply list_elem_of_split in Hin as (t1 & t2 & ->).
  apply history_app in Hh as (w1 & _ & Hm & Hh). cbn [projT1 projT2 ev] in Hm, Hh.
  rewrite calls_app in Hr. apply Forall_app in Hr as [_ Hr].
  unfold calls in Hr. simpl in Hr. apply Forall_cons in Hr as [_ Hr].
  destruct (history_grows _ _ _ Hh Hr) as (_ & Hdirs & Hsuffix).
  assert (is_dir (fs w') (resolve (csi.NodePublishVolumeRequest.GetTargetPath req))
          = true) as Hdir.
  { eapply is_dir_grows; [exact Hdirs |]. rewrite handle_Mount_fs.
    by eapply handle_Mount_dir. }
  split; [exact Hdir |]. split.
  - destruct Hsuffix as [k ->]. apply elem_of_app. right.
    rewrite (handle_Mount _ _ _ _ _ Hm). by left.
  - apply publish_on_existing. by apply is_dir_path_exists.
Qed.

Lemma publish_never_rolls_back_witness :
  let publish := NodePublishVolume sample_key sample_selector sample_request in
  let w' := (exec publish broken_client_world).2 in
  (exec publish broken_client_world).1
  = Err (status.Error codes.Internal "the object has been modified")
  ∧ is_dir (fs w') (resolve sample_target) = true
  ∧ tmpfs_at sample_target ∈ mounts w'
  ∧ ∃ e, (exec publish w').1 = Err e.
Proof.
  cbv zeta. split; [vm_compute; reflexivity |].
  destruct (publish_never_rolls_back sample_key sample_selector sample_request
              broken_client_world) as (Hdir & Hm & Hagain & _).
  - apply (list_elem_of_lookup_2 _ 5%nat). vm_compute. reflexivity.
  - split; [exact Hdir |]. split; [exact Hm | exact Hagain].
Defined.

(** ** Further properties: the shape of a publish *)


Lemma publish_run_kind
    (key : string) (sel : gomap → result volume.VolumeSelector)
    (req : csi.NodePublishVolumeRequest.t) (t : list Event)
    (r : result csi.NodePublishVolumeResponse) :
  publish_run key sel req t r →
  (t = [] ∧ (∃ msg, r = Err (status.Error codes.InvalidArgument msg))
   ∧ ∀ vs, ¬ selected sel req vs)
  ∨ (t ≠ [] ∧ (r = Ok csi.mkNodePublishVolumeResponse
               ∨ ∃ msg, r = Err (status.Error codes.Internal msg))
     ∧ ∃ vs, selected sel req vs).
Proof.
  intros Hr. publish_cases Hr.
  - left. split; [done |]. split; [by exists msg | done].
  - right. split; [done |]. split; [right; by eexists | by exists vs].
  - right. split; [done |]. split; [right; by eexists | by exists vs].
  - right. split; [done |]. split; [right; by eexists | by exists vs].
  - right. split; [done |]. split; [| by exists vs].
    right. inversion Hm; subst; by eexists.
  - right. split; [done |]. split; [right; by eexists | by exists vs].
  - right. split; [done |]. split; [right; by eexists | by exists vs].
  - right. split; [done |]. split; [by left | by exists vs].
Qed.

(** X20: the code InvalidArgument means that nothing was called.  An
    execution of NodePublishVolume makes no call exactly when it returns
    a status of code InvalidArgument, which is exactly when the request
    does not pass the checks or gives no class; once a call has been made
    the result is success or a status of code Internal. *)
Theorem invalid_argument_means_no_call
    (key : string) (sel : gomap → result volume.VolumeSelector)
    (req : csi.NodePublishVolumeRequest.t) (t : list Event)
    (r : result csi.NodePublishVolumeResponse) :
  runs (NodePublishVolume key sel req) t r →
  (t = [] ↔ ∃ msg, r = Err (status.Error codes.InvalidArgument msg))
  ∧ (t ≠ [] →
     r = Ok csi.mkNodePublishVolumeResponse
     ∨ ∃ msg, r = Err (status.Error codes.Internal msg))
  ∧ (t = [] ↔ ∀ vs, ¬ selected sel req vs).
Proof.
  intros Hr%runs_NodePublishVolume.
  destruct (publish_run_kind key sel req t r Hr)
    as [(Ht & Hrej & Hnone) | (Ht & Hkind & vs & Hsel)].
  - split; [done |]. split; [done |]. done.
  - split; [| split; [done |]].
    + split; [done |]. intros [msg ->].
      destruct Hkind as [? | [msg' ?]]; discriminate.
    + split; [done |]. intros Hnone. by destruct (Hnone vs).
Qed.

Lemma invalid_argument_means_no_call_witness :
  let publish := NodePublishVolume sample_key sample_selector sample_request in
  ∃ msg, (exec publish classless_world).1 = Err (status.Error codes.Internal msg).
Proof.
  cbv zeta.
  destruct (invalid_argument_means_no_call sample_key sample_selector sample_request
              (trace_in (NodePublishVolume sample_key sample_selector sample_request)
                        classless_world)
              (exec (NodePublishVolume sample_key sample_selector sample_request)
                    classless_world).1)
    as (_ & Hkind & _).
  - exact (proj1 (exec_trace_in _ _)).
  - destruct Hkind as [Hok | Herr].
    + vm_compute. discriminate.
    + vm_compute in Hok. discriminate Hok.
    + exact Herr.
Defined.




